(** * zotero-AI-tagger: the batch tagging pipeline

    A shallow embedding of the completion client ([ai-service.ts]), the
    tag-suggestion engine ([tag-engine.ts]) and the batch scheduler
    ([batch-processor.ts]), with the properties of the pipeline stated and
    proved over it; and of what surrounds them: the full-text extraction
    ([text-extractor.ts]), the menu commands ([menu.ts]) and the
    single-file script the plugin grew out of ([script.js]).

    Conventions.  JavaScript numbers that the code only uses as integers
    (HTTP status, attempt counter, milliseconds, preference values) are [Z].
    Strings are [string]; an [Error] is represented by its [message].
    An [async] function is a function of the world it runs in: it returns
    either a value or a thrown message, together with the world it leaves
    behind.  Objects that the code shares by reference (the messages of a
    request, the [results] array of a batch) live in a store and are named
    by their location. *)

From Stdlib Require Import ZArith List String Ascii Bool Lia.
From stdpp Require Import base gmap list strings pretty.

Local Open Scope string_scope.
Local Open Scope list_scope.

(** ** JavaScript built-ins used by the sources *)

Module Js.

(** [ToBoolean] on a string: only the empty string is falsy. *)
Definition truthy (s : string) : bool :=
  match s with EmptyString => false | String _ _ => true end.

(** [o || d] for an optional string [o]. *)
Definition or_string (o : option string) (d : string) : string :=
  match o with
  | Some s => if truthy s then s else d
  | None => d
  end.

(** [n || d] for a number: [0] is falsy. *)
Definition or_number (n d : Z) : Z := if (n =? 0)%Z then d else n.

(** [String.prototype.includes]. *)
Fixpoint includes (s sub : string) : bool :=
  String.prefix sub s ||
  match s with
  | EmptyString => false
  | String _ rest => includes rest sub
  end.

(** [String.prototype.startsWith]. *)
Definition startsWith (s p : string) : bool := String.prefix p s.

(** [Array.prototype.includes] on an array of strings. *)
Fixpoint array_includes (xs : list string) (x : string) : bool :=
  match xs with
  | [] => false
  | y :: ys => String.eqb y x || array_includes ys x
  end.

(** [new Set(xs)] followed by iteration ([[...set]]): a [Set] remembers
    insertion order and ignores the insertion of a value it holds. *)
Definition set_add (seen : list string) (x : string) : list string :=
  if array_includes seen x then seen else seen ++ [x].

Definition set_of (xs : list string) : list string :=
  fold_left set_add xs [].

(** A number that may be [NaN]. *)
Inductive number := Num (z : Z) | NaN.

Definition is_space (c : ascii) : bool :=
  let n := nat_of_ascii c in
  ((9 <=? n) && (n <=? 13))%nat || (n =? 32)%nat.

Definition digit (c : ascii) : option Z :=
  let n := nat_of_ascii c in
  if ((48 <=? n) && (n <=? 57))%nat then Some (Z.of_nat n - 48)%Z else None.

Fixpoint skip_space (s : string) : string :=
  match s with
  | String c rest => if is_space c then skip_space rest else s
  | EmptyString => s
  end.

Fixpoint digits (acc : option Z) (s : string) : option Z :=
  match s with
  | String c rest =>
      match digit c with
      | Some d => digits (Some (10 * default 0%Z acc + d)%Z) rest
      | None => acc
      end
  | EmptyString => acc
  end.

(** [parseInt(s, 10)]: leading white space, an optional sign, then the
    longest run of decimal digits; [NaN] when there is no digit. *)
Definition parseInt (s : string) : number :=
  let s := skip_space s in
  let '(sign, s) :=
    match s with
    | String "-" rest => ((-1)%Z, rest)
    | String "+" rest => (1%Z, rest)
    | _ => (1%Z, s)
    end in
  match digits None s with
  | Some n => Num (sign * n)
  | None => NaN
  end.

Definition times (a : number) (k : Z) : number :=
  match a with Num z => Num (z * k) | NaN => NaN end.

(** [String.prototype.trim] (ASCII white space). *)
Fixpoint trim_end (s : string) : string :=
  match s with
  | EmptyString => EmptyString
  | String c rest =>
      match trim_end rest with
      | EmptyString => if is_space c then EmptyString else String c EmptyString
      | kept => String c kept
      end
  end.

Definition trim (s : string) : string := trim_end (skip_space s).

(** [Array.prototype.join]. *)
Definition join (sep : string) (xs : list string) : string :=
  String.concat sep xs.

(** [Array.prototype.sort()] without a comparator: ascending order of
    the code units, here the bytes of the string. *)
Fixpoint sort_insert (x : string) (sorted : list string) : list string :=
  match sorted with
  | [] => [x]
  | y :: rest => if String.leb x y then x :: sorted else y :: sort_insert x rest
  end.

Definition sort (xs : list string) : list string :=
  fold_right sort_insert [] xs.

(** The message of the [TypeError] raised by a property access on
    [undefined] or [null]; its exact text depends on the engine. *)
Definition TypeError : string := "TypeError".

End Js.

(** ** The completion client ([ai-service.ts]) *)

Module AiService.

Inductive Role := system | user | assistant.

Record ChatMessage := { role : Role; content : string }.

(** [ResponseFormat]: the fields of the schema that the engine sets.
    [tag_enum] is [schema.properties.tags.items.enum]. *)
Record ResponseFormat := {
  schema_name : string;
  strict : bool;
  tag_enum : option (list string);
  required : list string;
  additionalProperties : bool;
}.

(** Message objects are shared by reference: a request holds the
    locations of its messages. *)
Definition loc := positive.

Record ChatCompletionRequest := {
  messages : list loc;
  temperature : option string;
  max_tokens : option Z;
  response_format : option ResponseFormat;
}.

Record Choice := {
  message_content : string;
  message_role : string;
  finish_reason : string;
}.

Record ChatCompletionResponse := {
  choices : list Choice;
  response_model : option string;
}.

(** What [JSON.stringify(body)] puts on the wire. *)
Record RequestBody := {
  body_model : string;
  body_messages : list ChatMessage;
  body_temperature : option string;
  body_max_tokens : option Z;
  body_response_format : option ResponseFormat;
}.

(** What [response.json()] yields. *)
Inductive JsonBody :=
| BodyRejects (reason : string)
| BodyNull
| BodyJson (error_message : option string) (completion : ChatCompletionResponse).

Record Response := {
  status : Z;
  statusText : string;
  retry_after : option string;
  body : JsonBody;
}.

Inductive FetchOutcome :=
| NetworkError (reason : string)
| Responded (r : Response).

Inductive effect :=
| Fetch (sent : RequestBody)
| Sleep (ms : Js.number).

Record World := {
  heap : gmap loc ChatMessage;
  fetched : nat;
  effects : list effect;
}.

(** Outcome of an [async] call: the promise fulfils or rejects. *)
Inductive settled (A : Type) :=
| Fulfilled (a : A)
| Rejected (message : string).
Arguments Fulfilled {A} a.
Arguments Rejected {A} message.

Definition Async (A : Type) : Type := World → settled A * World.

Definition ret {A} (a : A) : Async A := λ w, (Fulfilled a, w).
Definition throw {A} (m : string) : Async A := λ w, (Rejected m, w).
Definition bind {A B} (m : Async A) (k : A → Async B) : Async B :=
  λ w, match m w with
       | (Fulfilled a, w') => k a w'
       | (Rejected e, w') => (Rejected e, w')
       end.
(** [try { m } catch (e) { h e }] *)
Definition try_catch {A} (m : Async A) (h : string → Async A) : Async A :=
  λ w, match m w with
       | (Fulfilled a, w') => (Fulfilled a, w')
       | (Rejected e, w') => h e w'
       end.

Notation "'await' x ':=' m 'in' k" := (bind m (λ x, k))
  (at level 10, x name, m at level 100, k at level 200).
Notation "'wait' m 'then' k" := (bind m (λ _, k))
  (at level 10, m at level 100, k at level 200).

Definition emit (e : effect) : Async unit :=
  λ w, (Fulfilled tt,
        {| heap := heap w; fetched := fetched w; effects := effects w ++ [e] |}).

Definition sleep (ms : Js.number) : Async unit := emit (Sleep ms).

Definition read_heap : Async (gmap loc ChatMessage) := λ w, (Fulfilled (heap w), w).

Definition write_heap (l : loc) (m : ChatMessage) : Async unit :=
  λ w, (Fulfilled tt,
        {| heap := <[l := m]> (heap w); fetched := fetched w; effects := effects w |}).

Definition ok (r : Response) : bool :=
  ((200 <=? status r) && (status r <=? 299))%Z.

(** [Math.min(1000 * Math.pow(2, attempt), 30000)].  For a counter
    [attempt >= 0] the double-precision value is the integer below:
    [1000 * 2^attempt] is exactly representable until it overflows to
    [Infinity], where the minimum is [30000] as well. *)
Definition backoff (attempt : Z) : Z := Z.min (1000 * 2 ^ attempt) 30000.

Record Options := {
  maxRetries : option Z;
  useStructuredOutput : option bool;
}.

Inductive iteration :=
| Continue
| Return (r : ChatCompletionResponse).

Section Client.

(** [getPref("model")]. *)
Variable model : string.
(** The provider: the outcome of the [k]-th call of [fetch], which may
    depend on what was sent. *)
Variable provider : nat → RequestBody → FetchOutcome.

(** [await fetch(url, {method: "POST", headers, body: JSON.stringify(body)})] *)
Definition fetch (sent : RequestBody) : Async Response :=
  λ w,
    let w' := {| heap := heap w; fetched := S (fetched w);
                 effects := effects w ++ [Fetch sent] |} in
    match provider (fetched w) sent with
    | NetworkError reason => (Rejected reason, w')
    | Responded r => (Fulfilled r, w')
    end.

(** The body of the [try] block of one loop iteration (lines 104-144). *)
Definition attempt_body (maxRetries attempt : Z) (sent : RequestBody)
  : Async iteration :=
  await response := fetch sent in
  if (status response =? 429)%Z then
    let waitMs :=
      match retry_after response with
      | Some retryAfter =>
          if Js.truthy retryAfter
          then Js.times (Js.parseInt retryAfter) 1000
          else Js.Num (backoff attempt)
      | None => Js.Num (backoff attempt)
      end in
    wait sleep waitMs then ret Continue
  else if ((500 <=? status response) && (attempt <? maxRetries))%Z then
    wait sleep (Js.Num (backoff attempt)) then ret Continue
  else if negb (ok response) then
    let errorMessage :=
      "HTTP " +:+ pretty (status response) +:+ ": " +:+ statusText response in
    match body response with
    | BodyJson error_message _ =>
        throw (errorMessage +:+ " - " +:+ Js.or_string error_message "")
    | BodyNull | BodyRejects _ => throw errorMessage
    end
  else
    match body response with
    | BodyJson _ completion => ret (Return completion)
    | BodyNull => ret (Return {| choices := []; response_model := None |})
    | BodyRejects reason => throw reason
    end.

(** The [for] loop (lines 102-155) with [remaining] iterations to go,
    followed by the final [throw] (line 157). *)
Fixpoint attempts (remaining : nat) (maxRetries attempt : Z)
    (lastError : option string) (sent : RequestBody)
  : Async ChatCompletionResponse :=
  match remaining with
  | O => throw (default "Request failed after all retries" lastError)
  | S remaining' =>
      λ w,
        match attempt_body maxRetries attempt sent w with
        | (Fulfilled (Return result), w') => (Fulfilled result, w')
        | (Fulfilled Continue, w') =>
            attempts remaining' maxRetries (attempt + 1) lastError sent w'
        | (Rejected error, w') =>
            (wait (if (attempt <? maxRetries)%Z
                    then sleep (Js.Num (backoff attempt))
                    else ret tt)
             then attempts remaining' maxRetries (attempt + 1) (Some error) sent)
              w'
        end
  end.

Definition serialize (h : gmap loc ChatMessage) (request : ChatCompletionRequest)
    (structured : bool) : RequestBody :=
  {| body_model := model;
     body_messages := omap (λ l, h !! l) (messages request);
     body_temperature := temperature request;
     body_max_tokens := max_tokens request;
     body_response_format :=
       if structured then response_format request else None |}.

Definition chatCompletion (request : ChatCompletionRequest)
    (options : option Options) : Async ChatCompletionResponse :=
  let maxRetries := default 3%Z (options ≫= maxRetries) in
  let useStructuredOutput := default true (options ≫= useStructuredOutput) in
  await h := read_heap in
  attempts (Z.to_nat (maxRetries + 1)) maxRetries 0 None
           (serialize h request useStructuredOutput).

Definition json_instruction : string :=
  let nl := String (ascii_of_nat 10) EmptyString in
  let q := String (ascii_of_nat 34) EmptyString in
  nl +:+ nl +:+
  "IMPORTANT: You must respond with ONLY a valid JSON object, no other text. The JSON must have this exact structure: { "
  +:+ q +:+ "tags" +:+ q +:+ ": [" +:+ q +:+ "tag1" +:+ q +:+ ", "
  +:+ q +:+ "tag2" +:+ q +:+ "], " +:+ q +:+ "reasoning" +:+ q +:+ ": "
  +:+ q +:+ "explanation" +:+ q +:+ " }".

Definition schema_rejected (message : string) : bool :=
  Js.includes message "response_format" ||
  Js.includes message "json_schema" ||
  Js.includes message "not supported".

(** Lines 183-188: the array is copied, its elements are not. *)
Definition add_json_instruction (request : ChatCompletionRequest) : Async unit :=
  let modifiedMessages := messages request in
  match last modifiedMessages with
  | None => throw Js.TypeError
  | Some l =>
      await h := read_heap in
      match h !! l with
      | None => throw Js.TypeError
      | Some lastMsg =>
          match role lastMsg with
          | user =>
              write_heap l {| role := role lastMsg;
                              content := content lastMsg +:+ json_instruction |}
          | _ => ret tt
          end
      end
  end.

Definition chatCompletionWithFallback (request : ChatCompletionRequest)
  : Async ChatCompletionResponse :=
  try_catch
    (chatCompletion request
       (Some {| maxRetries := None; useStructuredOutput := Some true |}))
    (λ message,
       if schema_rejected message then
         wait add_json_instruction request then
         chatCompletion
           {| messages := messages request;
              temperature := temperature request;
              max_tokens := max_tokens request;
              response_format := None |}
           (Some {| maxRetries := None; useStructuredOutput := Some false |})
       else throw message).

End Client.

Definition empty_world (h : gmap loc ChatMessage) : World :=
  {| heap := h; fetched := 0; effects := [] |}.

Definition sleeps (es : list effect) : list Js.number :=
  omap (λ e, match e with Sleep ms => Some ms | Fetch _ => None end) es.

Definition fetches (es : list effect) : list RequestBody :=
  omap (λ e, match e with Fetch b => Some b | Sleep _ => None end) es.

End AiService.

(** ** The host library

    The item and tag store belongs to Zotero; the plugin only calls it. *)

Module Zotero.

Record Creator := { firstName : option string; lastName : option string }.

Record Item := {
  id : Z;
  libraryID : Z;
  itemType : string;
  fields : gmap string string;
  creators : list Creator;
  isAttachment : bool;
  isRegularItem : bool;
  parentID : option Z;
  tags : list string;
}.

(** [item.getField(name)]: the empty string when the field is unset. *)
Definition getField (item : Item) (name : string) : string :=
  default "" (fields item !! name).

(** [items] are the item objects handed out by [Zotero.Items.get] (one
    object per id, shared by all callers); [persisted] is what the
    database holds; [saves] counts the calls of [saveTx]. *)
Record Store := {
  items : gmap Z Item;
  persisted : gmap Z (list string);
  saves : nat;
}.

Definition with_tags (item : Item) (ts : list string) : Item :=
  {| id := id item; libraryID := libraryID item; itemType := itemType item;
     fields := fields item; creators := creators item;
     isAttachment := isAttachment item; isRegularItem := isRegularItem item;
     parentID := parentID item; tags := ts |}.

(** Modelled from the spec: [item.addTag(tag)] of the host, which is not
    part of the sources.  "tag already present -> add is a no-op";
    otherwise the tag joins the tags of the item object. *)
Definition addTag (item : Item) (tag : string) : Item :=
  if Js.array_includes (tags item) tag then item
  else with_tags item (tags item ++ [tag]).

(** Modelled from the spec: [item.saveTx()] of the host, "persists the
    item transactionally": the database takes the tags of the item
    object in one step. *)
Definition saveTx (item : Item) (s : Store) : Store :=
  {| items := items s;
     persisted := <[id item := tags item]> (persisted s);
     saves := S (saves s) |}.

End Zotero.

(** ** Preferences ([preferences.ts], defaults of [prefs.js]) *)

Module Preferences.

Record Prefs := {
  model : string;
  tagSource : string;
  maxTags : Z;
  temperature : string;
  includeFullText : bool;
  maxFullTextLength : Z;
  tagPrefixFilter : string;
  systemPrompt : string;
  confirmationMode : bool;
  concurrency : Z;
  requestInterval : Z;
}.

Definition defaults : Prefs :=
  {| model := "gpt-4.1-mini";
     tagSource := "existing";
     maxTags := 8;
     temperature := "0.1";
     includeFullText := true;
     maxFullTextLength := 12000;
     tagPrefixFilter := "_";
     systemPrompt := "You are a research librarian helping categorize academic documents. Suggest only tags that best describe the document's content, methodology, and subject area.";
     confirmationMode := false;
     concurrency := 3;
     requestInterval := 1000 |}.

End Preferences.

(** ** The tag-suggestion engine ([tag-engine.ts]) *)

Module TagEngine.

Import AiService.

Record TagResult := {
  itemID : Z;
  title : string;
  suggestedTags : list string;
  appliedTags : list string;
  reasoning : string;
  error : option string;
}.

(** [JSON.parse(content) as {tags: string[]; reasoning: string}]: the
    members the engine reads.  A missing [tags] member is [None]
    ([new Set(undefined)] is the empty set). *)
Record Parsed := {
  parsed_tags : option (list string);
  parsed_reasoning : string;
}.

Definition nl : string := String (ascii_of_nat 10) EmptyString.

Definition failed (itemID : Z) (title message : string) : TagResult :=
  {| itemID := itemID; title := title; suggestedTags := []; appliedTags := [];
     reasoning := ""; error := Some message |}.

(** Lines 558-560: [[...new Set(parsed.tags)].filter(tag => !currentTags.includes(tag))]. *)
Definition post_filter (parsedTags currentTags : list string) : list string :=
  List.filter (λ tag, negb (Js.array_includes currentTags tag))
              (Js.set_of parsedTags).

Definition buildResponseFormat (availableTags : list string) (tagSource : string)
  : ResponseFormat :=
  {| schema_name := "tag_suggestions";
     strict := true;
     tag_enum := if String.eqb tagSource "existing" then Some availableTags else None;
     required := ["tags"; "reasoning"];
     additionalProperties := false |}.

Record Metadata := {
  md_title : string;
  md_abstractNote : string;
  md_creators : string;
  md_itemType : string;
  md_publicationTitle : string;
  md_date : string;
  md_currentTags : string;
  md_doi : string;
  md_url : string;
  md_extra : string;
}.

Definition getItemMetadata (item : Zotero.Item) : Metadata :=
  {| md_title := Zotero.getField item "title";
     md_abstractNote := Zotero.getField item "abstractNote";
     md_creators :=
       Js.join "; "
         (map (λ c, Js.trim (Js.or_string (Zotero.firstName c) "" +:+ " " +:+
                             Js.or_string (Zotero.lastName c) ""))
              (Zotero.creators item));
     md_itemType := Zotero.itemType item;
     md_publicationTitle := Zotero.getField item "publicationTitle";
     md_date := Zotero.getField item "date";
     md_currentTags := Js.join ", " (Zotero.tags item);
     md_doi := Zotero.getField item "DOI";
     md_url := Zotero.getField item "url";
     md_extra := Zotero.getField item "extra" |}.

Definition buildPrompt (metadata : Metadata) (fullText : string)
    (availableTags : list string) (tagSource : string) (maxTags : Z) : string :=
  let basis :=
    if (0 <? String.length fullText)%nat
    then "Use both the metadata and full text content to make accurate suggestions."
    else "Base suggestions on the available metadata." in
  let prompt :=
    "Analyze this document and suggest relevant tags." +:+ nl +:+ nl +:+
    "DOCUMENT:" +:+ nl +:+
    "Title: " +:+ md_title metadata +:+ nl +:+
    "Authors: " +:+ md_creators metadata +:+ nl +:+
    "Type: " +:+ md_itemType metadata +:+ nl +:+
    "Publication: " +:+ md_publicationTitle metadata +:+ nl +:+
    "Date: " +:+ md_date metadata +:+ nl +:+
    "Abstract: " +:+ md_abstractNote metadata +:+ nl +:+
    "Current Tags: " +:+ md_currentTags metadata +:+ nl +:+
    "DOI: " +:+ md_doi metadata +:+ nl +:+
    "URL: " +:+ md_url metadata +:+ nl +:+
    "Extra: " +:+ md_extra metadata in
  let prompt :=
    if (0 <? String.length fullText)%nat
    then prompt +:+ nl +:+ nl +:+ "FULL TEXT CONTENT:" +:+ nl +:+ fullText
    else prompt in
  if String.eqb tagSource "existing" then
    prompt +:+ nl +:+ nl +:+ "AVAILABLE TAGS TO CHOOSE FROM:" +:+ nl +:+
    Js.join ", " availableTags +:+ nl +:+ nl +:+
    "Please suggest up to " +:+ pretty maxTags +:+
    " relevant tags from the available list that would categorize this document well. "
    +:+ basis +:+ " Only suggest tags that exist in the available list above."
  else
    (if (0 <? length availableTags)%nat
     then prompt +:+ nl +:+ nl +:+ "EXISTING LIBRARY TAGS (for reference):" +:+ nl +:+
          Js.join ", " availableTags
     else prompt) +:+ nl +:+ nl +:+
    "Please suggest up to " +:+ pretty maxTags +:+
    " relevant tags that would categorize this document well. "
    +:+ basis +:+
    " You may suggest existing tags from the list above or create new descriptive tags.".

(** [{role, content}]: a new message object. *)
Definition alloc (m : ChatMessage) : Async loc :=
  λ w, let l := fresh (dom (heap w)) in
       (Fulfilled l,
        {| heap := <[l := m]> (heap w); fetched := fetched w; effects := effects w |}).

Definition lift {A} (r : settled A) : Async A := λ w, (r, w).

Section Engine.

Variable prefs : Preferences.Prefs.
(** The host store while the call runs. *)
Variable store : Zotero.Store.
(** [Zotero.Tags.getAll(libraryID)], as tag names. *)
Variable Tags_getAll : Z → settled (list string).
(** [extractFullText(targetItem, sourceAttachment, maxLength)] of
    [text-extractor.ts], as the text it extracts. *)
Variable extractFullText : Zotero.Item → option Zotero.Item → Z → settled string.
(** [JSON.parse]. *)
Variable JSON_parse : string → settled Parsed.
Variable provider : nat → RequestBody → FetchOutcome.

(** The tag vocabulary of a library as the engine enumerates it
    (lines 330-345): the host's list, or, when that call fails, the
    tags found on the regular items of the library. *)
Definition vocabulary (libraryID : Z) : list string :=
  match Tags_getAll libraryID with
  | Fulfilled names => names
  | Rejected _ =>
      let allItems :=
        List.filter (λ it, (Zotero.libraryID it =? libraryID)%Z)
                    (map snd (map_to_list (Zotero.items store))) in
      fold_left
        (λ tagSet libItem,
           if Zotero.isRegularItem libItem
           then fold_left
                  (λ tagSet tag, if Js.truthy tag then Js.set_add tagSet tag else tagSet)
                  (Zotero.tags libItem) tagSet
           else tagSet)
        allItems []
  end.

Definition getAvailableTags (libraryID : Z) : list string :=
  let prefixFilter := Js.or_string (Some (Preferences.tagPrefixFilter prefs)) "_" in
  Js.sort
    (List.filter (λ name, negb (Js.startsWith name prefixFilter))
       (List.filter Js.truthy (vocabulary libraryID))).

(** Lines 457-475: the item that receives the tags, with the attachment
    that triggered the call; or the record returned at once. *)
Definition resolve (item : Zotero.Item) (title : string)
  : settled (Zotero.Item * option Zotero.Item) + TagResult :=
  if Zotero.isAttachment item then
    match Zotero.parentID item with
    | Some parentID =>
        if (parentID =? 0)%Z
        then inr (failed (Zotero.id item) title "Standalone attachment without parent")
        else match Zotero.items store !! parentID with
             | Some parent => inl (Fulfilled (parent, Some item))
             | None => inl (Rejected Js.TypeError)
             end
    | None => inr (failed (Zotero.id item) title "Standalone attachment without parent")
    end
  else inl (Fulfilled (item, None)).

(** The body of the [try] block of [suggestTags] (lines 456-568). *)
Definition suggest (item : Zotero.Item) (title : string) : Async TagResult :=
  match resolve item title with
  | inr early => ret early
  | inl target =>
      await target := lift target in
      let '(targetItem, sourceAttachment) := target in
      if negb (Zotero.isRegularItem targetItem) then
        ret (failed (Zotero.id item) title "Not a regular item")
      else
        let tagSource := Preferences.tagSource prefs in
        let maxTags := Preferences.maxTags prefs in
        let maxTokens := 1000%Z in
        let availableTags := getAvailableTags (Zotero.libraryID targetItem) in
        if String.eqb tagSource "existing" && (length availableTags =? 0)%nat then
          ret (failed (Zotero.id targetItem) title "No available tags found in library")
        else
          await fullText :=
            (if Preferences.includeFullText prefs
             then lift (extractFullText targetItem sourceAttachment
                          (Preferences.maxFullTextLength prefs))
             else ret "") in
          let metadata := getItemMetadata targetItem in
          let prompt := buildPrompt metadata fullText availableTags tagSource maxTags in
          let responseFormat := buildResponseFormat availableTags tagSource in
          let systemPrompt :=
            Js.or_string (Some (Preferences.systemPrompt prefs))
              "You are a research librarian helping categorize academic documents. Suggest only tags that best describe the document's content, methodology, and subject area." in
          await systemMessage := alloc {| role := system; content := systemPrompt |} in
          await userMessage := alloc {| role := user; content := prompt |} in
          await result :=
            chatCompletionWithFallback (Preferences.model prefs) provider
              {| messages := [systemMessage; userMessage];
                 temperature := Some (Preferences.temperature prefs);
                 max_tokens := Some maxTokens;
                 response_format := Some responseFormat |} in
          match choices result with
          | [] => throw Js.TypeError
          | choice :: _ =>
              await parsed := lift (JSON_parse (message_content choice)) in
              let currentTags := Zotero.tags targetItem in
              let suggestedTags :=
                post_filter (default [] (parsed_tags parsed)) currentTags in
              ret {| itemID := Zotero.id targetItem;
                     title := Js.or_string (Some (Zotero.getField targetItem "title"))
                                "(untitled)";
                     suggestedTags := suggestedTags;
                     appliedTags := [];
                     reasoning := parsed_reasoning parsed;
                     error := None |}
          end
  end.

(** [suggestTags] never rejects: the [catch] turns a failure into a
    record (lines 569-578). *)
Definition suggestTags (item : Zotero.Item) (w : World) : TagResult * World :=
  let title := Js.or_string (Some (Zotero.getField item "title")) "(untitled)" in
  match suggest item title w with
  | (Fulfilled result, w') => (result, w')
  | (Rejected message, w') => (failed (Zotero.id item) title message, w')
  end.

End Engine.

(** [applyTags] (lines 584-595).  The item object is the one the store
    hands out, so [addTag] changes it for every holder. *)
Definition applyTags (itemID : Z) (tags : list string) (s : Zotero.Store)
  : settled unit * Zotero.Store :=
  match tags, Zotero.items s !! itemID with
  | [], _ => (Fulfilled tt, s)
  | _ :: _, None => (Rejected Js.TypeError, s)
  | _ :: _, Some item =>
      let item' := fold_left Zotero.addTag tags item in
      (Fulfilled tt,
       Zotero.saveTx item'
         {| Zotero.items := <[itemID := item']> (Zotero.items s);
            Zotero.persisted := Zotero.persisted s;
            Zotero.saves := Zotero.saves s |})
  end.

End TagEngine.

(** ** The batch scheduler ([batch-processor.ts])

    JavaScript runs one task at a time until its next [await].  The
    scheduler is therefore a transition system: a state between two
    suspension points, and one transition for each continuation the event
    loop may run next, or for a call of [cancel()] by the caller.  What
    [suggestTags], the confirmation hook and [applyTags] answer, and when,
    is chosen by the environment; the progress callback is taken to
    return normally. *)

Module BatchProcessor.

Import TagEngine.

(** Array objects are shared by reference. *)
Definition ref := positive.

Record BatchProgress := {
  total : nat;
  current : nat;
  results : ref;
  cancelled : bool;
}.

(** The queue holds the closures [() => { this.active++; resolve(); }];
    each is named by the task whose [acquire()] promise it resolves. *)
Record Semaphore := {
  limit : Z;
  active : Z;
  queue : list nat;
}.

(** [acquire()], called by task [i]: the new semaphore, and whether the
    call returned at once (line 105). *)
Definition acquire (i : nat) (s : Semaphore) : Semaphore * bool :=
  if (active s <? limit s)%Z
  then ({| limit := limit s; active := active s + 1; queue := queue s |}, true)
  else ({| limit := limit s; active := active s; queue := queue s ++ [i] |}, false).

(** [release()]: the new semaphore, and the task whose closure was
    shifted from the queue and run. *)
Definition release (s : Semaphore) : Semaphore * option nat :=
  match queue s with
  | [] => ({| limit := limit s; active := active s - 1; queue := [] |}, None)
  | next :: rest =>
      ({| limit := limit s; active := active s - 1 + 1; queue := rest |}, Some next)
  end.

(** How a call of [processItem] ended. *)
Inductive Completion :=
| NotStarted                              (* line 162 *)
| Skipped                                 (* lines 166, 174, 179 *)
| Recorded (result : TagResult)           (* line 195 *)
| Threw (message : string).

(** Where a call of [processItem] is suspended. *)
Inductive Task :=
| AwaitAcquire (granted : bool)           (* line 164 *)
| AwaitSleep                              (* line 170 *)
| AwaitSuggest                            (* line 177 *)
| AwaitConfirm (result : TagResult)       (* line 186 *)
| AwaitApply (result : TagResult) (tagsToApply : list string)  (* line 190 *)
| Done (how : Completion).

(** One call of [onProgress]: the object it received, and what its
    [results] array held when the call was made. *)
Record Report := {
  snapshot : BatchProgress;
  seen : list TagResult;
}.

Inductive BatchPromise :=
| Pending
| Resolved
| Rejected (message : string).

Record State := {
  interval : Z;
  confirm : bool;
  semaphore : Semaphore;
  cancelled_flag : bool;
  requestCount : nat;
  progress : BatchProgress;
  arrays : gmap ref (list TagResult);
  tasks : list Task;
  promise : BatchPromise;
  reported : list Report;
  (** History: the tasks in the order their [acquire()] was granted.
      The code does not keep it. *)
  admissions : list nat;
}.

Definition is_done (t : Task) : bool :=
  match t with Done _ => true | _ => false end.

Definition set_task (i : nat) (t : Task) (st : State) : State :=
  {| interval := interval st; confirm := confirm st; semaphore := semaphore st;
     cancelled_flag := cancelled_flag st; requestCount := requestCount st;
     progress := progress st; arrays := arrays st;
     tasks := <[i := t]> (tasks st);
     promise := promise st; reported := reported st;
     admissions := admissions st |}.

(** [progress.results.push(result)] *)
Definition push (result : TagResult) (st : State) : State :=
  {| interval := interval st; confirm := confirm st; semaphore := semaphore st;
     cancelled_flag := cancelled_flag st; requestCount := requestCount st;
     progress := progress st;
     arrays := <[results (progress st) :=
                   (default [] (arrays st !! results (progress st)) ++ [result])%list]>
               (arrays st);
     tasks := tasks st;
     promise := promise st; reported := reported st;
     admissions := admissions st |}.

(** [requestCount++] *)
Definition count_request (st : State) : State :=
  {| interval := interval st; confirm := confirm st; semaphore := semaphore st;
     cancelled_flag := cancelled_flag st; requestCount := S (requestCount st);
     progress := progress st; arrays := arrays st; tasks := tasks st;
     promise := promise st; reported := reported st;
     admissions := admissions st |}.

(** [Promise.all] over the calls of [processItem], then [return progress]:
    the batch promise rejects with the first rejection and resolves when
    every call has fulfilled. *)
Definition settle (how : Completion) (ts : list Task) (p : BatchPromise)
  : BatchPromise :=
  match p, how with
  | Pending, Threw message => Rejected message
  | Pending, _ => if forallb is_done ts then Resolved else Pending
  | _, _ => p
  end.

(** The [finally] block (lines 197-199) of task [i], whose [try] block
    ended as [how]; the promise of the task settles. *)
Definition finish (i : nat) (how : Completion) (st : State) : State :=
  let '(semaphore', next) := release (semaphore st) in
  let tasks' :=
    match next with
    | Some j => <[j := AwaitAcquire true]> (<[i := Done how]> (tasks st))
    | None => <[i := Done how]> (tasks st)
    end in
  let progress' :=
    {| total := total (progress st); current := S (current (progress st));
       results := results (progress st); cancelled := cancelled (progress st) |} in
  (* onProgress({ ...progress }): the fields are copied, [results] as a reference *)
  let copy :=
    {| total := total progress'; current := current progress';
       results := results progress'; cancelled := cancelled progress' |} in
  {| interval := interval st; confirm := confirm st;
     semaphore := semaphore';
     cancelled_flag := cancelled_flag st; requestCount := requestCount st;
     progress := progress';
     arrays := arrays st;
     tasks := tasks';
     promise := settle how tasks' (promise st);
     reported := reported st ++
                 [{| snapshot := copy;
                     seen := default [] (arrays st !! results copy) |}];
     admissions := match next with
                   | Some j => admissions st ++ [j]
                   | None => admissions st
                   end |}.

(** Lines 172-177: count the request, check for cancellation, call
    [suggestTags]. *)
Definition dispatch (i : nat) (st : State) : State :=
  let st := count_request st in
  if cancelled_flag st then finish i Skipped st
  else set_task i AwaitSuggest st.

(** Lines 166-171, when [acquire()] has resolved. *)
Definition after_acquire (i : nat) (st : State) : State :=
  if cancelled_flag st then finish i Skipped st
  else if (0 <? requestCount st)%nat && (0 <? interval st)%Z
       then set_task i AwaitSleep st
       else dispatch i st.

Definition record (i : nat) (result : TagResult) (st : State) : State :=
  finish i (Recorded result) (push result st).

(** Lines 189-195. *)
Definition commit (i : nat) (result : TagResult)
    (tagsToApply : option (list string)) (st : State) : State :=
  match tagsToApply with
  | Some (tag :: more) => set_task i (AwaitApply result (tag :: more)) st
  | Some [] | None => record i result st
  end.

Definition has_error (result : TagResult) : bool :=
  match error result with
  | Some message => Js.truthy message
  | None => false
  end.

(** Lines 179-195, when [suggestTags] has returned [result]. *)
Definition after_suggest (i : nat) (result : TagResult) (st : State) : State :=
  if cancelled_flag st then finish i Skipped st
  else if negb (has_error result) && (0 <? length (suggestedTags result))%nat
       then if confirm st
            then set_task i (AwaitConfirm result) st
            else commit i result (Some (suggestedTags result)) st
       else record i result st.

(** Lines 191-195, when [applyTags] has fulfilled. *)
Definition after_apply (i : nat) (result : TagResult) (tagsToApply : list string)
    (st : State) : State :=
  record i
    {| itemID := itemID result; title := title result;
       suggestedTags := suggestedTags result; appliedTags := tagsToApply;
       reasoning := reasoning result; error := error result |}
    st.

(** What an awaited promise settles with. *)
Inductive Settlement :=
| Woke                                     (* [acquire()] or [sleep()] *)
| Suggested (result : TagResult)           (* [suggestTags] never rejects *)
| Confirmed (tags : option (list string))  (* [confirmFn] returned *)
| ConfirmThrew (message : string)          (* [confirmFn] threw or rejected *)
| Applied                                  (* [applyTags] fulfilled *)
| ApplyThrew (message : string).           (* [applyTags] rejected *)

Inductive Event :=
| Cancel
| Resume (i : nat) (with_ : Settlement).

(** [cancel()] (lines 155-158). *)
Definition cancel (st : State) : State :=
  {| interval := interval st; confirm := confirm st; semaphore := semaphore st;
     cancelled_flag := true; requestCount := requestCount st;
     progress := {| total := total (progress st); current := current (progress st);
                    results := results (progress st); cancelled := true |};
     arrays := arrays st; tasks := tasks st;
     promise := promise st; reported := reported st;
     admissions := admissions st |}.

(** One turn of the event loop; [None] when the event cannot happen in
    this state. *)
Definition step (st : State) (e : Event) : option State :=
  match e with
  | Cancel => Some (cancel st)
  | Resume i v =>
      match tasks st !! i, v with
      | Some (AwaitAcquire true), Woke => Some (after_acquire i st)
      | Some AwaitSleep, Woke => Some (dispatch i st)
      | Some AwaitSuggest, Suggested result => Some (after_suggest i result st)
      | Some (AwaitConfirm result), Confirmed tags => Some (commit i result tags st)
      | Some (AwaitConfirm _), ConfirmThrew message => Some (finish i (Threw message) st)
      | Some (AwaitApply result tagsToApply), Applied =>
          Some (after_apply i result tagsToApply st)
      | Some (AwaitApply _ _), ApplyThrew message => Some (finish i (Threw message) st)
      | _, _ => None
      end
  end.

Fixpoint run (st : State) (es : list Event) : option State :=
  match es with
  | [] => Some st
  | e :: es' =>
      match step st e with
      | Some st' => run st' es'
      | None => None
      end
  end.

(** The synchronous start of [processItem] for the [i]-th item: the
    check of line 162, then the call of [acquire()] up to its [await]. *)
Definition start (st : State) (i : nat) : State :=
  if cancelled_flag st then
    {| interval := interval st; confirm := confirm st; semaphore := semaphore st;
       cancelled_flag := cancelled_flag st; requestCount := requestCount st;
       progress := progress st; arrays := arrays st;
       tasks := tasks st ++ [Done NotStarted];
       promise := promise st; reported := reported st;
       admissions := admissions st |}
  else
    let '(semaphore', granted) := acquire i (semaphore st) in
    {| interval := interval st; confirm := confirm st; semaphore := semaphore';
       cancelled_flag := cancelled_flag st; requestCount := requestCount st;
       progress := progress st; arrays := arrays st;
       tasks := tasks st ++ [AwaitAcquire granted];
       promise := promise st; reported := reported st;
       admissions := if granted then admissions st ++ [i] else admissions st |}.

(** [processBatch(items, onProgress, confirmFn)] up to its [return]:
    every [processItem] has run to its first [await].  [confirmFn] tells
    whether a confirmation hook was passed. *)
Definition processBatch (prefs : Preferences.Prefs) (items : list Zotero.Item)
    (confirmFn : bool) : State :=
  let concurrency := Js.or_number (Preferences.concurrency prefs) 3 in
  let interval := Js.or_number (Preferences.requestInterval prefs) 1000 in
  let array : ref := fresh (dom (∅ : gmap ref (list TagResult))) in
  let st :=
    fold_left start (seq 0 (length items))
      {| interval := interval; confirm := confirmFn;
         semaphore := {| limit := concurrency; active := 0; queue := [] |};
         cancelled_flag := false; requestCount := 0;
         progress := {| total := length items; current := 0;
                        results := array; cancelled := false |};
         arrays := {[ array := [] ]};
         tasks := [];
         promise := Pending; reported := [];
         admissions := [] |} in
  {| interval := BatchProcessor.interval st; confirm := confirm st;
     semaphore := semaphore st;
     cancelled_flag := cancelled_flag st; requestCount := requestCount st;
     progress := progress st; arrays := arrays st; tasks := tasks st;
     promise := if forallb is_done (tasks st) then Resolved else Pending;
     reported := reported st; admissions := admissions st |}.

(** A callback that does [snapshot.results.push(result)] on the object
    it received. *)
Definition callback_push (received : BatchProgress) (result : TagResult)
    (st : State) : State :=
  {| interval := interval st; confirm := confirm st; semaphore := semaphore st;
     cancelled_flag := cancelled_flag st; requestCount := requestCount st;
     progress := progress st;
     arrays := <[results received :=
                   default [] (arrays st !! results received) ++ [result]]>
               (arrays st);
     tasks := tasks st;
     promise := promise st; reported := reported st;
     admissions := admissions st |}.

(** Observations. *)

(** The contents of the array a progress object refers to. *)
Definition results_of (st : State) (p : BatchProgress) : list TagResult :=
  default [] (arrays st !! results p).

Definition count (f : Task → bool) (ts : list Task) : nat :=
  length (List.filter f ts).



Definition all_done (st : State) : bool := forallb is_done (tasks st).

End BatchProcessor.

(** ** The properties, in the words of the specification *)

Module Spec.

Import AiService.

(** "Deduplicate (order of first occurrence preserved)": an element stays
    where it first occurs and its later occurrences go. *)
Fixpoint dedup_first (xs : list string) : list string :=
  match xs with
  | [] => []
  | x :: rest => x :: List.filter (λ y, negb (String.eqb x y)) (dedup_first rest)
  end.

(** "... and drop any tag already present on the target item". *)
Definition dedup_and_drop (suggested current : list string) : list string :=
  List.filter (λ tag, negb (Js.array_includes current tag)) (dedup_first suggested).

(** "min(1000·2^(n-1), 30000)": the delay before the [n]-th retry. *)
Definition retry_delay (n : nat) : Z := Z.min (1000 * 2 ^ (Z.of_nat n - 1)) 30000.

(** A 429 or 5xx response without a [retry-after] header. *)
Definition overloaded (o : FetchOutcome) : Prop :=
  ∃ r, o = Responded r ∧ (status r = 429%Z ∨ (500 ≤ status r)%Z) ∧ retry_after r = None.

(** A 4xx response other than 429. *)
Definition client_error (r : Response) : Prop :=
  (400 ≤ status r)%Z ∧ (status r < 500)%Z ∧ status r ≠ 429%Z.



End Spec.

(** ** Concrete inputs *)

Module Scenarios.

Import AiService TagEngine.

(** The item of the scenario of the specification: "Quantum Effects in X",
    tagged [physics], in library 1. *)
Definition quantum : Zotero.Item :=
  {| Zotero.id := 7; Zotero.libraryID := 1; Zotero.itemType := "journalArticle";
     Zotero.fields := {[ "title" := "Quantum Effects in X" ]};
     Zotero.creators := [];
     Zotero.isAttachment := false; Zotero.isRegularItem := true;
     Zotero.parentID := None; Zotero.tags := ["physics"] |}.

Definition library : Zotero.Store :=
  {| Zotero.items := {[ 7%Z := quantum ]};
     Zotero.persisted := {[ 7%Z := ["physics"] ]};
     Zotero.saves := 0 |}.

(** A request with one user message, kept at location 1. *)
Definition asked : gmap loc ChatMessage :=
  {[ 1%positive := {| role := user; content := "Suggest tags." |} ]}.

Definition ask : ChatCompletionRequest :=
  {| messages := [1%positive]; temperature := Some "0.1";
     max_tokens := Some 1000%Z; response_format := None |}.

Definition no_completion : ChatCompletionResponse :=
  {| choices := []; response_model := None |}.

(** A provider that is always rate limited, without a retry-after header. *)
Definition busy : nat → RequestBody → FetchOutcome :=
  λ _ _, Responded {| status := 429; statusText := "Too Many Requests";
                      retry_after := None; body := BodyNull |}.

(** A provider that answers every request with 400. *)
Definition refusing : nat → RequestBody → FetchOutcome :=
  λ _ _, Responded {| status := 400; statusText := "Bad Request";
                      retry_after := None;
                      body := BodyJson (Some "invalid request") no_completion |}.

(** A provider that does not support structured output: it answers 400
    to a request that carries [response_format]. *)
Definition unstructured (reply : Response) : nat → RequestBody → FetchOutcome :=
  λ _ sent,
    match body_response_format sent with
    | Some _ =>
        Responded {| status := 400; statusText := "Bad Request";
                     retry_after := None;
                     body := BodyJson (Some "response_format is not supported")
                               no_completion |}
    | None => Responded reply
    end.

Definition structured_ask : ChatCompletionRequest :=
  {| messages := [1%positive]; temperature := Some "0.1";
     max_tokens := Some 1000%Z;
     response_format := Some (TagEngine.buildResponseFormat ["physics"] "existing") |}.

Definition sent_ask : RequestBody :=
  {| body_model := "gpt-4.1-mini";
     body_messages := [{| role := user; content := "Suggest tags." |}];
     body_temperature := Some "0.1";
     body_max_tokens := Some 1000%Z;
     body_response_format := None |}.

(** The tag index of library 1, as the scenario of the specification has it. *)
Definition tag_index : Z → settled (list string) :=
  λ _, Fulfilled ["physics"; "biology"; "chemistry"].

Definition no_text : Zotero.Item → option Zotero.Item → Z → settled string :=
  λ _ _ _, Fulfilled "".

Definition quote : string := String (ascii_of_nat 34) EmptyString.

(** The texts [{"tags":["astrology"],"reasoning":"stars"}] and
    [{"tags":["physics","biology"],"reasoning":"..."}]. *)
Definition astrology_json : string :=
  "{" +:+ quote +:+ "tags" +:+ quote +:+ ":[" +:+ quote +:+ "astrology" +:+ quote
  +:+ "]," +:+ quote +:+ "reasoning" +:+ quote +:+ ":" +:+ quote +:+ "stars"
  +:+ quote +:+ "}".

Definition biology_json : string :=
  "{" +:+ quote +:+ "tags" +:+ quote +:+ ":[" +:+ quote +:+ "physics" +:+ quote
  +:+ "," +:+ quote +:+ "biology" +:+ quote
  +:+ "]," +:+ quote +:+ "reasoning" +:+ quote +:+ ":" +:+ quote +:+ "..."
  +:+ quote +:+ "}".

(** [JSON.parse] on the two texts above; any other text is taken not to
    be JSON. *)
Definition parse : string → settled Parsed :=
  λ text,
    if String.eqb text astrology_json then
      Fulfilled {| parsed_tags := Some ["astrology"]; parsed_reasoning := "stars" |}
    else if String.eqb text biology_json then
      Fulfilled {| parsed_tags := Some ["physics"; "biology"]; parsed_reasoning := "..." |}
    else Rejected "SyntaxError: JSON.parse".

Definition reply (text : string) : Response :=
  {| status := 200; statusText := "OK"; retry_after := None;
     body := BodyJson None
               {| choices := [{| message_content := text; message_role := "assistant";
                                 finish_reason := "stop" |}];
                  response_model := None |} |}.

(** A provider that honours the request and answers with [text]. *)
Definition answering (text : string) : nat → RequestBody → FetchOutcome :=
  λ _ _, Responded (reply text).

(** A second item of library 1, without tags. *)
Definition relativity : Zotero.Item :=
  {| Zotero.id := 8; Zotero.libraryID := 1; Zotero.itemType := "book";
     Zotero.fields := {[ "title" := "Relativity" ]};
     Zotero.creators := [];
     Zotero.isAttachment := false; Zotero.isRegularItem := true;
     Zotero.parentID := None; Zotero.tags := [] |}.

(** Records that [suggestTags] may return for the two items. *)
Definition biology_result : TagResult :=
  {| itemID := 7; title := "Quantum Effects in X"; suggestedTags := ["biology"];
     appliedTags := []; reasoning := "..."; error := None |}.

Definition nothing_new : TagResult :=
  {| itemID := 7; title := "Quantum Effects in X"; suggestedTags := [];
     appliedTags := []; reasoning := "..."; error := None |}.

Definition unauthorized : TagResult :=
  failed 8 "Relativity" "HTTP 401: Unauthorized - ".

(** An item whose tags cannot be saved. *)
Definition apply_fails : list BatchProcessor.Event :=
  [BatchProcessor.Resume 0 BatchProcessor.Woke;
   BatchProcessor.Resume 0 (BatchProcessor.Suggested biology_result);
   BatchProcessor.Resume 0 (BatchProcessor.ApplyThrew "database is locked")].


(** [cancel()] is called before the only item resumes from [acquire()]. *)
Definition cancelled_early : list BatchProcessor.Event :=
  [BatchProcessor.Cancel; BatchProcessor.Resume 0 BatchProcessor.Woke].

(** Two items run to their end, the second after the pacing delay; the
    first has nothing new, the second fails in [suggestTags]. *)
Definition two_items : list BatchProcessor.Event :=
  [BatchProcessor.Resume 0 BatchProcessor.Woke;
   BatchProcessor.Resume 0 (BatchProcessor.Suggested nothing_new);
   BatchProcessor.Resume 1 BatchProcessor.Woke;
   BatchProcessor.Resume 1 BatchProcessor.Woke;
   BatchProcessor.Resume 1 (BatchProcessor.Suggested unauthorized)].



End Scenarios.

(** ** Expected traces *)

Module Traces.

Import AiService.

(** What [n] successive attempts leave in the trace when each is answered
    by an overloaded provider, the first being attempt number [attempt]. *)
Fixpoint schedule (attempt : Z) (n : nat) (sent : RequestBody) : list effect :=
  match n with
  | O => []
  | S n' =>
      Fetch sent :: Sleep (Js.Num (backoff attempt)) :: schedule (attempt + 1) n' sent
  end.

Definition advance (w : World) (n : nat) (es : list effect) : World :=
  {| heap := heap w; fetched := fetched w + n; effects := effects w ++ es |}.

End Traces.

(** ** Invariants of the scheduler *)

Module Invariants.

Import TagEngine BatchProcessor.

(** The task holds a slot of the semaphore. *)
Definition holding (t : Task) : bool :=
  match t with
  | AwaitAcquire granted => granted
  | AwaitSleep | AwaitSuggest | AwaitConfirm _ | AwaitApply _ _ => true
  | Done _ => false
  end.

(** The task has been through the [finally] block. *)
Definition ran_finally (t : Task) : bool :=
  match t with
  | Done Skipped | Done (Recorded _) | Done (Threw _) => true
  | _ => false
  end.

Definition recorded (t : Task) : bool :=
  match t with Done (Recorded _) => true | _ => false end.

Definition was_skipped (t : Task) : bool :=
  match t with Done Skipped => true | _ => false end.

Definition threw (t : Task) : bool :=
  match t with Done (Threw _) => true | _ => false end.

Definition not_started (t : Task) : bool :=
  match t with Done NotStarted => true | _ => false end.

Definition bump (f : Task → bool) (t : Task) : nat := if f t then 1 else 0.

(** The event is an exception of the confirmation hook or of [applyTags]. *)
Definition is_throw (e : Event) : bool :=
  match e with
  | Resume _ (ConfirmThrew _) | Resume _ (ApplyThrew _) => true
  | _ => false
  end.

(** The number of continuations a task may still run. *)
Definition rank (t : Task) : nat :=
  match t with
  | AwaitAcquire false => 6
  | AwaitAcquire true => 5
  | AwaitSleep => 4
  | AwaitSuggest => 3
  | AwaitConfirm _ => 2
  | AwaitApply _ _ => 1
  | Done _ => 0
  end.

Definition work (ts : list Task) : nat := sum_list (map rank ts).

Definition is_resume (e : Event) : bool :=
  match e with Resume _ _ => true | Cancel => false end.

(** The task is at its first [await]. *)
Definition is_acquire (t : Task) : Prop := ∃ granted, t = AwaitAcquire granted.

(** The accounting of the admission gate. *)
Record Gate (st : State) : Prop := {
  gate_active : active (semaphore st) = Z.of_nat (count holding (tasks st));
  gate_full : queue (semaphore st) ≠ [] → (limit (semaphore st) ≤ active (semaphore st))%Z;
  gate_queue :
    Forall (λ j, tasks st !! j = Some (AwaitAcquire false)) (queue (semaphore st));
  gate_fifo : admissions st ++ queue (semaphore st) = seq 0 (length (tasks st));
  gate_started : count not_started (tasks st) = 0%nat;
  gate_waiting :
    ∀ j, tasks st !! j = Some (AwaitAcquire false) → j ∈ queue (semaphore st);
}.

(** The semaphore has not handed out more slots than it has. *)
Definition Bounded (st : State) : Prop :=
  (active (semaphore st) ≤ limit (semaphore st))%Z.

(** The bookkeeping of the batch. *)
Record Books (st : State) : Prop := {
  books_total : total (progress st) = length (tasks st);
  books_current : current (progress st) = count ran_finally (tasks st);
  books_results :
    length (results_of st (progress st)) = count recorded (tasks st);
  books_reported : length (reported st) = current (progress st);
  books_promise :
    match promise st with
    | Pending => count threw (tasks st) = 0%nat ∧ all_done st = false
    | Resolved => count threw (tasks st) = 0%nat ∧ all_done st = true
    | Rejected _ => (0 < count threw (tasks st))%nat
    end;
}.

(** The end of the [try] block of task [i] as [how], with the [finally]
    block: a record is pushed before when there is one. *)
Definition complete (i : nat) (how : Completion) (st : State) : State :=
  match how with
  | Recorded result => finish i how (push result st)
  | _ => finish i how st
  end.

End Invariants.

(** ** The rest of the completion client: endpoint, headers, connection test *)

Module Connection.

Import AiService.

(** [s.replace(/\/+$/, "")]: the slashes at the end of [s] go. *)
Fixpoint strip_slashes (s : string) : string :=
  match s with
  | EmptyString => EmptyString
  | String c rest =>
      match strip_slashes rest with
      | EmptyString => if Ascii.eqb c "/"%char then EmptyString else String c EmptyString
      | kept => String c kept
      end
  end.

(** [s.endsWith(t)] *)
Fixpoint endsWith (s t : string) : bool :=
  String.eqb s t ||
  match s with
  | EmptyString => false
  | String _ rest => endsWith rest t
  end.

(** [buildURL] (lines 43-54), for the value [baseURL] of the preference. *)
Definition buildURL (baseURL : string) : string :=
  let base := strip_slashes baseURL in
  if endsWith base "/chat/completions" then base
  else base +:+ "/chat/completions".

Record Headers := { content_type : string; authorization : string }.

(** [buildHeaders] (lines 59-65), for the value [apiKey] of the preference. *)
Definition buildHeaders (apiKey : string) : Headers :=
  {| content_type := "application/json";
     authorization := "Bearer " +:+ apiKey |}.

(** The message of the error raised for a response that is not [ok]
    (lines 133-140 and 221-228). *)
Definition http_error (response : Response) : string :=
  let errorMessage :=
    "HTTP " +:+ pretty (status response) +:+ ": " +:+ statusText response in
  match body response with
  | BodyJson error_message _ => errorMessage +:+ " - " +:+ Js.or_string error_message ""
  | BodyNull | BodyRejects _ => errorMessage
  end.

Section Client.

Variable model : string.
Variable provider : nat → RequestBody → FetchOutcome.

(** The body of the connection test (lines 208-212). *)
Definition hello : RequestBody :=
  {| body_model := model;
     body_messages := [{| role := user; content := "Hello" |}];
     body_temperature := None;
     body_max_tokens := Some 5%Z;
     body_response_format := None |}.

(** [testConnection] (lines 203-233). *)
Definition testConnection : Async string :=
  await response := fetch provider hello in
  if negb (ok response) then throw (http_error response)
  else
    match body response with
    | BodyJson _ result => ret (Js.or_string (response_model result) model)
    | BodyNull => throw Js.TypeError
    | BodyRejects reason => throw reason
    end.

End Client.

End Connection.

(** ** More providers and requests *)

Module Cases.

Import AiService.

(** A provider that is rate limited for its first [n] requests and then
    answers with [reply]. *)
Definition flaky (n : nat) (reply : Response) : nat → RequestBody → FetchOutcome :=
  λ k sent, if (k <? n)%nat then Scenarios.busy k sent else Responded reply.

(** A provider that is down. *)
Definition unavailable : Response :=
  {| status := 503; statusText := "Service Unavailable"; retry_after := None;
     body := BodyNull |}.

Definition down : nat → RequestBody → FetchOutcome := λ _ _, Responded unavailable.


(** A request without messages that asks for structured output. *)
Definition mute : ChatCompletionRequest :=
  {| messages := []; temperature := None; max_tokens := None;
     response_format := Some (TagEngine.buildResponseFormat [] "any") |}.

(** A host that cannot list the tags of a library. *)
Definition no_index : Z → settled (list string) :=
  λ _, Rejected "tags unavailable".

(** The default preferences with a negative concurrency. *)
Definition stalled : Preferences.Prefs :=
  {| Preferences.model := Preferences.model Preferences.defaults;
     Preferences.tagSource := Preferences.tagSource Preferences.defaults;
     Preferences.maxTags := Preferences.maxTags Preferences.defaults;
     Preferences.temperature := Preferences.temperature Preferences.defaults;
     Preferences.includeFullText := Preferences.includeFullText Preferences.defaults;
     Preferences.maxFullTextLength := Preferences.maxFullTextLength Preferences.defaults;
     Preferences.tagPrefixFilter := Preferences.tagPrefixFilter Preferences.defaults;
     Preferences.systemPrompt := Preferences.systemPrompt Preferences.defaults;
     Preferences.confirmationMode := Preferences.confirmationMode Preferences.defaults;
     Preferences.concurrency := -1;
     Preferences.requestInterval := Preferences.requestInterval Preferences.defaults |}.

End Cases.

(** ** The single-file script ([script.js]) *)

Module Script.

(** Lines 368-372: the tags of the completion without those the item
    has, then without duplicates. *)
Definition uniqueSuggestedTags (aiTags currentTags : list string) : list string :=
  let suggestedTags :=
    List.filter (λ tag, negb (Js.array_includes currentTags tag)) aiTags in
  Js.set_of suggestedTags.

(** Lines 374-383: every tag is added to the target item, which is saved
    when a tag was added. *)
Definition apply (targetItem : Zotero.Item) (uniqueSuggestedTags : list string)
    (s : Zotero.Store) : Zotero.Store :=
  let item' := fold_left Zotero.addTag uniqueSuggestedTags targetItem in
  let appliedCount := length uniqueSuggestedTags in
  let s' := {| Zotero.items := <[Zotero.id targetItem := item']> (Zotero.items s);
               Zotero.persisted := Zotero.persisted s;
               Zotero.saves := Zotero.saves s |} in
  if (0 <? appliedCount)%nat then Zotero.saveTx item' s' else s'.

End Script.

(** ** Ordered lists of strings *)

Module Order.

(** Every element is at most the elements after it. *)
Fixpoint ascending (l : list string) : Prop :=
  match l with
  | [] => True
  | x :: rest => Forall (λ y, String.leb x y = true) rest ∧ ascending rest
  end.

End Order.

(** ** Full-text extraction ([text-extractor.ts])

    A string is the sequence of its code units, so that [String.length]
    is [length] and [substring] is [substring]; reading the files and
    stripping the markup of a snapshot are the host's and are given by
    their results. *)

Module TextExtractor.

Import AiService.

Inductive Source := pdf | snapshot | none.

Record ExtractionResult := { text : string; source : Source }.

(** An attachment, with what the host answers for it:
    [getFilePathAsync()] (a path, or [false]), whether the file at that
    path exists, [attachmentText], and the text that
    [getFullTextFromSnapshot] returns for it. *)
Record Attachment := {
  isPDFAttachment : bool;
  attachmentMIMEType : string;
  getFilePathAsync : settled (option string);
  file_exists : settled bool;
  attachmentText : settled (option string);
  getFullTextFromSnapshot : option string;
}.

(** [text && text.length > 100] *)
Definition usable (text : option string) : option string :=
  match text with
  | Some t => if Js.truthy t && (100 <? String.length t)%nat then Some t else None
  | None => None
  end.

(** The [try] block for a PDF (lines 105-119): the text when it is
    usable; otherwise the loop goes on with the next attachment, also
    after an exception. *)
Definition pdf_text (attachment : Attachment) : option string :=
  match getFilePathAsync attachment with
  | Fulfilled (Some filePath) =>
      if negb (Js.truthy filePath) then None
      else match file_exists attachment with
           | Fulfilled true =>
               match attachmentText attachment with
               | Fulfilled pdfText => usable pdfText
               | Rejected _ => None
               end
           | Fulfilled false | Rejected _ => None
           end
  | Fulfilled None | Rejected _ => None
  end.

(** The loop over the attachments (lines 101-133). *)
Fixpoint scan (attachmentsToProcess : list Attachment) (fullText : string)
    (source : Source) : string * Source :=
  match attachmentsToProcess with
  | [] => (fullText, source)
  | attachment :: rest =>
      if isPDFAttachment attachment then
        match pdf_text attachment with
        | Some pdfText => (pdfText, pdf)
        | None => scan rest fullText source
        end
      else if String.eqb (attachmentMIMEType attachment) "text/html" then
        match usable (getFullTextFromSnapshot attachment) with
        | Some snapshotText => scan rest snapshotText snapshot
        | None => scan rest fullText source
        end
      else scan rest fullText source
  end.

(** Lines 135-138. *)
Definition truncate (fullText : string) (maxLength : Z) : string :=
  if (maxLength <? Z.of_nat (String.length fullText))%Z
  then substring 0 (Z.to_nat maxLength) fullText +:+ "...[truncated]"
  else fullText.

(** The wait for attachments to appear (lines 89-93), with [remaining]
    rounds to go; [getAttachments k] is what the item answers after [k]
    waits. *)
Fixpoint poll (getAttachments : nat → list Attachment) (remaining waited : nat)
  : Async (list Attachment) :=
  match remaining with
  | O => ret (getAttachments waited)
  | S remaining' =>
      wait sleep (Js.Num 1000) then
      match getAttachments (S waited) with
      | [] => poll getAttachments remaining' (S waited)
      | attachments => ret attachments
      end
  end.

(** [extractFullText] (lines 71-141). *)
Definition extractFullText (getAttachments : nat → list Attachment)
    (sourceAttachment : option Attachment) (maxLength : Z)
  : Async ExtractionResult :=
  await attachmentsToProcess :=
    match sourceAttachment with
    | Some attachment => ret [attachment]
    | None =>
        match getAttachments 0%nat with
        | [] => poll getAttachments 10 0
        | attachments => ret attachments
        end
    end in
  let '(fullText, source) := scan attachmentsToProcess "" none in
  ret {| text := truncate fullText maxLength; source := source |}.

(** The text that the loop takes from an attachment that is not a PDF
    (lines 125-131). *)
Definition snapshot_text (attachment : Attachment) : option string :=
  if isPDFAttachment attachment then None
  else if String.eqb (attachmentMIMEType attachment) "text/html"
       then usable (getFullTextFromSnapshot attachment)
       else None.

End TextExtractor.

(** ** The menu commands ([menu.ts])

    The commands are given by what they decide: the alert they show or
    the items they hand to the engine.  The main window and its pane are
    taken to exist. *)

Module Menu.

Import TagEngine BatchProcessor.

(** [item.parentID] as a condition: an identifier other than [0]. *)
Definition has_parent (item : Zotero.Item) : bool :=
  match Zotero.parentID item with
  | Some parentID => negb (parentID =? 0)%Z
  | None => false
  end.

(** The filter of lines 51-55. *)
Definition taggable (item : Zotero.Item) : bool :=
  Zotero.isRegularItem item || (Zotero.isAttachment item && has_parent item).

Inductive Action :=
| Alert (message : string)
| Single (item : Zotero.Item) (confirmationMode : bool)
| Batch (items : list Zotero.Item) (confirmationMode : bool)
| Nothing.

(** [handleTagSelected] (lines 40-71); [selected] is what
    [getSelectedItems()] returns. *)
Definition handleTagSelected (selected : option (list Zotero.Item))
    (confirmationMode : bool) : Action :=
  match selected with
  | None | Some [] => Alert "No items selected."
  | Some items =>
      match List.filter taggable items with
      | [] => Alert "No taggable items selected."
      | [item] => Single item confirmationMode
      | validItems => Batch validItems confirmationMode
      end
  end.

(** [handleTagCollection] (lines 206-245); [children] is what
    [getChildItems()] returns for the selected collection and [confirmed]
    the answer to the dialog. *)
Definition handleTagCollection (children : option (list Zotero.Item))
    (confirmed confirmationMode : bool) : Action :=
  match children with
  | None => Alert "No collection selected."
  | Some items =>
      match List.filter Zotero.isRegularItem items with
      | [] => Alert "No regular items found in this collection."
      | regularItems =>
          if confirmed then Batch regularItems confirmationMode else Nothing
      end
  end.

(** The items a command hands to [suggestTags]. *)
Definition handed_over (action : Action) : list Zotero.Item :=
  match action with
  | Single item _ => [item]
  | Batch items _ => items
  | Alert _ | Nothing => []
  end.

(** The text that [handleBatchItems] shows when the batch promise has
    resolved with [result] (lines 178-192); [records] is what
    [result.results] holds. *)
Definition summary (result : BatchProgress) (records : list TagResult) : string :=
  let totalTags :=
    fold_left (λ sum r, sum + length (appliedTags r))%nat records 0%nat in
  let errors := length (List.filter has_error records) in
  let summary :=
    "✅ Done: " +:+ pretty totalTags +:+ " tags added across " +:+
    pretty (current result) +:+ " items" in
  let summary :=
    if (0 <? errors)%nat then summary +:+ " (" +:+ pretty errors +:+ " errors)"
    else summary in
  if cancelled result
  then "⚠️ Cancelled: processed " +:+ pretty (current result) +:+ " of " +:+
       pretty (total result)
  else summary.

End Menu.

(** ** What a waiting task may hold *)

Module Safety.

Import TagEngine BatchProcessor.

(** A task waits for the confirmation hook only when there is one, and
    for [applyTags] only with tags to apply; both only for a record
    without an error that suggests something.  Without a hook the tags to
    apply are the suggested ones. *)
Definition safe (confirmFn : bool) (t : Task) : Prop :=
  match t with
  | AwaitConfirm result =>
      confirmFn = true ∧ has_error result = false ∧ suggestedTags result ≠ []
  | AwaitApply result tagsToApply =>
      has_error result = false ∧ suggestedTags result ≠ [] ∧ tagsToApply ≠ [] ∧
      (confirmFn = false → tagsToApply = suggestedTags result)
  | _ => True
  end.

(** The task waits for something that cancellation does not stop any
    more, or for nothing. *)
Definition past_cancel (t : Task) : bool :=
  match t with
  | AwaitAcquire _ | AwaitSleep | AwaitSuggest | AwaitConfirm _ => false
  | AwaitApply _ _ | Done _ => true
  end.

(** The calls of [onProgress] so far count up from one, show the total,
    and show records that the results still begin with. *)
Definition Reports (st : State) : Prop :=
  ∀ k report,
    reported st !! k = Some report →
    current (snapshot report) = S k ∧
    total (snapshot report) = total (progress st) ∧
    seen report `prefix_of` results_of st (progress st).

End Safety.

(** * Proofs *)

(** ** JavaScript built-ins *)

Module JsFacts.

Lemma array_includes_In (xs : list string) (x : string) :
  Js.array_includes xs x = true ↔ In x xs.
Proof.
  induction xs as [|y ys IH]; simpl.
  - split; [discriminate | tauto].
  - rewrite orb_true_iff, IH, String.eqb_eq. tauto.
Qed.

Lemma array_includes_app (xs ys : list string) (x : string) :
  Js.array_includes (xs ++ ys) x = Js.array_includes xs x || Js.array_includes ys x.
Proof.
  induction xs as [|y xs IH]; simpl; [done|].
  by rewrite IH, orb_assoc.
Qed.

Lemma filter_filter {A} (f g : A → bool) (l : list A) :
  List.filter f (List.filter g l) = List.filter (λ x, g x && f x) l.
Proof.
  induction l as [|a l IH]; simpl; [done|].
  destruct (g a); simpl; [destruct (f a)|]; by rewrite ?IH.
Qed.

Lemma filter_all {A} (f : A → bool) (l : list A) :
  (∀ x, In x l → f x = true) → List.filter f l = l.
Proof.
  induction l as [|a l IH]; simpl; intros H; [done|].
  rewrite (H a) by auto. f_equal. apply IH. auto.
Qed.

Lemma In_dedup_first (xs : list string) (x : string) :
  In x (Spec.dedup_first xs) ↔ In x xs.
Proof.
  induction xs as [|y ys IH]; simpl; [tauto|].
  rewrite filter_In, IH, negb_true_iff, String.eqb_neq.
  destruct (String.eqb_spec y x); intuition congruence.
Qed.

Lemma NoDup_dedup_first (xs : list string) : List.NoDup (Spec.dedup_first xs).
Proof.
  induction xs as [|y ys IH]; simpl; constructor.
  - rewrite filter_In, negb_true_iff, String.eqb_neq. tauto.
  - by apply List.NoDup_filter.
Qed.

Lemma dedup_first_NoDup (xs : list string) :
  List.NoDup xs → Spec.dedup_first xs = xs.
Proof.
  induction 1 as [|x xs Hx _ IH]; simpl; [done|].
  rewrite IH. f_equal. apply filter_all.
  intros y Hy. rewrite negb_true_iff, String.eqb_neq. congruence.
Qed.

(** A [Set] built by insertion iterates as the first occurrences do. *)
Lemma fold_set_add (xs seen : list string) :
  fold_left Js.set_add xs seen =
  seen ++ List.filter (λ y, negb (Js.array_includes seen y)) (Spec.dedup_first xs).
Proof.
  revert seen. induction xs as [|x xs IH]; intros seen; simpl.
  - by rewrite app_nil_r.
  - rewrite IH. unfold Js.set_add.
    destruct (Js.array_includes seen x) eqn:Hx; simpl.
    + f_equal. rewrite filter_filter. apply filter_ext. intros y.
      destruct (String.eqb_spec x y) as [->|]; simpl; [by rewrite Hx|done].
    + rewrite <- app_assoc. simpl. do 2 f_equal.
      rewrite filter_filter. apply filter_ext. intros y.
      rewrite array_includes_app. simpl. rewrite orb_false_r, negb_orb.
      apply andb_comm.
Qed.

Lemma set_of_dedup_first (xs : list string) : Js.set_of xs = Spec.dedup_first xs.
Proof.
  unfold Js.set_of. rewrite fold_set_add. simpl. by apply filter_all.
Qed.

Lemma In_sort_insert (x y : string) (l : list string) :
  In y (Js.sort_insert x l) ↔ y = x ∨ In y l.
Proof.
  induction l as [|z l IH]; simpl; [intuition|].
  destruct (String.leb x z); simpl; rewrite ?IH; intuition.
Qed.

Lemma In_sort (x : string) (l : list string) : In x (Js.sort l) ↔ In x l.
Proof.
  induction l as [|z l IH]; simpl; [tauto|].
  rewrite In_sort_insert, IH. intuition.
Qed.

End JsFacts.

(** ** The suggestion post-filter *)

Module PostFilterFacts.

Import TagEngine JsFacts.

Lemma post_filter_spec (S C : list string) :
  post_filter S C = Spec.dedup_and_drop S C.
Proof. unfold post_filter, Spec.dedup_and_drop. by rewrite set_of_dedup_first. Qed.

Lemma In_post_filter (S C : list string) (t : string) :
  In t (post_filter S C) ↔ In t S ∧ ¬ In t C.
Proof.
  rewrite post_filter_spec. unfold Spec.dedup_and_drop.
  rewrite filter_In, In_dedup_first, negb_true_iff, <- not_true_iff_false,
    array_includes_In.
  tauto.
Qed.

Lemma NoDup_post_filter (S C : list string) : List.NoDup (post_filter S C).
Proof.
  rewrite post_filter_spec. apply List.NoDup_filter, NoDup_dedup_first.
Qed.

Lemma post_filter_idempotent (S C : list string) :
  post_filter (post_filter S C) C = post_filter S C.
Proof.
  rewrite (post_filter_spec (post_filter S C)). unfold Spec.dedup_and_drop.
  rewrite dedup_first_NoDup by apply NoDup_post_filter.
  apply filter_all. intros t Ht. apply In_post_filter in Ht as [_ Ht].
  rewrite negb_true_iff, <- not_true_iff_false, array_includes_In. done.
Qed.

(** C7.  The post-filter of [suggestTags] keeps the first occurrence of
    each suggested tag, in the order of first occurrence, and drops the
    tags the item already has: it is the filter the specification
    describes, its result has no duplicate and holds exactly the suggested
    tags that are not current tags, applying it again changes nothing, and
    on [["physics"; "biology"]] with current tags [["physics"]] it yields
    [["biology"]]. *)
Theorem post_filter_dedups_drops_and_is_idempotent (S C : list string) :
  post_filter S C = Spec.dedup_and_drop S C ∧
  List.NoDup (post_filter S C) ∧
  (∀ t, In t (post_filter S C) ↔ In t S ∧ ¬ In t C) ∧
  post_filter (post_filter S C) C = post_filter S C ∧
  post_filter ["physics"; "biology"] ["physics"] = ["biology"].
Proof.
  split; [apply post_filter_spec|].
  split; [apply NoDup_post_filter|].
  split; [intros t; apply In_post_filter|].
  split; [apply post_filter_idempotent|].
  reflexivity.
Qed.

End PostFilterFacts.

(** ** Applying tags *)

Module ApplyFacts.

Import AiService TagEngine JsFacts.

Lemma addTag_present (item : Zotero.Item) (tag : string) :
  In tag (Zotero.tags item) → Zotero.addTag item tag = item.
Proof.
  intros H. unfold Zotero.addTag.
  by rewrite (proj2 (array_includes_In _ _) H).
Qed.

Lemma In_addTag (item : Zotero.Item) (tag t : string) :
  In t (Zotero.tags (Zotero.addTag item tag)) ↔ In t (Zotero.tags item) ∨ t = tag.
Proof.
  unfold Zotero.addTag.
  destruct (Js.array_includes (Zotero.tags item) tag) eqn:H; simpl.
  - apply array_includes_In in H. intuition congruence.
  - rewrite in_app_iff. simpl. intuition.
Qed.

Lemma In_fold_addTag (tags : list string) (item : Zotero.Item) (t : string) :
  In t (Zotero.tags (fold_left Zotero.addTag tags item)) ↔
  In t (Zotero.tags item) ∨ In t tags.
Proof.
  revert item. induction tags as [|tag tags IH]; intros item; simpl; [tauto|].
  rewrite IH, In_addTag. intuition.
Qed.

Lemma id_fold_addTag (tags : list string) (item : Zotero.Item) :
  Zotero.id (fold_left Zotero.addTag tags item) = Zotero.id item.
Proof.
  revert item. induction tags as [|tag tags IH]; intros item; simpl; [done|].
  rewrite IH. unfold Zotero.addTag. by destruct (Js.array_includes _ _).
Qed.

(** Adding tags the item already has changes nothing. *)
Lemma fold_addTag_present (tags : list string) (item : Zotero.Item) :
  (∀ t, In t tags → In t (Zotero.tags item)) →
  fold_left Zotero.addTag tags item = item.
Proof.
  induction tags as [|tag tags IH]; intros H; simpl; [done|].
  rewrite addTag_present by (apply H; simpl; auto).
  apply IH. intros t Ht. apply H. simpl. auto.
Qed.

Lemma fold_addTag_twice (tags : list string) (item : Zotero.Item) :
  fold_left Zotero.addTag tags (fold_left Zotero.addTag tags item) =
  fold_left Zotero.addTag tags item.
Proof.
  apply fold_addTag_present. intros t Ht. apply In_fold_addTag. auto.
Qed.

Lemma applyTags_twice (s : Zotero.Store) (itemID : Z) (tags : list string) :
  let s1 := (applyTags itemID tags s).2 in
  let s2 := (applyTags itemID tags s1).2 in
  Zotero.items s2 = Zotero.items s1 ∧ Zotero.persisted s2 = Zotero.persisted s1.
Proof.
  unfold applyTags. destruct tags as [|tag tags]; [done|].
  destruct (Zotero.items s !! itemID) as [item|] eqn:Hitem; simpl;
    [|by rewrite Hitem].
  set (item' := fold_left Zotero.addTag tags (Zotero.addTag item tag)).
  rewrite lookup_insert_eq. simpl.
  change (fold_left Zotero.addTag tags (Zotero.addTag item' tag))
    with (fold_left Zotero.addTag (tag :: tags) item').
  replace (fold_left Zotero.addTag (tag :: tags) item') with item'
    by (symmetry; apply (fold_addTag_twice (tag :: tags) item)).
  by rewrite !insert_insert_eq.
Qed.

(** C8.  [applyTags] with an empty list saves nothing and leaves the store
    as it is; with a non-empty list it adds every tag of the list to the
    item (keeping the tags the item had), and saves the item once, so that
    the database holds the tags of the item; applying the same list to the
    same item a second time leaves the tags of every item, in memory and
    in the database, as the first application left them. *)
Theorem applyTags_saves_nonempty_and_is_idempotent
    (s : Zotero.Store) (itemID : Z) (tags : list string) :
  applyTags itemID [] s = (Fulfilled tt, s) ∧
  (∀ item, Zotero.items s !! itemID = Some item → tags ≠ [] →
     ∃ item',
       applyTags itemID tags s =
         (Fulfilled tt,
          {| Zotero.items := <[itemID := item']> (Zotero.items s);
             Zotero.persisted := <[Zotero.id item := Zotero.tags item']> (Zotero.persisted s);
             Zotero.saves := S (Zotero.saves s) |}) ∧
       (∀ t, In t (Zotero.tags item') ↔ In t (Zotero.tags item) ∨ In t tags)) ∧
  (let s1 := (applyTags itemID tags s).2 in
   let s2 := (applyTags itemID tags s1).2 in
   Zotero.items s2 = Zotero.items s1 ∧ Zotero.persisted s2 = Zotero.persisted s1).
Proof.
  split; [done|]. split; [|apply applyTags_twice].
  intros item Hitem Hne. exists (fold_left Zotero.addTag tags item). split.
  - unfold applyTags, Zotero.saveTx. rewrite Hitem.
    destruct tags as [|tag tags]; [done|].
    by rewrite (id_fold_addTag (tag :: tags)).
  - intros t. apply In_fold_addTag.
Qed.

Lemma applyTags_witness :
  ∃ item',
    applyTags 7 ["biology"] Scenarios.library =
      (Fulfilled tt,
       {| Zotero.items := <[7%Z := item']> (Zotero.items Scenarios.library);
          Zotero.persisted :=
            <[Zotero.id Scenarios.quantum := Zotero.tags item']>
              (Zotero.persisted Scenarios.library);
          Zotero.saves := S (Zotero.saves Scenarios.library) |}) ∧
    (∀ t, In t (Zotero.tags item') ↔
          In t (Zotero.tags Scenarios.quantum) ∨ In t ["biology"]).
Proof.
  destruct (applyTags_saves_nonempty_and_is_idempotent
              Scenarios.library 7 ["biology"]) as (_ & H & _).
  apply (H Scenarios.quantum); [reflexivity | discriminate].
Defined.

End ApplyFacts.

(** ** The completion client *)

Module AiServiceFacts.

Import AiService Traces.

Section Client.

Variable model : string.
Variable provider : nat → RequestBody → FetchOutcome.

(** One attempt makes one request, only adds to the trace and leaves the
    message objects alone. *)
Lemma attempt_body_frame (maxRetries attempt : Z) (sent : RequestBody) (w : World) :
  let w' := (attempt_body provider maxRetries attempt sent w).2 in
  heap w' = heap w ∧ fetched w' = S (fetched w) ∧
  ∃ es, effects w' = effects w ++ Fetch sent :: es.
Proof.
  unfold attempt_body, bind, fetch, sleep, emit, ret, throw.
  destruct (provider (fetched w) sent) as [reason|r]; simpl.
  { repeat split. by exists []. }
  repeat case_match; simpl; repeat split;
    rewrite <- ?app_assoc; simpl; eauto.
Qed.

Lemma attempts_frame (remaining : nat) (maxRetries attempt : Z)
    (lastError : option string) (sent : RequestBody) (w : World) :
  let w' := (attempts provider remaining maxRetries attempt lastError sent w).2 in
  heap w' = heap w ∧ (fetched w + Nat.min remaining 1 ≤ fetched w')%nat ∧
  ∃ es, effects w' = effects w ++ es.
Proof.
  revert attempt lastError w.
  induction remaining as [|remaining IH]; intros attempt lastError w; simpl.
  { repeat split; [lia|]. exists []. by rewrite app_nil_r. }
  destruct (attempt_body_frame maxRetries attempt sent w) as (Hh & Hf & es & He).
  destruct (attempt_body provider maxRetries attempt sent w) as [[[|result]|error] w1];
    simpl in *.
  - destruct (IH (attempt + 1)%Z lastError w1) as (Hh' & Hf' & es' & He').
    rewrite Hh', He', Hh, He. repeat split; [lia|].
    rewrite <- app_assoc. eauto.
  - repeat split; [done|lia|eauto].
  - unfold bind. destruct (attempt <? maxRetries)%Z; simpl.
    + set (w2 := {| heap := heap w1; fetched := fetched w1;
                    effects := effects w1 ++ [Sleep (Js.Num (backoff attempt))] |}).
      destruct (IH (attempt + 1)%Z (Some error) w2) as (Hh' & Hf' & es' & He').
      rewrite Hh', He'. simpl. rewrite Hh, He. repeat split; [simpl in Hf'; lia|].
      rewrite <- !app_assoc. eauto.
    + destruct (IH (attempt + 1)%Z (Some error) w1) as (Hh' & Hf' & es' & He').
      rewrite Hh', He', Hh, He. repeat split; [lia|].
      rewrite <- app_assoc. eauto.
Qed.

Lemma chatCompletion_frame (request : ChatCompletionRequest)
    (options : option Options) (w : World) :
  let w' := (chatCompletion model provider request options w).2 in
  heap w' = heap w ∧ ∃ es, effects w' = effects w ++ es.
Proof.
  unfold chatCompletion, bind, read_heap.
  destruct (attempts_frame
              (Z.to_nat (default 3%Z (options ≫= maxRetries) + 1))
              (default 3%Z (options ≫= maxRetries)) 0 None
              (serialize model (heap w) request
                 (default true (options ≫= useStructuredOutput))) w)
    as (Hh & _ & He).
  done.
Qed.

(** An overloaded provider makes the attempt wait for the backoff delay
    and go round the loop, as long as a retry is left. *)
Lemma attempt_body_overloaded (maxRetries attempt : Z) (sent : RequestBody) (w : World) :
  Spec.overloaded (provider (fetched w) sent) →
  (attempt < maxRetries)%Z →
  attempt_body provider maxRetries attempt sent w =
    (Fulfilled Continue, advance w 1 (schedule attempt 1 sent)).
Proof.
  intros (r & Hr & Hstatus & Hheader) Hlt.
  unfold attempt_body, bind, fetch, sleep, emit, ret, advance. rewrite Hr, Hheader.
  simpl. rewrite Nat.add_1_r.
  destruct (status r =? 429)%Z eqn:H429; [simpl; by rewrite <- app_assoc|].
  destruct Hstatus as [H|H500]; [by rewrite H in H429|].
  rewrite (proj2 (Z.leb_le _ _) H500), (proj2 (Z.ltb_lt _ _) Hlt). simpl.
  by rewrite <- app_assoc.
Qed.

Lemma attempts_overloaded (n remaining : nat) (maxRetries attempt : Z)
    (lastError : option string) (sent : RequestBody) (w : World) :
  (∀ k, (k < n)%nat → Spec.overloaded (provider (fetched w + k) sent)) →
  (attempt + Z.of_nat n ≤ maxRetries)%Z →
  attempts provider (n + remaining) maxRetries attempt lastError sent w =
  attempts provider remaining maxRetries (attempt + Z.of_nat n) lastError sent
    (advance w n (schedule attempt n sent)).
Proof.
  revert attempt w. induction n as [|n IH]; intros attempt w Hprov Hle.
  - simpl. rewrite Z.add_0_r. unfold advance.
    rewrite Nat.add_0_r, app_nil_r. by destruct w.
  - change (S n + remaining)%nat with (S (n + remaining)).
    cbn [attempts].
    rewrite attempt_body_overloaded;
      [|by specialize (Hprov 0%nat); rewrite Nat.add_0_r in Hprov; apply Hprov; lia|lia].
    rewrite IH.
    + f_equal; [lia|]. unfold advance. simpl. f_equal; [lia|].
      by rewrite <- app_assoc.
    + intros k Hk. simpl. replace (fetched w + 1 + k)%nat with (fetched w + S k)%nat by lia.
      apply Hprov. lia.
    + lia.
Qed.

Lemma sleeps_schedule (n k : nat) (attempt : Z) (sent : RequestBody) :
  (k < n)%nat →
  sleeps (schedule attempt n sent) !! k = Some (Js.Num (backoff (attempt + Z.of_nat k))).
Proof.
  revert attempt k. induction n as [|n IH]; intros attempt k Hk; [lia|].
  destruct k as [|k]; simpl.
  - by rewrite Z.add_0_r.
  - unfold sleeps in IH. rewrite IH by lia. do 3 f_equal. lia.
Qed.

Lemma length_sleeps_schedule (n : nat) (attempt : Z) (sent : RequestBody) :
  length (sleeps (schedule attempt n sent)) = n.
Proof.
  revert attempt. induction n as [|n IH]; intros attempt; simpl; [done|].
  unfold sleeps in IH. by rewrite IH.
Qed.

Lemma retry_delay_backoff (m : nat) :
  (1 ≤ m)%nat → Spec.retry_delay m = backoff (Z.of_nat (m - 1)).
Proof. intros H. unfold Spec.retry_delay, backoff. do 3 f_equal. lia. Qed.

Lemma backoff_monotone (a b : Z) : (a ≤ b)%Z → (backoff a ≤ backoff b)%Z.
Proof.
  intros H. unfold backoff.
  assert (2 ^ a ≤ 2 ^ b)%Z by (apply Z.pow_le_mono_r; lia).
  lia.
Qed.

(** C9.  When the first [n] requests of a call of [chatCompletion] are
    answered by 429 or 5xx without a retry-after header, and [n] retries
    are allowed, then for every [m] from 1 to [n] the [m]-th retry is made,
    the delay waited before it is [min(1000·2^(m-1), 30000)] milliseconds,
    and that delay does not exceed the one before the [n]-th retry. *)
Theorem backoff_schedule (request : ChatCompletionRequest)
    (options : option Options) (h : gmap loc ChatMessage) (n m : nat) :
  (∀ k sent, (k < n)%nat → Spec.overloaded (provider k sent)) →
  (Z.of_nat n ≤ default 3%Z (options ≫= maxRetries))%Z →
  (1 ≤ m ≤ n)%nat →
  let w := (chatCompletion model provider request options (empty_world h)).2 in
  sleeps (effects w) !! (m - 1)%nat = Some (Js.Num (Spec.retry_delay m)) ∧
  (m < fetched w)%nat ∧
  (Spec.retry_delay m ≤ Spec.retry_delay n)%Z.
Proof.
  intros Hprov Hn Hm. simpl.
  unfold chatCompletion, bind, read_heap. simpl.
  set (maxR := default 3%Z (options ≫= maxRetries)) in *.
  set (sent := serialize model h request _).
  replace (Z.to_nat (maxR + 1)) with (n + (Z.to_nat (maxR + 1) - n))%nat by lia.
  rewrite attempts_overloaded; [|intros k Hk; by apply Hprov|lia].
  set (w1 := advance (empty_world h) n (schedule 0 n sent)).
  destruct (attempts_frame (Z.to_nat (maxR + 1) - n) maxR (0 + Z.of_nat n) None sent w1)
    as (_ & Hf & es & He).
  rewrite He. split; [|split].
  - unfold sleeps, w1. simpl. rewrite omap_app.
    rewrite lookup_app_l by (fold (sleeps (schedule 0 n sent));
                             rewrite length_sleeps_schedule; lia).
    fold (sleeps (schedule 0 n sent)).
    rewrite sleeps_schedule by lia. by rewrite retry_delay_backoff by lia.
  - assert (1 ≤ Z.to_nat (maxR + 1) - n)%nat as Hleft by lia.
    rewrite (Nat.min_r _ 1 Hleft) in Hf.
    assert (fetched w1 = n) as Hw1 by done. lia.
  - rewrite !retry_delay_backoff by lia. apply backoff_monotone. lia.
Qed.

(** Every iteration of the loop starts with a request. *)
Lemma attempts_fetch_first (remaining : nat) (maxRetries attempt : Z)
    (lastError : option string) (sent : RequestBody) (w : World) :
  ∃ es, effects (attempts provider (S remaining) maxRetries attempt lastError sent w).2 =
        effects w ++ Fetch sent :: es.
Proof.
  cbn [attempts].
  destruct (attempt_body_frame maxRetries attempt sent w) as (_ & _ & es & He).
  destruct (attempt_body provider maxRetries attempt sent w) as [[[|result]|error] w1];
    simpl in *.
  - destruct (attempts_frame remaining maxRetries (attempt + 1) lastError sent w1)
      as (_ & _ & es' & He').
    rewrite He', He, <- app_assoc. simpl. eauto.
  - eauto.
  - unfold bind.
    destruct (attempt <? maxRetries)%Z; simpl;
      match goal with
      | |- context [attempts provider remaining maxRetries ?a ?e sent ?w2] =>
          destruct (attempts_frame remaining maxRetries a e sent w2)
            as (_ & _ & es' & He')
      end; rewrite He'; simpl; rewrite He, <- !app_assoc; simpl; eauto.
Qed.

(** A 4xx response other than 429 is thrown inside the [try] block, so the
    [catch] of the loop receives it. *)
Lemma attempt_body_client_error (maxRetries attempt : Z) (sent : RequestBody)
    (w : World) (r : Response) :
  provider (fetched w) sent = Responded r →
  Spec.client_error r →
  ∃ message,
    attempt_body provider maxRetries attempt sent w =
      (Rejected message, advance w 1 [Fetch sent]).
Proof.
  intros Hr (H400 & H500 & H429).
  unfold attempt_body, bind, fetch, advance. rewrite Hr, Nat.add_1_r.
  rewrite (proj2 (Z.eqb_neq _ _) H429).
  replace (500 <=? status r)%Z with false by (symmetry; apply Z.leb_gt; lia).
  unfold ok. replace (status r <=? 299)%Z with false by (symmetry; apply Z.leb_gt; lia).
  rewrite andb_false_r. simpl.
  destruct (body r); eauto.
Qed.

(** Whenever a retry is allowed, a 4xx answer other than 429 to the first
    request is followed by the backoff delay and a second request. *)
Lemma client_error_backs_off_and_retries (request : ChatCompletionRequest)
    (options : option Options) (h : gmap loc ChatMessage) (r : Response) :
  (∀ sent, provider 0 sent = Responded r) →
  Spec.client_error r →
  (1 ≤ default 3%Z (options ≫= maxRetries))%Z →
  ∃ sent es,
    effects (chatCompletion model provider request options (empty_world h)).2 =
    Fetch sent :: Sleep (Js.Num 1000) :: Fetch sent :: es.
Proof.
  intros Hr Hclient Hretries.
  unfold chatCompletion, bind, read_heap. simpl.
  set (maxR := default 3%Z (options ≫= maxRetries)) in *.
  set (sent := serialize model h request _).
  exists sent.
  destruct (Z.to_nat (maxR + 1)) as [|remaining] eqn:Hremaining; [lia|].
  cbn [attempts].
  destruct (attempt_body_client_error maxR 0 sent (empty_world h) r (Hr sent) Hclient)
    as (message & ->).
  unfold bind. replace (0 <? maxR)%Z with true by (symmetry; apply Z.ltb_lt; lia).
  cbn [sleep emit].
  destruct remaining as [|remaining]; [lia|].
  match goal with
  | |- context [attempts provider (S remaining) maxR ?a ?e sent ?w2] =>
      destruct (attempts_fetch_first remaining maxR a e sent w2) as (es & He)
  end.
  exists es. rewrite He. reflexivity.
Qed.

Lemma length_append (s t : string) :
  String.length (s +:+ t) = (String.length s + String.length t)%nat.
Proof. induction s as [|c s IH]; simpl; [done|]. by rewrite IH. Qed.

(** C10.  When the last message of a request has role [user] and the
    structured attempt fails with a message that contains
    "response_format", "json_schema" or "not supported", the fallback
    appends the JSON instruction to that very message object: once
    [chatCompletionWithFallback] has settled, the message the caller's
    request refers to has the instruction appended to its content (which
    therefore differs from what the caller wrote), it is what the request
    now ends with, and no other message object has changed. *)
Theorem fallback_appends_instruction_in_place (request : ChatCompletionRequest)
    (w w1 : World) (l : loc) (m : ChatMessage) (message : string) :
  last (messages request) = Some l →
  heap w !! l = Some m →
  role m = user →
  chatCompletion model provider request
    (Some {| maxRetries := None; useStructuredOutput := Some true |}) w =
    (Rejected message, w1) →
  Js.includes message "response_format" = true ∨
  Js.includes message "json_schema" = true ∨
  Js.includes message "not supported" = true →
  let w' := (chatCompletionWithFallback model provider request w).2 in
  let modified := {| role := user; content := content m +:+ json_instruction |} in
  heap w' !! l = Some modified ∧
  content modified ≠ content m ∧
  last (body_messages (serialize model (heap w') request true)) = Some modified ∧
  (∀ l', l' ≠ l → heap w' !! l' = heap w !! l').
Proof.
  intros Hlast Hm Hrole Hfirst Hmessage w' modified.
  assert (heap w' = <[l := modified]> (heap w)) as Hheap.
  { assert (schema_rejected message = true) as Hrejected.
    { unfold schema_rejected. rewrite !orb_true_iff. tauto. }
    pose proof (chatCompletion_frame request
      (Some {| maxRetries := None; useStructuredOutput := Some true |}) w) as Hframe.
    rewrite Hfirst in Hframe. simpl in Hframe. destruct Hframe as (Hheap1 & _).
    subst w'. unfold chatCompletionWithFallback, try_catch.
    rewrite Hfirst, Hrejected.
    unfold bind at 1. unfold add_json_instruction. rewrite Hlast.
    unfold bind at 1. unfold read_heap. rewrite Hheap1, Hm, Hrole.
    cbn [write_heap].
    match goal with
    | |- context [chatCompletion model provider ?req ?opts ?w2] =>
        destruct (chatCompletion_frame req opts w2) as (Hheap2 & _)
    end.
    rewrite Hheap2. simpl. by rewrite Hheap1. }
  assert (heap w' !! l = Some modified) as Hl
    by (rewrite Hheap; apply lookup_insert_eq).
  split; [done|]. split; [|split].
  - simpl. intros Heq. apply (f_equal String.length) in Heq.
    rewrite length_append in Heq.
    assert (0 < String.length json_instruction)%nat by (vm_compute; lia). lia.
  - apply last_Some in Hlast as (front & Hfront).
    simpl. rewrite Hfront, omap_app. simpl. rewrite Hl. apply last_snoc.
  - intros l' Hne. rewrite Hheap. by apply lookup_insert_ne.
Qed.




End Client.

(** C2.  A provider answers every request with HTTP 400.  With the default
    of three retries [chatCompletion] does not raise after the first
    response: it waits 1000, 2000 and 4000 ms and sends the request four
    times before it raises the error. *)
Theorem client_error_is_retried :
  chatCompletion "gpt-4.1-mini" Scenarios.refusing Scenarios.ask None
    (empty_world Scenarios.asked) =
  (Rejected "HTTP 400: Bad Request - invalid request",
   {| heap := Scenarios.asked;
      fetched := 4;
      effects := [Fetch Scenarios.sent_ask; Sleep (Js.Num 1000);
                  Fetch Scenarios.sent_ask; Sleep (Js.Num 2000);
                  Fetch Scenarios.sent_ask; Sleep (Js.Num 4000);
                  Fetch Scenarios.sent_ask] |}).
Proof. vm_compute. reflexivity. Qed.

Lemma backoff_schedule_witness :
  let w := (chatCompletion "gpt-4.1-mini" Scenarios.busy Scenarios.ask None
              (empty_world Scenarios.asked)).2 in
  sleeps (effects w) !! (2 - 1)%nat = Some (Js.Num (Spec.retry_delay 2)) ∧
  (2 < fetched w)%nat ∧
  (Spec.retry_delay 2 ≤ Spec.retry_delay 3)%Z.
Proof.
  apply (backoff_schedule "gpt-4.1-mini" Scenarios.busy Scenarios.ask None
           Scenarios.asked 3 2).
  - intros k sent _. eexists. split; [reflexivity|]. split; [by left|reflexivity].
  - simpl. lia.
  - lia.
Defined.

Lemma fallback_appends_instruction_witness :
  let w' := (chatCompletionWithFallback "gpt-4.1-mini"
               (Scenarios.unstructured
                  {| status := 200; statusText := "OK"; retry_after := None;
                     body := BodyJson None Scenarios.no_completion |})
               Scenarios.structured_ask (empty_world Scenarios.asked)).2 in
  let modified :=
    {| role := user; content := "Suggest tags." +:+ json_instruction |} in
  heap w' !! 1%positive = Some modified ∧
  content modified ≠ "Suggest tags." ∧
  last (body_messages (serialize "gpt-4.1-mini" (heap w') Scenarios.structured_ask true))
    = Some modified ∧
  (∀ l', l' ≠ 1%positive → heap w' !! l' = Scenarios.asked !! l').
Proof.
  eapply (fallback_appends_instruction_in_place "gpt-4.1-mini" _
            Scenarios.structured_ask (empty_world Scenarios.asked) _ 1%positive
            {| role := user; content := "Suggest tags." |}
            "HTTP 400: Bad Request - response_format is not supported").
  - reflexivity.
  - reflexivity.
  - reflexivity.
  - vm_compute. reflexivity.
  - left. vm_compute. reflexivity.
Defined.

End AiServiceFacts.

(** ** The tag-suggestion engine *)

Module TagEngineFacts.

Import AiService TagEngine JsFacts.

Section Engine.

Variable prefs : Preferences.Prefs.
Variable store : Zotero.Store.
Variable Tags_getAll : Z → settled (list string).
Variable extractFullText : Zotero.Item → option Zotero.Item → Z → settled string.
Variable JSON_parse : string → settled Parsed.
Variable provider : nat → RequestBody → FetchOutcome.




End Engine.



End TagEngineFacts.

(** ** The batch scheduler *)

Module SchedulerFacts.

Import TagEngine BatchProcessor Invariants.

(** *** Counting tasks *)

Lemma count_cons (f : Task → bool) (t : Task) (ts : list Task) :
  count f (t :: ts) = (bump f t + count f ts)%nat.
Proof. unfold count, bump. simpl. by destruct (f t). Qed.

Lemma count_snoc (f : Task → bool) (ts : list Task) (t : Task) :
  count f (ts ++ [t]) = (count f ts + bump f t)%nat.
Proof. unfold count, bump. rewrite List.filter_app, length_app. simpl. by destruct (f t). Qed.

Lemma count_app (f : Task → bool) (ts us : list Task) :
  count f (ts ++ us) = (count f ts + count f us)%nat.
Proof. unfold count. by rewrite List.filter_app, length_app. Qed.

Lemma count_le_length (f : Task → bool) (ts : list Task) :
  (count f ts ≤ length ts)%nat.
Proof. unfold count. apply List.filter_length_le. Qed.

Lemma count_insert (ts : list Task) (i : nat) (t0 t : Task) :
  ts !! i = Some t0 →
  ∀ f, (count f (<[i := t]> ts) + bump f t0 = count f ts + bump f t)%nat.
Proof.
  intros Hi f. revert i Hi.
  induction ts as [|u ts IH]; intros [|i] Hi; simplify_eq/=.
  - rewrite !count_cons. lia.
  - rewrite !count_cons. specialize (IH i Hi). lia.
Qed.


Lemma count_lookup_false (f : Task → bool) (ts : list Task) (i : nat) (t : Task) :
  ts !! i = Some t → f t = false → (count f ts < length ts)%nat.
Proof.
  revert i. induction ts as [|u ts IH]; intros [|i] Hi Hf; simplify_eq/=.
  - rewrite count_cons. unfold bump. rewrite Hf.
    pose proof (count_le_length f ts). lia.
  - rewrite count_cons. specialize (IH i Hi Hf). unfold bump. destruct (f u); lia.
Qed.

Lemma forallb_count (f : Task → bool) (ts : list Task) :
  forallb f ts = (count f ts =? length ts)%nat.
Proof.
  induction ts as [|t ts IH]; [done|].
  rewrite count_cons. simpl. unfold bump. destruct (f t); simpl; [done|].
  symmetry. apply Nat.eqb_neq. pose proof (count_le_length f ts). lia.
Qed.

Lemma all_done_count (st : State) :
  all_done st = (count is_done (tasks st) =? length (tasks st))%nat.
Proof. apply forallb_count. Qed.

(** The facts about the counts after [tasks[i] := t]. *)
Ltac counts H t :=
  let Hc := fresh "Hc" in
  pose proof (count_insert _ _ _ t H) as Hc;
  pose proof (Hc holding); pose proof (Hc ran_finally); pose proof (Hc recorded);
  pose proof (Hc threw); pose proof (Hc not_started); pose proof (Hc is_done);
  pose proof (Hc was_skipped);
  clear Hc.

Lemma holding_not_done (t : Task) :
  holding t = true →
  is_done t = false ∧ ran_finally t = false ∧ recorded t = false ∧
  threw t = false ∧ not_started t = false ∧ was_skipped t = false ∧
  t ≠ AwaitAcquire false.
Proof. destruct t as [[]| | | | |]; simpl; intros; repeat split; congruence. Qed.

(** *** The steps keep the invariants *)

Lemma gate_count_request (st : State) : Gate st → Gate (count_request st).
Proof. intros []. by constructor. Qed.

Lemma books_count_request (st : State) : Books st → Books (count_request st).
Proof. intros []. by constructor. Qed.

Lemma gate_push (result : TagResult) (st : State) : Gate st → Gate (push result st).
Proof. intros []. by constructor. Qed.

Lemma gate_cancel (st : State) : Gate st → Gate (cancel st).
Proof. intros []. by constructor. Qed.

Lemma books_cancel (st : State) : Books st → Books (cancel st).
Proof. intros []. by constructor. Qed.

Lemma queue_not_holding (st : State) (i j : nat) (t0 : Task) :
  Gate st → tasks st !! i = Some t0 → holding t0 = true →
  j ∈ queue (semaphore st) → j ≠ i.
Proof.
  intros HG Hi Hhold Hj ->.
  pose proof (proj1 (Forall_forall _ _) (gate_queue st HG) i Hj) as Hq.
  simpl in Hq. rewrite Hi in Hq. injection Hq as ->. done.
Qed.

Lemma gate_set_task (st : State) (i : nat) (t0 t : Task) :
  Gate st → tasks st !! i = Some t0 → holding t0 = true → holding t = true →
  Gate (set_task i t st).
Proof.
  intros HG Hi H0 Ht. pose proof HG as [Ha Hl Hq Hf Hs Hw].
  counts Hi t. unfold bump in *.
  apply holding_not_done in H0 as Hn0. apply holding_not_done in Ht as Hnt.
  destruct Hn0 as (? & ? & ? & ? & Hs0 & ? & ?),
           Hnt as (? & ? & ? & ? & Hst & ? & Hnot).
  rewrite H0, Ht, Hs0, Hst in *.
  constructor; simpl.
  - rewrite Ha. f_equal. lia.
  - done.
  - apply Forall_forall. intros j Hj.
    rewrite list_lookup_insert_ne by (symmetry; by eapply queue_not_holding).
    by apply (proj1 (Forall_forall _ _) Hq).
  - by rewrite length_insert.
  - lia.
  - intros j Hj. destruct (decide (i = j)) as [<-|Hij].
    + rewrite list_lookup_insert_eq in Hj by (by eapply lookup_lt_Some).
      congruence.
    + rewrite list_lookup_insert_ne in Hj by done. by apply Hw.
Qed.

Lemma books_set_task (st : State) (i : nat) (t0 t : Task) :
  Books st → tasks st !! i = Some t0 → holding t0 = true → holding t = true →
  Books (set_task i t st).
Proof.
  intros [Htot Hcur Hres Hrep Hprom] Hi H0 Ht.
  counts Hi t. unfold bump in *.
  pose proof (count_lookup_false is_done _ _ _ Hi) as Hlt.
  apply holding_not_done in H0 as (Hd0 & Hf0 & Hr0 & Hth0 & ? & ? & ?).
  apply holding_not_done in Ht as (Hdt & Hft & Hrt & Htht & ? & ? & ?).
  rewrite Hd0, Hf0, Hr0, Hth0, Hdt, Hft, Hrt, Htht in *.
  specialize (Hlt eq_refl).
  constructor; simpl.
  - by rewrite length_insert.
  - lia.
  - unfold results_of in *. simpl. lia.
  - done.
  - rewrite all_done_count in *. simpl. rewrite length_insert.
    destruct (promise st).
    + destruct Hprom as [Hth Hall]. split; [lia|].
      apply Nat.eqb_neq. lia.
    + destruct Hprom as [_ Hall]. apply Nat.eqb_eq in Hall. lia.
    + lia.
Qed.

Lemma started_done (how : Completion) :
  how ≠ NotStarted →
  holding (Done how) = false ∧ ran_finally (Done how) = true ∧
  not_started (Done how) = false ∧ is_done (Done how) = true.
Proof. by destruct how. Qed.

Lemma gate_finish (st : State) (i : nat) (t0 : Task) (how : Completion) :
  Gate st → tasks st !! i = Some t0 → holding t0 = true → how ≠ NotStarted →
  Gate (finish i how st).
Proof.
  intros HG Hi H0 Hhow. pose proof HG as [Ha Hl Hq Hf Hs Hw].
  assert (i < length (tasks st))%nat as Hlt by (by eapply lookup_lt_Some).
  counts Hi (Done how). unfold bump in *.
  apply holding_not_done in H0 as Hn0.
  destruct Hn0 as (? & ? & ? & ? & Hs0 & ? & ?).
  destruct (started_done how Hhow) as (Hh1 & _ & Hs1 & _).
  rewrite H0, Hs0, Hh1, Hs1 in *.
  unfold finish, release.
  destruct (queue (semaphore st)) as [|j rest] eqn:Hqueue.
  - constructor; simpl.
    + rewrite Ha. lia.
    + done.
    + constructor.
    + by rewrite length_insert.
    + lia.
    + intros j Hj. destruct (decide (i = j)) as [<-|Hij].
      * by rewrite list_lookup_insert_eq in Hj.
      * rewrite list_lookup_insert_ne in Hj by done. by apply Hw.
  - assert (j ≠ i) as Hji
      by (eapply queue_not_holding; eauto; rewrite Hqueue; by left).
    assert (<[i := Done how]> (tasks st) !! j = Some (AwaitAcquire false)) as Hj.
    { rewrite list_lookup_insert_ne by done.
      by apply (Forall_inv Hq). }
    counts Hj (AwaitAcquire true). unfold bump in *. simpl in *.
    assert (NoDup (j :: rest)) as Hnodup.
    { pose proof (NoDup_seq 0 (length (tasks st))) as Hseq.
      rewrite <- Hf in Hseq. by apply NoDup_app in Hseq as (_ & _ & Hseq). }
    apply NoDup_cons in Hnodup as [Hjrest _].
    constructor; simpl.
    + rewrite Ha. lia.
    + intros _. specialize (Hl ltac:(done)). lia.
    + apply Forall_forall. intros k Hk.
      assert (k ≠ j) by (intros ->; done).
      assert (k ≠ i)
        by (eapply queue_not_holding; eauto; rewrite Hqueue; by right).
      rewrite !list_lookup_insert_ne by done.
      apply (proj1 (Forall_forall _ _) (Forall_inv_tail Hq) k Hk).
    + rewrite !length_insert, <- app_assoc. done.
    + lia.
    + intros k Hk. destruct (decide (j = k)) as [<-|Hjk].
      * rewrite list_lookup_insert_eq in Hk by (by eapply lookup_lt_Some). done.
      * rewrite list_lookup_insert_ne in Hk by done.
        destruct (decide (i = k)) as [<-|Hik].
        -- by rewrite list_lookup_insert_eq in Hk.
        -- rewrite list_lookup_insert_ne in Hk by done.
           specialize (Hw k Hk). apply elem_of_cons in Hw as [->|]; done.
Qed.

(** The tasks after the [finally] block of task [i]: task [i] is done and
    a queued task, if any, has its slot; no other count moves. *)
Lemma finish_counts (st : State) (i : nat) (t0 : Task) (how : Completion)
    (f : Task → bool) :
  Gate st → tasks st !! i = Some t0 → holding t0 = true →
  (∀ granted, f (AwaitAcquire granted) = false) → f t0 = false →
  length (tasks (finish i how st)) = length (tasks st) ∧
  count f (tasks (finish i how st)) = (count f (tasks st) + bump f (Done how))%nat.
Proof.
  intros HG Hi H0 Hacq Hf0.
  pose proof (count_insert _ _ _ (Done how) Hi f) as Hc.
  unfold bump in Hc at 1. rewrite Hf0 in Hc.
  unfold finish, release.
  destruct (queue (semaphore st)) as [|j rest] eqn:Hqueue; simpl.
  - rewrite length_insert. split; [done|lia].
  - assert (j ≠ i) as Hji
      by (eapply queue_not_holding; eauto; rewrite Hqueue; by left).
    assert (<[i := Done how]> (tasks st) !! j = Some (AwaitAcquire false)) as Hj.
    { rewrite list_lookup_insert_ne by done.
      pose proof (gate_queue st HG) as Hq. rewrite Hqueue in Hq.
      apply (Forall_inv Hq). }
    pose proof (count_insert _ _ _ (AwaitAcquire true) Hj f) as Hc'.
    unfold bump in Hc'. rewrite !Hacq in Hc'.
    rewrite !length_insert. split; [done|lia].
Qed.

Lemma results_of_finish (st : State) (i : nat) (how : Completion) :
  results_of (finish i how st) (progress (finish i how st)) =
  results_of st (progress st).
Proof. unfold finish, release. by destruct (queue (semaphore st)). Qed.

Lemma results_of_push (st : State) (result : TagResult) :
  results_of (push result st) (progress (push result st)) =
  results_of st (progress st) ++ [result].
Proof. unfold results_of, push. simpl. by rewrite lookup_insert_eq. Qed.

Lemma results_of_complete (st : State) (i : nat) (how : Completion) :
  results_of (complete i how st) (progress (complete i how st)) =
  results_of st (progress st) ++
  match how with Recorded result => [result] | _ => [] end.
Proof.
  destruct how; simpl; rewrite results_of_finish, ?results_of_push, ?app_nil_r; done.
Qed.

Lemma tasks_complete (st : State) (i : nat) (how : Completion) :
  tasks (complete i how st) = tasks (finish i how st) ∧
  semaphore (complete i how st) = semaphore (finish i how st) ∧
  admissions (complete i how st) = admissions (finish i how st) ∧
  promise (complete i how st) =
    settle how (tasks (complete i how st)) (promise st) ∧
  current (progress (complete i how st)) = S (current (progress st)) ∧
  total (progress (complete i how st)) = total (progress st) ∧
  length (reported (complete i how st)) = S (length (reported st)).
Proof.
  destruct how; unfold complete, finish, release; simpl;
    destruct (queue (semaphore st)); simpl; rewrite ?length_app; simpl;
    repeat split; first [done | lia].
Qed.

Lemma gate_complete (st : State) (i : nat) (t0 : Task) (how : Completion) :
  Gate st → tasks st !! i = Some t0 → holding t0 = true → how ≠ NotStarted →
  Gate (complete i how st).
Proof.
  intros HG Hi H0 Hhow.
  destruct how; simpl; try by eapply gate_finish.
  eapply gate_finish; eauto. by apply gate_push.
Qed.

Lemma books_complete (st : State) (i : nat) (t0 : Task) (how : Completion) :
  Gate st → Books st → tasks st !! i = Some t0 → holding t0 = true →
  how ≠ NotStarted →
  Books (complete i how st) ∧
  count threw (tasks (complete i how st)) =
    (count threw (tasks st) + bump threw (Done how))%nat.
Proof.
  intros HG [Htot Hcur Hres Hrep Hprom] Hi H0 Hhow.
  apply holding_not_done in H0 as Hn0.
  destruct Hn0 as (Hd0 & Hf0 & Hr0 & Hth0 & Hs0 & Hk0 & _).
  destruct (tasks_complete st i how) as (Ht & _ & _ & Hp & Hc & Htl & Hrl).
  destruct (finish_counts st i t0 how ran_finally HG Hi H0) as [Hlen Hcf]; [done..|].
  destruct (finish_counts st i t0 how recorded HG Hi H0) as [_ Hcr]; [done..|].
  destruct (finish_counts st i t0 how threw HG Hi H0) as [_ Hct]; [done..|].
  destruct (finish_counts st i t0 how is_done HG Hi H0) as [_ Hcd]; [done..|].
  pose proof (count_lookup_false is_done _ _ _ Hi Hd0) as Hlt.
  rewrite <- Ht in Hlen, Hcf, Hcr, Hct, Hcd.
  split; [|done].
  constructor.
  - lia.
  - rewrite Hc, Hcf, Hcur. unfold bump. destruct how; simpl; try done; lia.
  - rewrite results_of_complete, length_app, Hcr, Hres. unfold bump.
    by destruct how.
  - lia.
  - rewrite Hp, all_done_count. rewrite all_done_count in Hprom.
    unfold settle. rewrite forallb_count.
    destruct (promise st) eqn:Hpromise.
    + destruct Hprom as [Hth Hall].
      destruct how; try done; unfold bump in *; simpl in *.
      * match goal with
        | |- context [if ?b then Resolved else Pending] => destruct b
        end; (split; [lia | done]).
      * match goal with
        | |- context [if ?b then Resolved else Pending] => destruct b
        end; (split; [lia | done]).
      * lia.
    + destruct Hprom as [_ Hall]. apply Nat.eqb_eq in Hall. lia.
    + lia.
Qed.

(** What a continuation does: it moves its task to the next [await], or
    it ends the task; on the way it may have counted a request. *)
Lemma step_shape (st st' : State) (i : nat) (v : Settlement) :
  step st (Resume i v) = Some st' →
  ∃ t0 st1,
    tasks st !! i = Some t0 ∧ holding t0 = true ∧
    (st1 = st ∨ st1 = count_request st) ∧
    ((∃ t, holding t = true ∧ (rank t < rank t0)%nat ∧
           is_throw (Resume i v) = false ∧ st' = set_task i t st1) ∨
     (∃ how, how ≠ NotStarted ∧
             threw (Done how) = is_throw (Resume i v) ∧
             st' = complete i how st1)).
Proof.
  unfold step. destruct (tasks st !! i) as [t0|] eqn:Hi; [|done].
  destruct t0 as [[]| | | | |], v; try done; intros [= <-];
    unfold after_acquire, dispatch, after_suggest, commit, after_apply, record;
    repeat case_match;
    repeat match goal with
    | |- context [finish ?j Skipped ?s] =>
        change (finish j Skipped s) with (complete j Skipped s)
    | |- context [finish ?j (Threw ?m) ?s] =>
        change (finish j (Threw m) s) with (complete j (Threw m) s)
    | |- context [finish ?j (Recorded ?r) (push ?r ?s)] =>
        change (finish j (Recorded r) (push r s)) with (complete j (Recorded r) s)
    end;
    eexists _, _; (split; [reflexivity|]); (split; [reflexivity|]);
    first
      [ split; [left; reflexivity|]; left; eexists;
        split; [|split; [|split; [|reflexivity]]];
        [reflexivity|simpl; lia|reflexivity]
      | split; [right; reflexivity|]; left; eexists;
        split; [|split; [|split; [|reflexivity]]];
        [reflexivity|simpl; lia|reflexivity]
      | split; [left; reflexivity|]; right; eexists;
        split; [|split; [|reflexivity]]; [discriminate|reflexivity]
      | split; [right; reflexivity|]; right; eexists;
        split; [|split; [|reflexivity]]; [discriminate|reflexivity] ].
Qed.

Lemma limit_complete (i : nat) (how : Completion) (st : State) :
  limit (semaphore (complete i how st)) = limit (semaphore st).
Proof.
  destruct how; unfold complete, finish, release; simpl;
    by destruct (queue (semaphore st)).
Qed.

Lemma step_invariant (st st' : State) (e : Event) :
  Gate st → Books st → step st e = Some st' →
  Gate st' ∧ Books st' ∧
  limit (semaphore st') = limit (semaphore st) ∧
  total (progress st') = total (progress st) ∧
  count threw (tasks st') =
    (count threw (tasks st) + (if is_throw e then 1 else 0))%nat.
Proof.
  intros HG HB Hstep. destruct e as [|i v].
  - injection Hstep as <-. simpl.
    split; [by apply gate_cancel|]. split; [by apply books_cancel|].
    repeat split; lia.
  - apply step_shape in Hstep
      as (t0 & st1 & Hi & H0 & Hst1 &
          [(t & Ht & _ & Hev & ->)|(how & Hhow & Hev & ->)]);
      [rewrite Hev|rewrite <- Hev]; clear Hev;
      assert (Gate st1 ∧ Books st1 ∧ tasks st1 = tasks st ∧
              semaphore st1 = semaphore st ∧ progress st1 = progress st)
        as (HG1 & HB1 & Ht1 & Hs1 & Hp1)
        by (destruct Hst1 as [->| ->];
            [done|split; [by apply gate_count_request|];
                  split; [by apply books_count_request|]; done]);
      rewrite <- Ht1 in Hi |- *; rewrite <- Hs1, <- Hp1.
    + split; [by eapply gate_set_task|]. split; [by eapply books_set_task|].
      simpl. split; [done|]. split; [done|].
      pose proof (count_insert _ _ _ t Hi threw) as Hc. unfold bump in Hc.
      apply holding_not_done in H0 as (_ & _ & _ & H0 & _).
      apply holding_not_done in Ht as (_ & _ & _ & Ht & _).
      rewrite H0, Ht in Hc. lia.
    + destruct (books_complete st1 i t0 how HG1 HB1 Hi H0 Hhow) as [HB' Hth].
      split; [by eapply gate_complete|]. split; [done|].
      split; [apply limit_complete|].
      split; [apply tasks_complete|].
      rewrite Hth. unfold bump. by destruct (threw (Done how)).
Qed.


Lemma bounded_step (st st' : State) (e : Event) :
  Bounded st → step st e = Some st' → Bounded st'.
Proof.
  unfold Bounded. intros Hb Hstep. destruct e as [|i v].
  - by injection Hstep as <-.
  - apply step_shape in Hstep
      as (t0 & st1 & _ & _ & Hst1 & [(t & _ & _ & _ & ->)|(how & _ & _ & ->)]).
    + by destruct Hst1 as [->| ->].
    + assert (semaphore st1 = semaphore st) as Hs by (by destruct Hst1 as [->| ->]).
      destruct how; unfold complete, finish, release; simpl; rewrite Hs;
        destruct (queue (semaphore st)); simpl; lia.
Qed.

(** *** The state that [processBatch] returns *)

Lemma count_acquire (f : Task → bool) (ts : list Task) :
  (∀ granted, f (AwaitAcquire granted) = false) →
  Forall is_acquire ts → count f ts = 0%nat.
Proof.
  intros Hf. induction 1 as [|t ts [granted ->] _ IH]; [done|].
  rewrite count_cons. unfold bump. rewrite Hf. done.
Qed.

(** The synchronous start of the next item, while [cancel] cannot have
    been called. *)
Lemma gate_start (st : State) :
  Gate st → cancelled_flag st = false → Forall is_acquire (tasks st) →
  let st' := start st (length (tasks st)) in
  Gate st' ∧ cancelled_flag st' = false ∧ Forall is_acquire (tasks st') ∧
  length (tasks st') = S (length (tasks st)) ∧
  (Bounded st → Bounded st') ∧
  limit (semaphore st') = limit (semaphore st) ∧
  progress st' = progress st ∧ arrays st' = arrays st ∧ reported st' = reported st.
Proof.
  intros [Ha Hfull Hq Hf Hs Hw] Hc Hacq. unfold start, acquire, Bounded. rewrite Hc.
  destruct (active (semaphore st) <? limit (semaphore st))%Z eqn:Hlt; simpl.
  - apply Z.ltb_lt in Hlt.
    assert (queue (semaphore st) = []) as Hempty.
    { destruct (queue (semaphore st)); [done|]. specialize (Hfull ltac:(done)). lia. }
    split; [constructor; simpl|].
    + rewrite count_snoc. unfold bump. simpl. rewrite Ha. lia.
    + by rewrite Hempty.
    + by rewrite Hempty.
    + rewrite Hempty in *. rewrite app_nil_r in *.
      rewrite length_app, Nat.add_1_r, seq_S, Hf. done.
    + rewrite count_snoc, Hs. done.
    + intros j Hj. apply lookup_app_Some in Hj as [Hj|[_ Hj]]; [by apply Hw|].
      by destruct (j - length (tasks st))%nat.
    + rewrite length_app, Forall_app. simpl.
      repeat split; try done; try lia.
      repeat constructor. by exists true.
  - apply Z.ltb_ge in Hlt.
    split; [constructor; simpl|].
    + rewrite count_snoc. unfold bump. simpl. rewrite Ha. lia.
    + done.
    + apply Forall_app. split.
      * eapply Forall_impl; [exact Hq|]. intros j Hj. simpl in *.
        rewrite lookup_app_l; [done|]. by eapply lookup_lt_Some.
      * repeat constructor. by rewrite list_lookup_middle.
    + rewrite length_app, Nat.add_1_r, seq_S, app_assoc, Hf. done.
    + rewrite count_snoc, Hs. done.
    + intros j Hj. apply elem_of_app.
      apply lookup_app_Some in Hj as [Hj|[Hge Hj]]; [left; by apply Hw|right].
      apply list_lookup_singleton_Some in Hj as [Hj _].
      assert (j = length (tasks st)) as -> by lia. by left.
    + rewrite length_app, Forall_app. simpl.
      repeat split; try done; try lia.
      repeat constructor. by exists false.
Qed.

Lemma gate_fold_start (n : nat) (st : State) :
  Gate st → cancelled_flag st = false → Forall is_acquire (tasks st) →
  let st' := fold_left start (seq (length (tasks st)) n) st in
  Gate st' ∧ Forall is_acquire (tasks st') ∧
  length (tasks st') = (length (tasks st) + n)%nat ∧
  (Bounded st → Bounded st') ∧
  limit (semaphore st') = limit (semaphore st) ∧
  progress st' = progress st ∧ arrays st' = arrays st ∧ reported st' = reported st.
Proof.
  revert st. induction n as [|n IH]; intros st HG Hc Hacq; simpl.
  - split_and!; first [done | lia].
  - destruct (gate_start st HG Hc Hacq)
      as (HG1 & Hc1 & Hacq1 & Hlen1 & Hb1 & Hl1 & Hp1 & Ha1 & Hr1).
    specialize (IH _ HG1 Hc1 Hacq1). rewrite Hlen1 in IH. simpl in IH.
    destruct IH as (HG' & Hacq' & Hlen' & Hb' & Hl' & Hp' & Ha' & Hr').
    split_and!; first [done | congruence | lia | auto].
Qed.

(** The state in which [processBatch] returns satisfies the invariants. *)
Lemma processBatch_invariant (prefs : Preferences.Prefs) (items : list Zotero.Item)
    (confirmFn : bool) :
  let st := processBatch prefs items confirmFn in
  Gate st ∧ Books st ∧
  (0 ≤ limit (semaphore st) → Bounded st)%Z ∧
  limit (semaphore st) = Js.or_number (Preferences.concurrency prefs) 3 ∧
  total (progress st) = length items ∧
  length (tasks st) = length items ∧
  count threw (tasks st) = 0%nat.
Proof.
  unfold processBatch.
  match goal with
  | |- context [fold_left start _ ?st0] =>
      pose proof (gate_fold_start (length items) st0) as Hfold
  end.
  simpl in Hfold.
  destruct Hfold as (HG & Hacq & Hlen & Hb & Hl & Hp & Ha & Hr);
    [by constructor|done|constructor|].
  match type of HG with Gate ?s => set (st := s) in * end.
  assert (∀ f, (∀ granted, f (AwaitAcquire granted) = false) →
               count f (tasks st) = 0%nat) as Hzero
    by (intros f Hf; by apply count_acquire).
  split; [destruct HG; by constructor|].
  split; [|repeat split; try done; try (by apply Hzero)].
  - constructor; simpl.
    + by rewrite Hp.
    + rewrite Hp. simpl. symmetry. by apply Hzero.
    + unfold results_of. simpl. rewrite Hp, Ha. simpl.
      rewrite lookup_singleton_eq. simpl. symmetry. by apply Hzero.
    + by rewrite Hr, Hp.
    + unfold all_done. simpl. destruct (forallb is_done (tasks st)); split;
        try done; by apply Hzero.
  - unfold Bounded in *. simpl in *. intros. apply Hb. lia.
  - by rewrite Hp.
Qed.

(** *** Runs *)

Lemma run_invariant (es : list Event) (st st' : State) :
  Gate st → Books st → run st es = Some st' →
  Gate st' ∧ Books st' ∧
  (Bounded st → Bounded st') ∧
  limit (semaphore st') = limit (semaphore st) ∧
  total (progress st') = total (progress st) ∧
  count threw (tasks st') =
    (count threw (tasks st) + length (List.filter is_throw es))%nat.
Proof.
  revert st. induction es as [|e es IH]; intros st HG HB; simpl.
  - intros [= <-]. split_and!; first [done | lia].
  - destruct (step st e) as [st1|] eqn:Hstep; [|done]. intros Hrun.
    destruct (step_invariant st st1 e HG HB Hstep) as (HG1 & HB1 & Hl1 & Ht1 & Hc1).
    destruct (IH st1 HG1 HB1 Hrun) as (HG' & HB' & Hb' & Hl' & Ht' & Hc').
    split_and!; try done; try congruence.
    + intros Hb. apply Hb'. by eapply bounded_step.
    + rewrite Hc', Hc1. destruct (is_throw e); simpl; lia.
Qed.

Lemma reachable_invariant (prefs : Preferences.Prefs) (items : list Zotero.Item)
    (confirmFn : bool) (es : list Event) (st : State) :
  run (processBatch prefs items confirmFn) es = Some st →
  Gate st ∧ Books st ∧
  (0 ≤ Js.or_number (Preferences.concurrency prefs) 3 → Bounded st)%Z ∧
  limit (semaphore st) = Js.or_number (Preferences.concurrency prefs) 3 ∧
  total (progress st) = length items ∧
  length (tasks st) = length items ∧
  count threw (tasks st) = length (List.filter is_throw es).
Proof.
  intros Hrun.
  destruct (processBatch_invariant prefs items confirmFn)
    as (HG0 & HB0 & Hb0 & Hl0 & Ht0 & Hn0 & Hc0).
  destruct (run_invariant es _ st HG0 HB0 Hrun) as (HG & HB & Hb & Hl & Ht & Hc).
  split_and!; try done; try congruence.
  - intros HL. apply Hb, Hb0. by rewrite Hl0.
  - rewrite <- (books_total st HB). congruence.
  - by rewrite Hc, Hc0.
Qed.




(** *** The end of a task *)

(** The [finally] block reports a copy of the progress it has just
    updated, whose [results] array holds what it holds then. *)
Lemma reported_complete (st : State) (i : nat) (how : Completion) :
  let st' := complete i how st in
  reported st' =
  reported st ++ [{| snapshot := progress st';
                     seen := results_of st' (progress st') |}].
Proof.
  destruct how; unfold complete, finish, release, results_of; simpl;
    destruct (queue (semaphore st)); reflexivity.
Qed.






(** *** The batch promise *)






(** *** Progress snapshots *)

(** C6.  Two items complete one after the other.  The snapshot reported
    for the first shows one record when it is handed to the callback;
    when the second item has completed, the same snapshot shows two
    records, and a record that the callback pushes to the results of the
    snapshot appears in the results of the scheduler. *)
Theorem snapshot_shares_the_results_array :
  ∃ st first,
    run (processBatch Preferences.defaults [Scenarios.quantum; Scenarios.relativity]
           false) Scenarios.two_items = Some st ∧
    reported st !! 0%nat = Some first ∧
    seen first = [Scenarios.nothing_new] ∧
    results_of st (snapshot first) = [Scenarios.nothing_new; Scenarios.unauthorized] ∧
    (let st' := callback_push (snapshot first) Scenarios.biology_result st in
     results_of st' (progress st') =
       [Scenarios.nothing_new; Scenarios.unauthorized; Scenarios.biology_result]).
Proof.
  eexists _, _. split; [vm_compute; reflexivity|].
  split; [reflexivity|]. vm_compute. done.
Qed.

(** *** Every batch comes to an end *)

Lemma work_insert (ts : list Task) (i : nat) (t0 t : Task) :
  ts !! i = Some t0 →
  (work (<[i := t]> ts) + rank t0 = work ts + rank t)%nat.
Proof.
  unfold work. revert i. induction ts as [|u ts IH]; intros [|i] Hi; simplify_eq/=.
  - lia.
  - specialize (IH i Hi). lia.
Qed.

Lemma holding_rank (t : Task) : holding t = true → (0 < rank t)%nat.
Proof. destruct t as [[]| | | | |]; simpl; intros; first [done | lia]. Qed.

(** Every continuation uses up some of the work that is left. *)
Lemma step_work (st st' : State) (i : nat) (v : Settlement) :
  Gate st → step st (Resume i v) = Some st' →
  (work (tasks st') < work (tasks st))%nat.
Proof.
  intros HG Hstep.
  apply step_shape in Hstep
    as (t0 & st1 & Hi & H0 & Hst1 & [(t & _ & Hrank & _ & ->)|(how & _ & _ & ->)]);
    assert (tasks st1 = tasks st ∧ semaphore st1 = semaphore st) as [Ht1 Hs1]
      by (by destruct Hst1 as [->| ->]).
  - simpl. rewrite Ht1. pose proof (work_insert _ _ _ t Hi). lia.
  - destruct (tasks_complete st1 i how) as (-> & _).
    pose proof (holding_rank t0 H0) as Hpos.
    pose proof (work_insert _ _ _ (Done how) Hi) as Hw. simpl in Hw.
    unfold finish, release. rewrite Hs1, Ht1.
    destruct (queue (semaphore st)) as [|j rest] eqn:Hqueue; simpl; [lia|].
    assert (j ≠ i) as Hji
      by (eapply queue_not_holding; eauto; rewrite Hqueue; by left).
    assert (<[i := Done how]> (tasks st) !! j = Some (AwaitAcquire false)) as Hj.
    { rewrite list_lookup_insert_ne by done.
      pose proof (gate_queue st HG) as Hq. rewrite Hqueue in Hq.
      apply (Forall_inv Hq). }
    pose proof (work_insert _ _ _ (AwaitAcquire true) Hj) as Hw'. simpl in Hw'.
    lia.
Qed.

Lemma count_positive (f : Task → bool) (ts : list Task) :
  (0 < count f ts)%nat → ∃ i t, ts !! i = Some t ∧ f t = true.
Proof.
  induction ts as [|t ts IH]; [unfold count; simpl; lia|].
  rewrite count_cons. unfold bump. destruct (f t) eqn:Hf.
  - intros _. by exists 0%nat, t.
  - intros Hpos. destruct IH as (i & u & Hi & Hu); [lia|]. by exists (S i), u.
Qed.

(** A task that holds a slot has a continuation the event loop can run. *)
Lemma holding_enabled (st : State) (i : nat) (t : Task) :
  tasks st !! i = Some t → holding t = true →
  ∃ v st', step st (Resume i v) = Some st'.
Proof.
  intros Hi Ht. unfold step. rewrite Hi.
  destruct t as [[]| | |result|result tagsToApply|how]; try done.
  - by exists Woke, (after_acquire i st).
  - by exists Woke, (dispatch i st).
  - by exists (Suggested (failed 0 "" "")), (after_suggest i (failed 0 "" "") st).
  - by exists (Confirmed None), (commit i result None st).
  - by exists Applied, (after_apply i result tagsToApply st).
Qed.

(** With room for one request at least, the scheduler is never stuck: as
    long as an item is not done, some awaited promise is pending whose
    settlement lets a task go on. *)
Lemma scheduler_not_stuck (st : State) :
  Gate st → (1 ≤ limit (semaphore st))%Z → all_done st = false →
  ∃ i v st', step st (Resume i v) = Some st'.
Proof.
  intros HG Hlimit Hall.
  assert (0 < count holding (tasks st))%nat as Hsome.
  { rewrite all_done_count in Hall. apply Nat.eqb_neq in Hall.
    destruct (Nat.eq_dec (count holding (tasks st)) 0) as [Hzero|]; [|lia].
    exfalso.
    assert (queue (semaphore st) = []) as Hempty.
    { destruct (queue (semaphore st)) eqn:Hqueue; [done|].
      pose proof (gate_full st HG) as Hfull. rewrite Hqueue in Hfull.
      specialize (Hfull ltac:(done)).
      pose proof (gate_active st HG). lia. }
    apply Hall.
    assert (∀ j, tasks st !! j ≠ Some (AwaitAcquire false)) as Hnone.
    { intros j Hj. apply (gate_waiting st HG) in Hj. rewrite Hempty in Hj.
      by apply elem_of_nil in Hj. }
    revert Hzero Hnone. generalize (tasks st). intros ts.
    induction ts as [|t ts IH]; [done|].
    rewrite !count_cons. unfold bump. simpl. intros Hzero Hnone.
    rewrite IH; [|destruct (holding t); lia|intros j; apply (Hnone (S j))].
    destruct t as [[]| | | | |]; simpl in *; try lia.
    by specialize (Hnone 0%nat). }
  apply count_positive in Hsome as (i & t & Hi & Ht).
  exists i. by eapply holding_enabled.
Qed.

(** A run cannot go on for ever: its continuations are bounded by the
    work that was left where it started. *)
Lemma run_bounded (es : list Event) (st st' : State) :
  Gate st → Books st → run st es = Some st' →
  (length (List.filter is_resume es) + work (tasks st') ≤ work (tasks st))%nat.
Proof.
  revert st. induction es as [|e es IH]; intros st HG HB; simpl.
  - intros [= <-]. lia.
  - destruct (step st e) as [st1|] eqn:Hstep; [|done]. intros Hrun.
    destruct (step_invariant st st1 e HG HB Hstep) as (HG1 & HB1 & _).
    specialize (IH st1 HG1 HB1 Hrun).
    destruct e as [|i v]; simpl.
    + injection Hstep as <-. simpl in IH. lia.
    + pose proof (step_work st st1 i v HG Hstep). lia.
Qed.

(** Every run of [processBatch] with a limit of one at least has at most
    six continuations per item, and can go on until every item is done. *)
Lemma batch_comes_to_an_end (prefs : Preferences.Prefs) (items : list Zotero.Item)
    (confirmFn : bool) (es : list Event) (st : State) :
  (1 ≤ Js.or_number (Preferences.concurrency prefs) 3)%Z →
  run (processBatch prefs items confirmFn) es = Some st →
  (length (List.filter is_resume es) ≤ 6 * length items)%nat ∧
  (all_done st = false → ∃ i v st', step st (Resume i v) = Some st').
Proof.
  intros HL Hrun.
  destruct (processBatch_invariant prefs items confirmFn)
    as (HG0 & HB0 & _ & _ & _ & Hn0 & _).
  destruct (reachable_invariant prefs items confirmFn es st Hrun)
    as (HG & _ & _ & Hl & _).
  split.
  - pose proof (run_bounded es _ st HG0 HB0 Hrun) as Hbound.
    assert (work (tasks (processBatch prefs items confirmFn)) ≤ 6 * length items)%nat.
    { rewrite <- Hn0. generalize (tasks (processBatch prefs items confirmFn)).
      intros ts. unfold work. induction ts as [|t ts IH]; simpl; [lia|].
      destruct t as [[]| | | | |]; simpl; lia. }
    lia.
  - apply scheduler_not_stuck; [done|by rewrite Hl].
Qed.

End SchedulerFacts.

(** ** Reading decimal numerals *)

Module ParseFacts.





End ParseFacts.

(** ** The completion client: budgets, outcomes and the fallback *)

Module ClientFacts.

Import AiService Traces Connection.

Section Client.

Variable model : string.
Variable provider : nat → RequestBody → FetchOutcome.

(** The loop makes at most one request per iteration. *)
Lemma attempts_budget (remaining : nat) (maxRetries attempt : Z)
    (lastError : option string) (sent : RequestBody) (w : World) :
  (fetched (attempts provider remaining maxRetries attempt lastError sent w).2
   ≤ fetched w + remaining)%nat.
Proof.
  revert attempt lastError w.
  induction remaining as [|remaining IH]; intros attempt lastError w; simpl; [lia|].
  destruct (AiServiceFacts.attempt_body_frame provider maxRetries attempt sent w)
    as (_ & Hf & _).
  destruct (attempt_body provider maxRetries attempt sent w) as [[[|result]|error] w1];
    simpl in *.
  - specialize (IH (attempt + 1)%Z lastError w1). lia.
  - lia.
  - unfold bind. destruct (attempt <? maxRetries)%Z; simpl.
    + match goal with
      | |- context [attempts provider remaining maxRetries ?a ?e sent ?w2] =>
          specialize (IH a e w2)
      end. simpl in IH. lia.
    + specialize (IH (attempt + 1)%Z (Some error) w1). lia.
Qed.

Lemma chatCompletion_bounds (request : ChatCompletionRequest)
    (options : option Options) (w : World) :
  let w' := (chatCompletion model provider request options w).2 in
  (fetched w' ≤ fetched w + Z.to_nat (default 3%Z (options ≫= maxRetries) + 1))%nat ∧
  heap w' = heap w.
Proof.
  destruct (AiServiceFacts.chatCompletion_frame model provider request options w)
    as (Hh & _).
  split; [|done]. unfold chatCompletion, bind, read_heap. apply attempts_budget.
Qed.

(** X1.  A call of [chatCompletion] sends at most [maxRetries + 1]
    requests (four by default), leaves every message object as it was and
    only adds to the trace; with a negative [maxRetries] it sends nothing
    and rejects with "Request failed after all retries". *)
Theorem chatCompletion_request_budget (request : ChatCompletionRequest)
    (options : option Options) (w : World) :
  let maxR := default 3%Z (options ≫= maxRetries) in
  let out := chatCompletion model provider request options w in
  (fetched out.2 ≤ fetched w + Z.to_nat (maxR + 1))%nat ∧
  heap out.2 = heap w ∧
  (∃ es, effects out.2 = effects w ++ es) ∧
  ((maxR < 0)%Z → out = (Rejected "Request failed after all retries", w)).
Proof.
  intros maxR out.
  destruct (AiServiceFacts.chatCompletion_frame model provider request options w)
    as (Hh & He).
  split_and!; [|done|done|].
  - subst out. unfold chatCompletion, bind, read_heap. apply attempts_budget.
  - intros Hneg. subst out. unfold chatCompletion, bind, read_heap.
    fold maxR. replace (Z.to_nat (maxR + 1)) with 0%nat by lia. reflexivity.
Qed.

(** What one iteration does with a response that is [ok]. *)
Lemma attempt_body_ok (maxRetries attempt : Z) (sent : RequestBody) (w : World)
    (r : Response) (e : option string) (result : ChatCompletionResponse) :
  provider (fetched w) sent = Responded r →
  ok r = true →
  body r = BodyJson e result →
  attempt_body provider maxRetries attempt sent w =
    (Fulfilled (Return result), advance w 1 [Fetch sent]).
Proof.
  intros Hr Hok Hbody. unfold ok in Hok. apply andb_true_iff in Hok as [H200 H299].
  apply Z.leb_le in H200, H299.
  unfold attempt_body, bind, fetch, advance. rewrite Hr, Nat.add_1_r.
  replace (status r =? 429)%Z with false by (symmetry; apply Z.eqb_neq; lia).
  replace (500 <=? status r)%Z with false by (symmetry; apply Z.leb_gt; lia).
  unfold ok.
  rewrite (proj2 (Z.leb_le _ _) H200), (proj2 (Z.leb_le _ _) H299), Hbody.
  reflexivity.
Qed.

(** X2.  When the first [n] requests are answered by 429 or 5xx without a
    retry-after header, [n] retries are allowed and the next request is
    answered by a 2xx response with a JSON body, [chatCompletion] returns
    that body: it has sent [n + 1] requests with the same body, waited the
    backoff delay after each of the first [n], and changed no message. *)
Theorem chatCompletion_recovers (request : ChatCompletionRequest)
    (options : option Options) (w : World) (n : nat)
    (r : Response) (e : option string) (result : ChatCompletionResponse) :
  let sent := serialize model (heap w) request
                (default true (options ≫= useStructuredOutput)) in
  (∀ k, (k < n)%nat → Spec.overloaded (provider (fetched w + k) sent)) →
  provider (fetched w + n) sent = Responded r →
  ok r = true →
  body r = BodyJson e result →
  (Z.of_nat n ≤ default 3%Z (options ≫= maxRetries))%Z →
  chatCompletion model provider request options w =
    (Fulfilled result, advance w (n + 1) (schedule 0 n sent ++ [Fetch sent])).
Proof.
  intros sent Hbusy Hr Hok Hbody Hn.
  unfold chatCompletion, bind, read_heap. fold sent.
  set (maxR := default 3%Z (options ≫= maxRetries)) in *.
  replace (Z.to_nat (maxR + 1)) with (n + S (Z.to_nat maxR - n))%nat by lia.
  rewrite AiServiceFacts.attempts_overloaded by (done || lia).
  cbn [attempts].
  erewrite attempt_body_ok; [|exact Hr|done|done].
  unfold advance. simpl. f_equal. f_equal; [lia|]. by rewrite <- app_assoc.
Qed.

(** A rate-limited iteration waits and goes round the loop, whatever the
    number of the attempt. *)
Lemma attempt_body_rate_limited (maxRetries attempt : Z) (sent : RequestBody)
    (w : World) (r : Response) :
  provider (fetched w) sent = Responded r →
  status r = 429%Z →
  ∃ ms, attempt_body provider maxRetries attempt sent w =
          (Fulfilled Continue, advance w 1 [Fetch sent; Sleep ms]).
Proof.
  intros Hr H429. unfold attempt_body, bind, fetch, advance.
  rewrite Hr, Nat.add_1_r, H429. simpl.
  unfold sleep, emit, ret. simpl. rewrite <- app_assoc. simpl. eauto.
Qed.

Lemma attempts_rate_limited (remaining : nat) (maxRetries attempt : Z)
    (lastError : option string) (sent : RequestBody) (w : World) :
  (∀ k, ∃ r, provider k sent = Responded r ∧ status r = 429%Z) →
  ∃ delays,
    length delays = remaining ∧
    attempts provider remaining maxRetries attempt lastError sent w =
      (Rejected (default "Request failed after all retries" lastError),
       advance w remaining (flat_map (λ ms, [Fetch sent; Sleep ms]) delays)).
Proof.
  intros Hbusy. revert attempt w.
  induction remaining as [|remaining IH]; intros attempt w.
  - exists []. split; [done|]. simpl. unfold throw, advance.
    rewrite Nat.add_0_r, app_nil_r. by destruct w.
  - cbn [attempts]. destruct (Hbusy (fetched w)) as (r & Hr & H429).
    destruct (attempt_body_rate_limited maxRetries attempt sent w r Hr H429)
      as (ms & ->).
    destruct (IH (attempt + 1)%Z (advance w 1 [Fetch sent; Sleep ms]))
      as (delays & Hlen & ->).
    exists (ms :: delays). split; [simpl; lia|].
    unfold advance. simpl. f_equal. f_equal; [lia|].
    by rewrite <- app_assoc.
Qed.

(** X3.  When every request is answered by 429, [chatCompletion] sends
    [maxRetries + 1] requests and waits after each of them, after the last
    one too; it then rejects with "Request failed after all retries", a
    message that does not name the status. *)
Theorem rate_limit_exhausts_the_retries (request : ChatCompletionRequest)
    (options : option Options) (w : World) :
  let n := Z.to_nat (default 3%Z (options ≫= maxRetries) + 1) in
  let sent := serialize model (heap w) request
                (default true (options ≫= useStructuredOutput)) in
  (∀ k, ∃ r, provider k sent = Responded r ∧ status r = 429%Z) →
  ∃ delays,
    length delays = n ∧
    chatCompletion model provider request options w =
      (Rejected "Request failed after all retries",
       advance w n (flat_map (λ ms, [Fetch sent; Sleep ms]) delays)).
Proof.
  intros n sent Hbusy. unfold chatCompletion, bind, read_heap.
  apply (attempts_rate_limited n _ 0 None sent w Hbusy).
Qed.

(** A 5xx response on the last attempt is raised, caught by the loop and
    raised again after it. *)
Lemma attempt_body_server_error (maxRetries attempt : Z) (sent : RequestBody)
    (w : World) (r : Response) :
  provider (fetched w) sent = Responded r →
  (500 ≤ status r)%Z →
  attempt_body provider maxRetries attempt sent w =
    if (attempt <? maxRetries)%Z
    then (Fulfilled Continue, advance w 1 (schedule attempt 1 sent))
    else (Rejected (http_error r), advance w 1 [Fetch sent]).
Proof.
  intros Hr H500. unfold attempt_body, bind, fetch, advance.
  rewrite Hr, Nat.add_1_r.
  replace (status r =? 429)%Z with false by (symmetry; apply Z.eqb_neq; lia).
  rewrite (proj2 (Z.leb_le _ _) H500). simpl.
  destruct (attempt <? maxRetries)%Z; simpl.
  - unfold sleep, emit, ret. simpl. by rewrite <- app_assoc.
  - unfold ok. replace (status r <=? 299)%Z with false by (symmetry; apply Z.leb_gt; lia).
    rewrite andb_false_r. simpl. unfold http_error. by destruct (body r).
Qed.

Lemma attempts_server_error (remaining : nat) (maxRetries attempt : Z)
    (lastError : option string) (sent : RequestBody) (w : World) (r : Response) :
  (∀ k, provider k sent = Responded r) →
  (500 ≤ status r)%Z →
  (attempt + Z.of_nat remaining = maxRetries)%Z →
  attempts provider (S remaining) maxRetries attempt lastError sent w =
    (Rejected (http_error r),
     advance w (S remaining) (schedule attempt remaining sent ++ [Fetch sent])).
Proof.
  intros Hr H500. revert attempt lastError w.
  induction remaining as [|remaining IH]; intros attempt lastError w Hsum.
  - cbn [attempts]. rewrite (attempt_body_server_error _ _ _ _ r) by done.
    replace (attempt <? maxRetries)%Z with false by (symmetry; apply Z.ltb_ge; lia).
    unfold bind, ret. simpl. reflexivity.
  - change (attempts provider (S (S remaining)) maxRetries attempt lastError sent w)
      with (match attempt_body provider maxRetries attempt sent w with
            | (Fulfilled (Return result), w') => (Fulfilled result, w')
            | (Fulfilled Continue, w') =>
                attempts provider (S remaining) maxRetries (attempt + 1) lastError sent w'
            | (Rejected error, w') =>
                (wait (if (attempt <? maxRetries)%Z
                       then sleep (Js.Num (backoff attempt))
                       else ret tt)
                 then attempts provider (S remaining) maxRetries (attempt + 1)
                        (Some error) sent) w'
            end).
    rewrite (attempt_body_server_error _ _ _ _ r) by done.
    replace (attempt <? maxRetries)%Z with true by (symmetry; apply Z.ltb_lt; lia).
    rewrite IH by lia.
    unfold advance. simpl. f_equal. f_equal; [lia|]. by rewrite <- app_assoc.
Qed.

(** X4.  When every request is answered by the same 5xx response,
    [chatCompletion] sends [maxRetries + 1] requests, waits the backoff
    delay between two of them (not after the last) and rejects with the
    HTTP message of the response. *)
Theorem server_error_exhausts_the_retries (request : ChatCompletionRequest)
    (options : option Options) (w : World) (r : Response) :
  let maxR := default 3%Z (options ≫= maxRetries) in
  let sent := serialize model (heap w) request
                (default true (options ≫= useStructuredOutput)) in
  (∀ k, provider k sent = Responded r) →
  (500 ≤ status r)%Z →
  (0 ≤ maxR)%Z →
  chatCompletion model provider request options w =
    (Rejected (http_error r),
     advance w (Z.to_nat maxR + 1)
       (schedule 0 (Z.to_nat maxR) sent ++ [Fetch sent])).
Proof.
  intros maxR sent Hr H500 Hretries. unfold chatCompletion, bind, read_heap.
  fold maxR sent.
  replace (Z.to_nat (maxR + 1)) with (S (Z.to_nat maxR)) by lia.
  rewrite (attempts_server_error _ _ _ _ _ _ r) by (done || lia).
  by rewrite Nat.add_1_r.
Qed.


(** All requests of one call carry the body serialized before the loop. *)
Lemma attempts_same_body (remaining : nat) (maxRetries attempt : Z)
    (lastError : option string) (sent : RequestBody) (w : World) :
  ∃ es,
    effects (attempts provider remaining maxRetries attempt lastError sent w).2
      = effects w ++ es ∧
    Forall (λ b, b = sent) (fetches es).
Proof.
  revert attempt lastError w.
  induction remaining as [|remaining IH]; intros attempt lastError w; simpl.
  { exists []. by rewrite app_nil_r. }
  assert (∃ es, effects (attempt_body provider maxRetries attempt sent w).2
                  = effects w ++ es ∧ Forall (λ b, b = sent) (fetches es))
    as (es & He & Hes).
  { unfold attempt_body, bind, fetch, sleep, emit, ret, throw.
    destruct (provider (fetched w) sent) as [reason|r]; simpl.
    { exists [Fetch sent]. split; [done|]. by repeat constructor. }
    repeat case_match; simpl; rewrite <- ?app_assoc; simpl;
      eexists; (split; [reflexivity|]); by repeat constructor. }
  destruct (attempt_body provider maxRetries attempt sent w) as [[[|result]|error] w1];
    simpl in *.
  - destruct (IH (attempt + 1)%Z lastError w1) as (es' & -> & Hes').
    exists (es ++ es'). rewrite He, <- app_assoc. split; [done|].
    unfold fetches in *. rewrite omap_app. by apply Forall_app.
  - eauto.
  - unfold bind. destruct (attempt <? maxRetries)%Z; simpl.
    + match goal with
      | |- context [attempts provider remaining maxRetries ?a ?e sent ?w2] =>
          destruct (IH a e w2) as (es' & -> & Hes')
      end. simpl.
      exists (es ++ Sleep (Js.Num (backoff attempt)) :: es').
      rewrite He, <- !app_assoc. split; [done|].
      unfold fetches in *. rewrite omap_app. by apply Forall_app.
    + destruct (IH (attempt + 1)%Z (Some error) w1) as (es' & -> & Hes').
      exists (es ++ es'). rewrite He, <- app_assoc. split; [done|].
      unfold fetches in *. rewrite omap_app. by apply Forall_app.
Qed.

Lemma chatCompletion_same_body (request : ChatCompletionRequest)
    (options : option Options) (w : World) :
  ∃ es,
    effects (chatCompletion model provider request options w).2 = effects w ++ es ∧
    Forall (λ b, b = serialize model (heap w) request
                       (default true (options ≫= useStructuredOutput)))
           (fetches es).
Proof. unfold chatCompletion, bind, read_heap. apply attempts_same_body. Qed.

(** The instruction is only ever written to the last message, and only
    when its role is [user]. *)
Lemma add_json_instruction_frame (request : ChatCompletionRequest) (w : World) :
  let w' := (add_json_instruction request w).2 in
  fetched w' = fetched w ∧ effects w' = effects w ∧
  (heap w' = heap w ∨
   ∃ l m, last (messages request) = Some l ∧ heap w !! l = Some m ∧ role m = user ∧
          heap w' = <[l := {| role := user; content := content m +:+ json_instruction |}]>
                      (heap w)).
Proof.
  unfold add_json_instruction.
  destruct (last (messages request)) as [l0|] eqn:Hlast; [|by split_and!; [..|left]].
  unfold bind, read_heap.
  destruct (heap w !! l0) as [m|] eqn:Hm; [|by split_and!; [..|left]].
  destruct (role m) eqn:Hrole; simpl; split_and!; try done; try (by left).
  right. exists l0, m. by rewrite Hrole.
Qed.

(** X6.  [chatCompletionWithFallback] sends at most eight requests.  It
    changes no message object other than the last one of the request, and
    none at all unless the structured attempt was rejected with a message
    that names "response_format", "json_schema" or "not supported": any
    other outcome of the structured attempt is passed on as it is. *)
Theorem fallback_budget_and_footprint (request : ChatCompletionRequest) (w : World) :
  let first := chatCompletion model provider request
                 (Some {| maxRetries := None; useStructuredOutput := Some true |}) w in
  let out := chatCompletionWithFallback model provider request w in
  (fetched out.2 ≤ fetched w + 8)%nat ∧
  (∀ l, last (messages request) ≠ Some l → heap out.2 !! l = heap w !! l) ∧
  ((∀ message, first.1 = Rejected message → schema_rejected message = false) →
   out = first ∧ heap out.2 = heap w).
Proof.
  intros first out.
  destruct (chatCompletion_bounds request
              (Some {| maxRetries := None; useStructuredOutput := Some true |}) w)
    as (Hbudget & Hheap).
  fold first in Hbudget, Hheap. simpl in Hbudget.
  subst out. unfold chatCompletionWithFallback, try_catch. fold first.
  destruct first as [[result|message] w1] eqn:Hfirst; simpl in *.
  { split_and!; [lia|by rewrite Hheap|by rewrite Hheap]. }
  destruct (schema_rejected message) eqn:Hschema.
  - split_and!.
    + unfold bind.
      destruct (add_json_instruction_frame request w1) as (Hf & _ & _).
      destruct (add_json_instruction request w1) as [[[]|e] w2]; simpl in *; [|lia].
      match goal with
      | |- context [chatCompletion model provider ?req ?opts w2] =>
          destruct (chatCompletion_bounds req opts w2) as (Hb2 & _)
      end.
      simpl in Hb2. lia.
    + intros l Hl. unfold bind.
      assert (heap (add_json_instruction request w1).2 !! l = heap w1 !! l) as Hh.
      { destruct (add_json_instruction_frame request w1)
          as (_ & _ & [->|(l0 & m & Hlast & _ & _ & ->)]); [done|].
        apply lookup_insert_ne. congruence. }
      destruct (add_json_instruction request w1) as [[[]|e] w2]; simpl in *;
        [|by rewrite Hh, Hheap].
      match goal with
      | |- context [chatCompletion model provider ?req ?opts w2] =>
          destruct (chatCompletion_bounds req opts w2) as (_ & Hh2)
      end.
      by rewrite Hh2, Hh, Hheap.
    + intros Hno. by rewrite (Hno message eq_refl) in Hschema.
  - unfold throw. simpl. split_and!; [lia|by rewrite Hheap|by rewrite Hheap].
Qed.

(** With the default options a call starts with a request, and all its
    requests carry the same body. *)
Lemma chatCompletion_requests (request : ChatCompletionRequest)
    (structured : bool) (w : World) :
  let sent := serialize model (heap w) request structured in
  ∃ es,
    effects (chatCompletion model provider request
               (Some {| maxRetries := None; useStructuredOutput := Some structured |})
               w).2 = effects w ++ Fetch sent :: es ∧
    Forall (λ b, b = sent) (fetches es).
Proof.
  intros sent.
  destruct (chatCompletion_same_body request
              (Some {| maxRetries := None; useStructuredOutput := Some structured |}) w)
    as (es0 & He0 & Hes0).
  revert He0. unfold chatCompletion, bind, read_heap.
  change (default true _) with structured.
  change (default 3%Z _) with 3%Z.
  change (Z.to_nat (3 + 1)) with 4%nat. fold sent.
  destruct (AiServiceFacts.attempts_fetch_first provider 3 3 0 None sent w)
    as (es & He).
  rewrite He. intros Heq.
  apply app_inv_head in Heq. subst es0. exists es. split; [done|].
  simpl in Hes0. by inversion Hes0.
Qed.

(** X7.  When the structured attempt is rejected with a message that names
    "response_format", "json_schema" or "not supported", the fallback
    sends the request again.  Every request of the structured attempt
    carried the response format and the messages as the caller wrote them;
    every request of the second attempt carries no response format, and
    the messages as they are after the JSON instruction was appended to
    the last one if its role is [user] (and to none otherwise). *)
Theorem fallback_resends_without_schema (request : ChatCompletionRequest)
    (w w1 : World) (l : loc) (m : ChatMessage) (message : string) :
  let structured := serialize model (heap w) request true in
  let h' :=
    match role m with
    | user => <[l := {| role := user; content := content m +:+ json_instruction |}]>
                (heap w)
    | _ => heap w
    end in
  let plain := serialize model h' request false in
  chatCompletion model provider request
    (Some {| maxRetries := None; useStructuredOutput := Some true |}) w =
    (Rejected message, w1) →
  schema_rejected message = true →
  last (messages request) = Some l →
  heap w !! l = Some m →
  ∃ es1 es2,
    effects w1 = effects w ++ Fetch structured :: es1 ∧
    Forall (λ b, b = structured) (fetches es1) ∧
    effects (chatCompletionWithFallback model provider request w).2 =
      effects w1 ++ Fetch plain :: es2 ∧
    Forall (λ b, b = plain) (fetches es2) ∧
    body_response_format plain = None ∧
    heap (chatCompletionWithFallback model provider request w).2 = h'.
Proof.
  intros structured h' plain Hfirst Hschema Hlast Hm.
  destruct (chatCompletion_requests request true w) as (es1 & He1 & Hes1).
  destruct (chatCompletion_bounds request
              (Some {| maxRetries := None; useStructuredOutput := Some true |}) w)
    as (_ & Hheap1).
  rewrite Hfirst in He1, Hheap1. simpl in He1, Hheap1.
  exists es1.
  assert (add_json_instruction request w1 =
          (Fulfilled tt, {| heap := h'; fetched := fetched w1; effects := effects w1 |}))
    as Hadd.
  { unfold add_json_instruction. rewrite Hlast. unfold bind, read_heap.
    rewrite Hheap1, Hm. subst h'.
    destruct m as [[] c]; simpl; unfold ret; by rewrite <- Hheap1; destruct w1. }
  assert (chatCompletionWithFallback model provider request w =
          chatCompletion model provider
            {| messages := messages request; temperature := temperature request;
               max_tokens := max_tokens request; response_format := None |}
            (Some {| maxRetries := None; useStructuredOutput := Some false |})
            {| heap := h'; fetched := fetched w1; effects := effects w1 |}) as ->.
  { unfold chatCompletionWithFallback, try_catch. rewrite Hfirst, Hschema.
    unfold bind at 1. by rewrite Hadd. }
  match goal with
  | |- context [chatCompletion model provider ?req ?opts ?w2] =>
      destruct (chatCompletion_requests req false w2) as (es2 & He2 & Hes2);
      destruct (chatCompletion_bounds req opts w2) as (_ & Hheap2)
  end.
  exists es2. simpl in He2, Hes2, Hheap2. split_and!.
  all: first [done | exact He2 | exact Hes2].
Qed.

(** X8.  A request without messages has no last message: when its
    structured attempt is rejected for the schema, the fallback fails with
    a [TypeError] and sends nothing more. *)
Theorem fallback_without_messages (request : ChatCompletionRequest)
    (w w1 : World) (message : string) :
  chatCompletion model provider request
    (Some {| maxRetries := None; useStructuredOutput := Some true |}) w =
    (Rejected message, w1) →
  schema_rejected message = true →
  messages request = [] →
  chatCompletionWithFallback model provider request w = (Rejected Js.TypeError, w1).
Proof.
  intros Hfirst Hschema Hnone.
  unfold chatCompletionWithFallback, try_catch. rewrite Hfirst, Hschema.
  unfold bind, add_json_instruction. by rewrite Hnone.
Qed.

End Client.

Lemma chatCompletion_recovers_witness :
  chatCompletion "gpt-4.1-mini"
    (Cases.flaky 2 (Scenarios.reply Scenarios.biology_json)) Scenarios.ask None
    (empty_world Scenarios.asked) =
  (Fulfilled {| choices := [{| message_content := Scenarios.biology_json;
                               message_role := "assistant";
                               finish_reason := "stop" |}];
                response_model := None |},
   advance (empty_world Scenarios.asked) (2 + 1)
     (schedule 0 2 Scenarios.sent_ask ++ [Fetch Scenarios.sent_ask])).
Proof.
  apply (chatCompletion_recovers "gpt-4.1-mini"
           (Cases.flaky 2 (Scenarios.reply Scenarios.biology_json)) Scenarios.ask None
           (empty_world Scenarios.asked) 2 (Scenarios.reply Scenarios.biology_json) None).
  - intros k Hk. eexists. split.
    + simpl. unfold Cases.flaky. rewrite (proj2 (Nat.ltb_lt k 2) Hk). reflexivity.
    + split; [by left|reflexivity].
  - reflexivity.
  - reflexivity.
  - reflexivity.
  - simpl. lia.
Defined.

Lemma rate_limit_witness :
  ∃ delays,
    length delays = 4%nat ∧
    chatCompletion "gpt-4.1-mini" Scenarios.busy Scenarios.ask None
      (empty_world Scenarios.asked) =
    (Rejected "Request failed after all retries",
     advance (empty_world Scenarios.asked) 4
       (flat_map (λ ms, [Fetch Scenarios.sent_ask; Sleep ms]) delays)).
Proof.
  apply (rate_limit_exhausts_the_retries "gpt-4.1-mini" Scenarios.busy Scenarios.ask
           None (empty_world Scenarios.asked)).
  intros k. eexists. split; reflexivity.
Defined.

Lemma server_error_witness :
  chatCompletion "gpt-4.1-mini" Cases.down Scenarios.ask None
    (empty_world Scenarios.asked) =
  (Rejected (http_error Cases.unavailable),
   advance (empty_world Scenarios.asked) (3 + 1)
     (schedule 0 3 Scenarios.sent_ask ++ [Fetch Scenarios.sent_ask])).
Proof.
  apply (server_error_exhausts_the_retries "gpt-4.1-mini" Cases.down Scenarios.ask
           None (empty_world Scenarios.asked) Cases.unavailable).
  - reflexivity.
  - simpl. lia.
  - simpl. lia.
Defined.


Lemma fallback_resends_witness :
  let provider := Scenarios.unstructured (Scenarios.reply Scenarios.biology_json) in
  let structured := serialize "gpt-4.1-mini" Scenarios.asked Scenarios.structured_ask true in
  let h' :=
    <[1%positive := {| role := user; content := "Suggest tags." +:+ json_instruction |}]>
      Scenarios.asked in
  let plain := serialize "gpt-4.1-mini" h' Scenarios.structured_ask false in
  let w1 := (chatCompletion "gpt-4.1-mini" provider Scenarios.structured_ask
               (Some {| maxRetries := None; useStructuredOutput := Some true |})
               (empty_world Scenarios.asked)).2 in
  let out := chatCompletionWithFallback "gpt-4.1-mini" provider Scenarios.structured_ask
               (empty_world Scenarios.asked) in
  ∃ es1 es2,
    effects w1 = [] ++ Fetch structured :: es1 ∧
    Forall (λ b, b = structured) (fetches es1) ∧
    effects out.2 = effects w1 ++ Fetch plain :: es2 ∧
    Forall (λ b, b = plain) (fetches es2) ∧
    body_response_format plain = None ∧
    heap out.2 = h'.
Proof.
  apply (fallback_resends_without_schema "gpt-4.1-mini"
           (Scenarios.unstructured (Scenarios.reply Scenarios.biology_json))
           Scenarios.structured_ask (empty_world Scenarios.asked) _ 1%positive
           {| role := user; content := "Suggest tags." |}
           "HTTP 400: Bad Request - response_format is not supported").
  - vm_compute. reflexivity.
  - vm_compute. reflexivity.
  - reflexivity.
  - reflexivity.
Defined.

Lemma fallback_without_messages_witness :
  ∃ w1,
    chatCompletionWithFallback "gpt-4.1-mini"
      (Scenarios.unstructured (Scenarios.reply Scenarios.biology_json))
      Cases.mute (empty_world ∅) = (Rejected Js.TypeError, w1) ∧
    fetched w1 = 4%nat.
Proof.
  eexists. split.
  - apply (fallback_without_messages "gpt-4.1-mini"
             (Scenarios.unstructured (Scenarios.reply Scenarios.biology_json))
             Cases.mute (empty_world ∅) _
             "HTTP 400: Bad Request - response_format is not supported").
    + vm_compute. reflexivity.
    + vm_compute. reflexivity.
    + reflexivity.
  - reflexivity.
Defined.

End ClientFacts.

(** ** Endpoint and connection test *)

Module ConnectionFacts.

Import AiService Traces Connection.

Lemma endsWith_refl (s : string) : endsWith s s = true.
Proof. destruct s; cbn [endsWith]; by rewrite String.eqb_refl. Qed.

Lemma endsWith_append (s t : string) : endsWith (s +:+ t) t = true.
Proof.
  induction s as [|c s IH]; simpl.
  - apply endsWith_refl.
  - rewrite IH. apply orb_true_r.
Qed.

Lemma strip_slashes_slash (s : string) : strip_slashes (s +:+ "/") = strip_slashes s.
Proof. induction s as [|c s IH]; simpl; [done|]. by rewrite IH. Qed.

(** What [strip_slashes] returns does not end with a slash. *)
Lemma strip_slashes_stripped (s : string) : endsWith (strip_slashes s) "/" = false.
Proof.
  induction s as [|c s IH]; simpl; [done|].
  destruct (strip_slashes s) as [|c' kept] eqn:Hs.
  - destruct (Ascii.eqb c "/") eqn:Hc; simpl; [done|].
    rewrite orb_false_r. by rewrite Hc.
  - change (endsWith (String c (String c' kept)) "/")
      with (String.eqb (String c (String c' kept)) "/" || endsWith (String c' kept) "/").
    rewrite IH, orb_false_r.
    simpl. destruct (Ascii.eqb c "/"); done.
Qed.

(** A string that does not end with a slash is left as it is. *)
Lemma strip_slashes_fixed (s : string) :
  endsWith s "/" = false → strip_slashes s = s.
Proof.
  induction s as [|c s IH]; simpl; [done|].
  intros H. apply orb_false_iff in H as [Hc Hs].
  rewrite (IH Hs). destruct s as [|c' s']; [|done].
  simpl in Hc. by destruct (Ascii.eqb c "/").
Qed.

Lemma endsWith_slash_append (s t : string) :
  t ≠ "" → endsWith (s +:+ t) "/" = endsWith t "/".
Proof.
  intros Ht. induction s as [|c s IH]; simpl; [done|].
  rewrite IH. destruct (s +:+ t) as [|c' r] eqn:Hst.
  - destruct s; simpl in Hst; [done|discriminate].
  - by destruct (Ascii.eqb c "/").
Qed.

(** X9.  The endpoint that [buildURL] returns ends with
    "/chat/completions" and not with a slash; slashes at the end of the
    configured base URL do not matter, and an endpoint given as the base
    URL is returned as it is. *)
Theorem buildURL_endpoint (baseURL : string) :
  endsWith (buildURL baseURL) "/chat/completions" = true ∧
  endsWith (buildURL baseURL) "/" = false ∧
  buildURL (baseURL +:+ "/") = buildURL baseURL ∧
  buildURL (buildURL baseURL) = buildURL baseURL.
Proof.
  assert (endsWith (buildURL baseURL) "/chat/completions" = true) as Hend.
  { unfold buildURL.
    destruct (endsWith (strip_slashes baseURL) "/chat/completions") eqn:H; [done|].
    apply endsWith_append. }
  assert (endsWith (buildURL baseURL) "/" = false) as Hslash.
  { unfold buildURL.
    destruct (endsWith (strip_slashes baseURL) "/chat/completions") eqn:H.
    - apply strip_slashes_stripped.
    - by rewrite endsWith_slash_append. }
  split_and!; [done|done|..].
  - unfold buildURL. by rewrite strip_slashes_slash.
  - unfold buildURL at 1. rewrite (strip_slashes_fixed _ Hslash). by rewrite Hend.
Qed.

Section Client.

Variable model : string.
Variable provider : nat → RequestBody → FetchOutcome.

(** X10.  [testConnection] sends exactly one request, with the single
    message "Hello" and [max_tokens] 5, and never waits or retries: a
    response that is not 2xx, 429 and 5xx included, is raised at once with
    its HTTP message; a 2xx response with a JSON body gives the model name
    that the provider reports, or the configured one when it reports none
    or an empty one. *)
Theorem testConnection_single_request (w : World) :
  let out := testConnection model provider w in
  out.2 = advance w 1 [Fetch (hello model)] ∧
  (∀ reason, provider (fetched w) (hello model) = NetworkError reason →
             out.1 = Rejected reason) ∧
  (∀ r, provider (fetched w) (hello model) = Responded r → ok r = false →
        out.1 = Rejected (http_error r)) ∧
  (∀ r e result,
     provider (fetched w) (hello model) = Responded r → ok r = true →
     body r = BodyJson e result →
     out.1 = Fulfilled (match response_model result with
                        | Some name => if String.eqb name "" then model else name
                        | None => model
                        end)).
Proof.
  intros out. subst out. unfold testConnection, bind, fetch, advance.
  rewrite Nat.add_1_r.
  destruct (provider (fetched w) (hello model)) as [reason|r]; simpl.
  { split_and!; [done|by intros ? [= <-]|done|done]. }
  split_and!.
  - by repeat case_match.
  - done.
  - intros ? [= <-] ->. done.
  - intros ? e result [= <-] -> ->. simpl. unfold ret. simpl. f_equal.
    destruct (response_model result) as [[|c name]|]; done.
Qed.

End Client.

End ConnectionFacts.

(** ** The engine: records, requests and isolation *)

Module EngineFacts.

Import AiService TagEngine JsFacts.

Section Client.

Variable model : string.
Variable provider : nat → RequestBody → FetchOutcome.

(** What the fallback may put on the wire: the request as it is, or the
    request without its response format, with the messages as they are or
    with the instruction appended to the last one. *)
Lemma fallback_requests (request : ChatCompletionRequest) (w : World) :
  let out := chatCompletionWithFallback model provider request w in
  (fetched out.2 ≤ fetched w + 8)%nat ∧
  ∃ es h',
    effects out.2 = effects w ++ es ∧
    heap out.2 = h' ∧
    (h' = heap w ∨
     ∃ l m, last (messages request) = Some l ∧ heap w !! l = Some m ∧ role m = user ∧
            h' = <[l := {| role := user; content := content m +:+ json_instruction |}]>
                   (heap w)) ∧
    Forall (λ b, b = serialize model (heap w) request true ∨
                 b = serialize model h' request false)
           (fetches es).
Proof.
  intros out. subst out.
  destruct (ClientFacts.chatCompletion_same_body model provider request
              (Some {| maxRetries := None; useStructuredOutput := Some true |}) w)
    as (es1 & He1 & Hes1).
  destruct (ClientFacts.chatCompletion_bounds model provider request
              (Some {| maxRetries := None; useStructuredOutput := Some true |}) w)
    as (Hb1 & Hheap1).
  assert (Forall (λ b, b = serialize model (heap w) request true ∨
                       b = serialize model (heap w) request false) (fetches es1))
    as Hes1' by (eapply Forall_impl; [exact Hes1|]; by left).
  unfold chatCompletionWithFallback, try_catch.
  destruct (chatCompletion model provider request _ w) as [[result|message] w1];
    simpl in *.
  { split; [lia|]. exists es1, (heap w). split_and!; [done|done|by left|done]. }
  destruct (schema_rejected message);
    [|split; [unfold throw; simpl; lia|];
      exists es1, (heap w); split_and!; [done|done|by left|done]].
  unfold bind.
  destruct (ClientFacts.add_json_instruction_frame request w1) as (Hf & He & Hh).
  rewrite Hheap1 in Hh.
  destruct (add_json_instruction request w1) as [[[]|e] w2]; simpl in *.
  - match goal with
    | |- context [chatCompletion model provider ?req ?opts w2] =>
        destruct (ClientFacts.chatCompletion_same_body model provider req opts w2)
          as (es2 & He2 & Hes2);
        destruct (ClientFacts.chatCompletion_bounds model provider req opts w2)
          as (Hb2 & Hheap2)
    end.
    simpl in Hb2. split; [lia|].
    exists (es1 ++ es2), (heap w2). rewrite He2, He, He1, <- app_assoc.
    split_and!; [done|done|exact Hh|].
    unfold fetches in *. rewrite omap_app. apply Forall_app. split.
    + eapply Forall_impl; [exact Hes1|]. by left.
    + eapply Forall_impl; [exact Hes2|]. intros b ->. by right.
  - split; [lia|]. exists es1, (heap w2). rewrite He, He1.
    split_and!; [done|done|exact Hh|].
    eapply Forall_impl; [exact Hes1|]. by left.
Qed.

End Client.

Section Engine.

Variable prefs : Preferences.Prefs.
Variable store : Zotero.Store.
Variable Tags_getAll : Z → settled (list string).
Variable extractFullText : Zotero.Item → option Zotero.Item → Z → settled string.
Variable JSON_parse : string → settled Parsed.
Variable provider : nat → RequestBody → FetchOutcome.

(** The item that receives the tags: the item itself, or the parent of
    the attachment. *)
Lemma resolve_target (item target : Zotero.Item) (source : option Zotero.Item)
    (title : string) :
  resolve store item title = inl (Fulfilled (target, source)) →
  (Zotero.isAttachment item = false ∧ target = item ∧ source = None) ∨
  (Zotero.isAttachment item = true ∧ source = Some item ∧
   ∃ parentID, Zotero.parentID item = Some parentID ∧ parentID ≠ 0%Z ∧
               Zotero.items store !! parentID = Some target).
Proof.
  unfold resolve. destruct (Zotero.isAttachment item); [|intros [= <- <-]; by left].
  destruct (Zotero.parentID item) as [parentID|]; [|done].
  destruct (parentID =? 0)%Z eqn:Hzero; [done|].
  destruct (Zotero.items store !! parentID) as [parent|] eqn:Hparent; [|done].
  intros [= <- <-]. right. split_and!; [done..|].
  exists parentID. split_and!; [done| |done]. by apply Z.eqb_neq.
Qed.

(** The record of a call: a failure, or the filtered tags of a parsed
    completion for a regular target. *)
Lemma suggestTags_cases (item : Zotero.Item) (w w' : World) (r : TagResult) :
  let title := Js.or_string (Some (Zotero.getField item "title")) "(untitled)" in
  suggestTags prefs store Tags_getAll extractFullText JSON_parse provider item w
    = (r, w') →
  (∃ itemID message, r = failed itemID title message) ∨
  (∃ target source parsed,
     resolve store item title = inl (Fulfilled (target, source)) ∧
     Zotero.isRegularItem target = true ∧
     r = {| itemID := Zotero.id target;
            title := Js.or_string (Some (Zotero.getField target "title")) "(untitled)";
            suggestedTags :=
              post_filter (default [] (parsed_tags parsed)) (Zotero.tags target);
            appliedTags := [];
            reasoning := parsed_reasoning parsed;
            error := None |}).
Proof.
  intros title. unfold suggestTags. fold title. unfold suggest.
  destruct (resolve store item title) as [[[target source]|e]|early] eqn:Hresolve.
  - unfold bind at 1. unfold lift at 1.
    destruct (Zotero.isRegularItem target) eqn:Hregular; simpl;
      [|intros [= <- <-]; left; eauto].
    destruct (_ && _); [intros [= <- <-]; left; eauto|].
    unfold bind at 1.
    match goal with
    | |- context [(if Preferences.includeFullText prefs then ?a else ?b) w] =>
        destruct ((if Preferences.includeFullText prefs then a else b) w)
          as [[fullText|e] w1]; [|intros [= <- <-]; left; eauto]
    end.
    unfold bind at 1. unfold alloc at 1.
    unfold bind at 1. unfold alloc at 1.
    unfold bind at 1.
    match goal with
    | |- context [chatCompletionWithFallback ?m provider ?req ?w2] =>
        destruct (chatCompletionWithFallback m provider req w2)
          as [[result|e] w3]; [|intros [= <- <-]; left; eauto]
    end.
    destruct (choices result) as [|choice rest]; [intros [= <- <-]; left; eauto|].
    unfold bind, lift.
    destruct (JSON_parse (message_content choice)) as [parsed|e];
      [|intros [= <- <-]; left; eauto].
    intros [= <- <-]. right. by exists target, source, parsed.
  - intros [= <- <-]. left. eauto.
  - unfold ret. intros [= <- <-]. left.
    revert Hresolve. unfold resolve. repeat case_match; intros [= <-]; eauto.
Qed.

(** X11.  The record that [suggestTags] returns never carries applied
    tags, and its suggestions hold no tag twice.  A record with an error
    has no suggestion and no reasoning.  A record without an error is for
    a regular item, the item itself or the parent of the attachment, and
    suggests none of the tags this item has. *)
Theorem suggestTags_record (item : Zotero.Item) (w : World) :
  let r := (suggestTags prefs store Tags_getAll extractFullText JSON_parse provider
              item w).1 in
  appliedTags r = [] ∧
  List.NoDup (suggestedTags r) ∧
  (error r ≠ None → suggestedTags r = [] ∧ reasoning r = "") ∧
  (error r = None →
   ∃ target,
     (target = item ∨
      ∃ parentID, Zotero.parentID item = Some parentID ∧
                  Zotero.items store !! parentID = Some target) ∧
     Zotero.isRegularItem target = true ∧
     itemID r = Zotero.id target ∧
     ∀ t, In t (suggestedTags r) → ¬ In t (Zotero.tags target)).
Proof.
  intros r.
  destruct (suggestTags prefs store Tags_getAll extractFullText JSON_parse provider
              item w) as [r0 w'] eqn:Hcall.
  subst r. simpl.
  destruct (suggestTags_cases item w w' r0 Hcall)
    as [(itemID & message & ->)|(target & source & parsed & Hresolve & Hregular & ->)];
    simpl.
  - split_and!; [done|constructor|done|done].
  - split_and!; [done|apply PostFilterFacts.NoDup_post_filter|done|].
    intros _. exists target. split_and!; [|done|done|].
    + apply resolve_target in Hresolve as [(_ & -> & _)|(_ & _ & pid & ? & _ & ?)];
        [by left|right; eauto].
    + intros t Ht. by apply PostFilterFacts.In_post_filter in Ht as [_ ?].
Qed.

(** The world after a call: untouched, or what the completion client
    leaves after it was given two new message objects. *)
Lemma suggestTags_world (item : Zotero.Item) (w w' : World) (r : TagResult) :
  let title := Js.or_string (Some (Zotero.getField item "title")) "(untitled)" in
  suggestTags prefs store Tags_getAll extractFullText JSON_parse provider item w
    = (r, w') →
  w' = w ∨
  ∃ target source fullText,
    resolve store item title = inl (Fulfilled (target, source)) ∧
    Zotero.isRegularItem target = true ∧
    (Preferences.tagSource prefs = "existing" →
     getAvailableTags prefs store Tags_getAll (Zotero.libraryID target) ≠ []) ∧
    let availableTags :=
      getAvailableTags prefs store Tags_getAll (Zotero.libraryID target) in
    let systemMessage := fresh (dom (heap w)) in
    let h1 :=
      <[systemMessage :=
          {| role := system;
             content := Js.or_string (Some (Preferences.systemPrompt prefs))
                          (Preferences.systemPrompt Preferences.defaults) |}]>
        (heap w) in
    let userMessage := fresh (dom h1) in
    let h2 :=
      <[userMessage :=
          {| role := user;
             content := buildPrompt (getItemMetadata target) fullText availableTags
                          (Preferences.tagSource prefs) (Preferences.maxTags prefs) |}]>
        h1 in
    w' = (chatCompletionWithFallback (Preferences.model prefs) provider
            {| messages := [systemMessage; userMessage];
               temperature := Some (Preferences.temperature prefs);
               max_tokens := Some 1000%Z;
               response_format :=
                 Some (buildResponseFormat availableTags (Preferences.tagSource prefs)) |}
            {| heap := h2; fetched := fetched w; effects := effects w |}).2.
Proof.
  intros title. unfold suggestTags. fold title. unfold suggest.
  destruct (resolve store item title) as [[[target source]|e]|early] eqn:Hresolve;
    [|by intros [= <- <-]; left..].
  unfold bind at 1. unfold lift at 1.
  destruct (Zotero.isRegularItem target) eqn:Hregular; simpl;
    [|by intros [= <- <-]; left].
  destruct (_ && _) eqn:Hempty; [by intros [= <- <-]; left|].
  unfold bind at 1.
  match goal with
  | |- context [(if Preferences.includeFullText prefs then ?a else ?b) w] =>
      assert (∃ o, (if Preferences.includeFullText prefs then a else b) w = (o, w))
        as (o & ->)
        by (destruct (Preferences.includeFullText prefs); unfold lift, ret; eauto)
  end.
  destruct o as [fullText|e]; [|by intros [= <- <-]; left].
  unfold bind at 1. unfold alloc at 1.
  unfold bind at 1. unfold alloc at 1.
  unfold bind at 1. cbn [heap fetched effects].
  intros Hcall.
  right. exists target, source, fullText. split_and!; [done|done|..].
  - intros Hmode Hnone. rewrite Hmode, Hnone in Hempty. done.
  - cbv zeta. revert Hcall.
    match goal with
    | |- context [chatCompletionWithFallback ?m provider ?req ?w2] =>
        destruct (chatCompletionWithFallback m provider req w2)
          as [[result|e] w3]; [|by intros [= <- <-]]
    end.
    destruct (choices result) as [|choice rest]; [by intros [= <- <-]|].
    unfold bind, lift.
    by destruct (JSON_parse (message_content choice)) as [parsed|e]; intros [= <- <-].
Qed.

(** X12.  A call of [suggestTags] sends at most eight requests and leaves
    every message object that existed before the call as it was.  It
    sends nothing at all for an attachment without a parent, for a target
    that is not a regular item and, in existing-only mode, for a library
    without available tags. *)
Theorem suggestTags_budget_and_isolation (item : Zotero.Item) (w : World) :
  let title := Js.or_string (Some (Zotero.getField item "title")) "(untitled)" in
  let w' := (suggestTags prefs store Tags_getAll extractFullText JSON_parse provider
               item w).2 in
  (fetched w' ≤ fetched w + 8)%nat ∧
  (∀ l m, heap w !! l = Some m → heap w' !! l = Some m) ∧
  (w' ≠ w →
   ∃ target source,
     resolve store item title = inl (Fulfilled (target, source)) ∧
     Zotero.isRegularItem target = true ∧
     (Preferences.tagSource prefs = "existing" →
      getAvailableTags prefs store Tags_getAll (Zotero.libraryID target) ≠ [])).
Proof.
  intros title w'.
  destruct (suggestTags prefs store Tags_getAll extractFullText JSON_parse provider
              item w) as [r0 w0] eqn:Hcall.
  subst w'. cbn [snd].
  destruct (suggestTags_world item w w0 r0 Hcall)
    as [Hsame|(target & source & fullText & Hresolve & Hregular & Hsome & Hw')].
  { rewrite Hsame. split_and!; [lia|done|done]. }
  cbv zeta in Hw'.
  match type of Hw' with
  | w0 = (chatCompletionWithFallback ?m provider ?req ?w2).2 =>
      destruct (fallback_requests m provider req w2)
        as (Hbudget & es & h' & _ & Hheap & Hh' & _)
  end.
  rewrite <- Hw' in Hbudget, Hheap. cbn [heap fetched effects] in *.
  split_and!; [done| |eauto].
  intros l m Hl. rewrite Hheap.
  set (sys := fresh (dom (heap w))) in *.
  set (h1 := <[sys := _]> (heap w)) in *.
  set (usr := fresh (dom h1)) in *.
  assert (l ≠ sys) as Hsys.
  { intros ->. apply (is_fresh (dom (heap w))). apply elem_of_dom. eauto. }
  assert (l ≠ usr) as Husr.
  { intros ->. apply (is_fresh (dom h1)). apply elem_of_dom.
    unfold h1. rewrite lookup_insert_ne by done. eauto. }
  destruct Hh' as [->|(l0 & m0 & Hlast & _ & _ & ->)].
  - rewrite lookup_insert_ne by done. unfold h1. by rewrite lookup_insert_ne.
  - simpl in Hlast. injection Hlast as <-.
    rewrite !lookup_insert_ne by done. unfold h1. by rewrite lookup_insert_ne.
Qed.


End Engine.

End EngineFacts.

(** ** Vocabulary, applying tags and the single-file script *)

Module TagFacts.

Import AiService TagEngine JsFacts.

(** *** The order of strings *)

Lemma ascii_compare_refl (c : ascii) : Ascii.compare c c = Eq.
Proof. unfold Ascii.compare. apply N.compare_refl. Qed.

Lemma ascii_compare_trans (a b c : ascii) :
  Ascii.compare a b = Lt → Ascii.compare b c = Lt → Ascii.compare a c = Lt.
Proof.
  unfold Ascii.compare. rewrite !N.compare_lt_iff. lia.
Qed.

Lemma leb_trans (s t u : string) :
  String.leb s t = true → String.leb t u = true → String.leb s u = true.
Proof.
  unfold String.leb.
  assert (∀ s t u, String.compare s t ≠ Gt → String.compare t u ≠ Gt →
                   String.compare s u ≠ Gt) as Htrans.
  { clear. induction s as [|a s IH]; intros [|b t] [|c u]; simpl; try congruence.
    intros Hab Hbc.
    destruct (Ascii.compare a b) eqn:Eab; [| |congruence].
    - apply Ascii.compare_eq_iff in Eab as ->.
      destruct (Ascii.compare b c) eqn:Ebc; [by apply (IH t u)|congruence|congruence].
    - destruct (Ascii.compare b c) eqn:Ebc; [| |congruence].
      + apply Ascii.compare_eq_iff in Ebc as <-. rewrite Eab. congruence.
      + rewrite (ascii_compare_trans a b c Eab Ebc). congruence. }
  intros Hst Htu.
  specialize (Htrans s t u).
  destruct (String.compare s t); destruct (String.compare t u);
    destruct (String.compare s u); try done; exfalso; by apply Htrans.
Qed.

Lemma leb_refl (s : string) : String.leb s s = true.
Proof. by destruct (String.leb_total s s). Qed.

Lemma ascending_lookup (l : list string) (i j : nat) (a b : string) :
  Order.ascending l → (i ≤ j)%nat → l !! i = Some a → l !! j = Some b →
  String.leb a b = true.
Proof.
  revert i j. induction l as [|x l IH]; intros i j Hl Hij Ha Hb; [done|].
  destruct Hl as [Hx Hl]. destruct i as [|i], j as [|j]; simpl in *; try lia.
  - injection Ha as <-. injection Hb as <-. apply leb_refl.
  - injection Ha as <-. rewrite Forall_forall in Hx. apply Hx.
    by eapply list_elem_of_lookup_2.
  - apply (IH i j); [done|lia|done|done].
Qed.

Lemma sort_insert_ascending (x : string) (l : list string) :
  Order.ascending l → Order.ascending (Js.sort_insert x l).
Proof.
  induction l as [|y l IH]; simpl; [by split|].
  intros [Hy Hl]. destruct (String.leb x y) eqn:Hxy; simpl.
  - split; [|done]. constructor; [done|].
    eapply Forall_impl; [exact Hy|]. intros z Hz. by apply (leb_trans x y z).
  - split; [|by apply IH].
    apply Forall_forall. intros z Hz. apply list_elem_of_In, In_sort_insert in Hz.
    destruct Hz as [->|Hz].
    + destruct (String.leb_total x y) as [H|H]; [congruence|done].
    + rewrite Forall_forall in Hy. apply Hy. by apply list_elem_of_In.
Qed.

Lemma sort_ascending (l : list string) : Order.ascending (Js.sort l).
Proof.
  induction l as [|x l IH]; simpl; [done|]. by apply sort_insert_ascending.
Qed.

Lemma sort_insert_Permutation (x : string) (l : list string) :
  Js.sort_insert x l ≡ₚ x :: l.
Proof.
  induction l as [|y l IH]; simpl; [done|].
  destruct (String.leb x y); [done|]. rewrite IH. apply Permutation_swap.
Qed.

Lemma sort_Permutation (l : list string) : Js.sort l ≡ₚ l.
Proof.
  induction l as [|x l IH]; simpl; [done|].
  by rewrite sort_insert_Permutation, IH.
Qed.

Section Engine.

Variable prefs : Preferences.Prefs.
Variable store : Zotero.Store.
Variable Tags_getAll : Z → settled (list string).

(** X14.  The available tags are in ascending order.  They are the names
    of the vocabulary that are not empty and do not start with the
    excluded prefix, each as often as the vocabulary has it; when the
    preference for the prefix is empty, the prefix is the underscore. *)
Theorem getAvailableTags_sorted_and_filtered (libraryID : Z) :
  let tags := getAvailableTags prefs store Tags_getAll libraryID in
  let prefixFilter :=
    if String.eqb (Preferences.tagPrefixFilter prefs) "" then "_"
    else Preferences.tagPrefixFilter prefs in
  (∀ i j a b, (i ≤ j)%nat → tags !! i = Some a → tags !! j = Some b →
              String.leb a b = true) ∧
  tags ≡ₚ List.filter (λ name, negb (String.eqb name "") &&
                               negb (String.prefix prefixFilter name))
            (vocabulary store Tags_getAll libraryID) ∧
  (∀ t, In t tags ↔
        In t (vocabulary store Tags_getAll libraryID) ∧ t ≠ "" ∧
        String.prefix prefixFilter t = false).
Proof.
  intros tags prefixFilter.
  assert (Js.or_string (Some (Preferences.tagPrefixFilter prefs)) "_" = prefixFilter)
    as Hprefix.
  { subst prefixFilter. unfold Js.or_string.
    by destruct (Preferences.tagPrefixFilter prefs). }
  assert (∀ name, Js.truthy name = negb (String.eqb name "")) as Htruthy
    by (by intros []).
  split_and!.
  - intros i j a b. apply ascending_lookup, sort_ascending.
  - subst tags. unfold getAvailableTags. rewrite sort_Permutation, Hprefix.
    rewrite filter_filter. erewrite filter_ext; [done|].
    intros name. simpl. by rewrite Htruthy.
  - intros t. subst tags. unfold getAvailableTags.
    rewrite In_sort, !filter_In, Hprefix, Htruthy, negb_true_iff.
    unfold Js.startsWith. rewrite negb_true_iff, String.eqb_neq. tauto.
Qed.

(** *** The vocabulary collected from the items *)

Lemma In_set_add (seen : list string) (x t : string) :
  In t (Js.set_add seen x) ↔ In t seen ∨ t = x.
Proof.
  unfold Js.set_add. destruct (Js.array_includes seen x) eqn:Hx.
  - apply array_includes_In in Hx. intuition congruence.
  - rewrite in_app_iff. simpl. intuition.
Qed.

Lemma NoDup_set_add (seen : list string) (x : string) :
  List.NoDup seen → List.NoDup (Js.set_add seen x).
Proof.
  intros Hseen. unfold Js.set_add.
  destruct (Js.array_includes seen x) eqn:Hx; [done|].
  apply NoDup_ListNoDup, NoDup_app. split_and!.
  - by apply NoDup_ListNoDup.
  - intros y Hy ->%list_elem_of_singleton.
    apply list_elem_of_In, array_includes_In in Hy. congruence.
  - apply NoDup_singleton.
Qed.

(** The tags of one item join the set (lines 339-341). *)
Lemma collect_tags (tags tagSet : list string) :
  let tagSet' :=
    fold_left (λ tagSet tag, if Js.truthy tag then Js.set_add tagSet tag else tagSet)
              tags tagSet in
  (List.NoDup tagSet → List.NoDup tagSet') ∧
  ∀ t, In t tagSet' ↔ In t tagSet ∨ (t ≠ "" ∧ In t tags).
Proof.
  revert tagSet. induction tags as [|tag tags IH]; intros tagSet; simpl.
  { split; [done|]. intuition. }
  destruct (IH (if Js.truthy tag then Js.set_add tagSet tag else tagSet))
    as (Hnodup & Hin).
  split.
  - intros H. apply Hnodup. destruct (Js.truthy tag); [by apply NoDup_set_add|done].
  - intros t. rewrite Hin. destruct tag as [|c tag]; simpl.
    + intuition congruence.
    + rewrite In_set_add. intuition congruence.
Qed.

(** The items of the library join the set one after the other
    (lines 337-343). *)
Lemma collect_items (allItems : list Zotero.Item) (tagSet : list string) :
  let tagSet' :=
    fold_left
      (λ tagSet libItem,
         if Zotero.isRegularItem libItem
         then fold_left
                (λ tagSet tag, if Js.truthy tag then Js.set_add tagSet tag else tagSet)
                (Zotero.tags libItem) tagSet
         else tagSet)
      allItems tagSet in
  (List.NoDup tagSet → List.NoDup tagSet') ∧
  ∀ t, In t tagSet' ↔
       In t tagSet ∨
       (t ≠ "" ∧ ∃ libItem, In libItem allItems ∧
                            Zotero.isRegularItem libItem = true ∧
                            In t (Zotero.tags libItem)).
Proof.
  revert tagSet. induction allItems as [|libItem allItems IH]; intros tagSet; simpl.
  { split; [done|]. intros t. split; [auto|]. intros [H|(_ & ? & [] & _)]. done. }
  match goal with
  | |- context [fold_left _ allItems ?set] =>
      destruct (IH set) as (Hnodup & Hin);
      assert ((List.NoDup tagSet → List.NoDup set) ∧
              ∀ t, In t set ↔
                   In t tagSet ∨
                   (t ≠ "" ∧ Zotero.isRegularItem libItem = true ∧
                    In t (Zotero.tags libItem))) as (Hnodup1 & Hin1)
  end.
  { destruct (Zotero.isRegularItem libItem).
    - destruct (collect_tags (Zotero.tags libItem) tagSet) as (H1 & H2).
      split; [done|]. intros t. rewrite H2. tauto.
    - split; [done|]. intros t. intuition congruence. }
  split; [auto|].
  intros t. rewrite Hin, Hin1. split.
  - intros [[H|(Hne & Hregular & Ht)]|(Hne & it & Hit & Hregular & Ht)];
      [by left|right..].
    + split; [done|]. exists libItem. auto.
    + split; [done|]. exists it. auto.
  - intros [H|(Hne & it & [<-|Hit] & Hregular & Ht)]; [by left; left| |].
    + left. right. auto.
    + right. split; [done|]. exists it. auto.
Qed.

(** X15.  When the host cannot list the tags of a library, the
    vocabulary is collected from the items: it holds each tag once, and a
    tag belongs to it exactly when it is not empty and is a tag of a
    regular item of that library. *)
Theorem vocabulary_collected_from_items (libraryID : Z) (reason : string) :
  Tags_getAll libraryID = Rejected reason →
  List.NoDup (vocabulary store Tags_getAll libraryID) ∧
  ∀ t, In t (vocabulary store Tags_getAll libraryID) ↔
       t ≠ "" ∧
       ∃ key libItem,
         Zotero.items store !! key = Some libItem ∧
         Zotero.libraryID libItem = libraryID ∧
         Zotero.isRegularItem libItem = true ∧
         In t (Zotero.tags libItem).
Proof.
  intros Hfails. unfold vocabulary. rewrite Hfails.
  match goal with
  | |- context [fold_left _ ?allItems []] =>
      destruct (collect_items allItems []) as (Hnodup & Hin)
  end.
  split; [apply Hnodup; constructor|].
  intros t. rewrite Hin. split.
  - intros [[]|(Hne & libItem & Hit & Hregular & Ht)]. split; [done|].
    apply filter_In in Hit as [Hit Hlib].
    apply list_elem_of_In, list_elem_of_fmap in Hit as ([key it] & -> & Hit).
    apply elem_of_map_to_list in Hit.
    exists key, it. split_and!; [done| |done|done]. by apply Z.eqb_eq.
  - intros (Hne & key & libItem & Hkey & Hlib & Hregular & Ht). right.
    split; [done|]. exists libItem. split_and!; [|done|done].
    apply filter_In. split; [|by apply Z.eqb_eq].
    apply list_elem_of_In, list_elem_of_fmap. exists (key, libItem).
    split; [done|]. by apply elem_of_map_to_list.
Qed.

End Engine.

(** *** Applying tags *)

Lemma tags_fold_addTag (tags : list string) (item : Zotero.Item) :
  Zotero.tags (fold_left Zotero.addTag tags item) =
  fold_left Js.set_add tags (Zotero.tags item).
Proof.
  revert item. induction tags as [|tag tags IH]; intros item; simpl; [done|].
  rewrite IH. f_equal. unfold Zotero.addTag, Js.set_add.
  by destruct (Js.array_includes (Zotero.tags item) tag).
Qed.

Lemma tags_after_addTags (tags : list string) (item : Zotero.Item) :
  Zotero.tags (fold_left Zotero.addTag tags item) =
  Zotero.tags item ++ post_filter tags (Zotero.tags item).
Proof.
  rewrite tags_fold_addTag, fold_set_add. unfold post_filter.
  by rewrite set_of_dedup_first.
Qed.

Lemma applyTags_present (s : Zotero.Store) (itemID : Z) (tags : list string)
    (item : Zotero.Item) :
  Zotero.items s !! itemID = Some item →
  let out := applyTags itemID tags s in
  out.1 = Fulfilled tt ∧
  ∃ item',
    Zotero.items out.2 !! itemID = Some item' ∧
    Zotero.tags item' = Zotero.tags item ++ post_filter tags (Zotero.tags item) ∧
    (tags ≠ [] →
     Zotero.persisted out.2 !! Zotero.id item = Some (Zotero.tags item') ∧
     Zotero.saves out.2 = S (Zotero.saves s)).
Proof.
  intros Hitem out. subst out. unfold applyTags. rewrite Hitem.
  destruct tags as [|tag tags]; simpl.
  - split; [done|]. exists item. split_and!; [done| |done].
    unfold post_filter. simpl. by rewrite app_nil_r.
  - split; [done|]. eexists. split_and!; [apply lookup_insert_eq| |].
    + apply (tags_after_addTags (tag :: tags)).
    + intros _. split; [|done].
      change (Zotero.id (fold_left Zotero.addTag (tag :: tags) item))
        with (Zotero.id (fold_left Zotero.addTag tags (Zotero.addTag item tag))).
      pose proof (ApplyFacts.id_fold_addTag (tag :: tags) item) as Hid.
      simpl in Hid. rewrite Hid. apply lookup_insert_eq.
Qed.

(** X16.  [applyTags] keeps the tags of the item in their places and
    appends the tags of the list that the item does not have, each once
    and in the order of the list; the other item objects and the saved
    tags of the other items stay as they are.  For an identifier without
    an item it rejects with a [TypeError] and leaves the store alone, unless
    the list is empty. *)
Theorem applyTags_appends_new_tags (s : Zotero.Store) (itemID : Z)
    (tags : list string) :
  let out := applyTags itemID tags s in
  (∀ item, Zotero.items s !! itemID = Some item →
     out.1 = Fulfilled tt ∧
     (∃ item', Zotero.items out.2 !! itemID = Some item' ∧
               Zotero.tags item' =
                 Zotero.tags item ++ post_filter tags (Zotero.tags item)) ∧
     (∀ other, other ≠ itemID →
               Zotero.items out.2 !! other = Zotero.items s !! other) ∧
     (∀ other, other ≠ Zotero.id item →
               Zotero.persisted out.2 !! other = Zotero.persisted s !! other)) ∧
  (Zotero.items s !! itemID = None → tags ≠ [] →
   out = (Rejected Js.TypeError, s)).
Proof.
  intros out. subst out. unfold applyTags. split.
  - intros item Hitem. rewrite Hitem. destruct tags as [|tag tags]; simpl.
    + split_and!; [done| |done|done]. exists item.
      split; [done|]. unfold post_filter. simpl. by rewrite app_nil_r.
    + split_and!; [done| | |].
      * eexists. split; [apply lookup_insert_eq|].
        apply (tags_after_addTags (tag :: tags)).
      * intros other Hother. by apply lookup_insert_ne.
      * intros other Hother. apply lookup_insert_ne.
        change (Zotero.id (fold_left Zotero.addTag (tag :: tags) item) ≠ other).
        rewrite ApplyFacts.id_fold_addTag. congruence.
  - intros Hnone Hne. rewrite Hnone. by destruct tags.
Qed.

Lemma dedup_first_filter (p : string → bool) (l : list string) :
  Spec.dedup_first (List.filter p l) = List.filter p (Spec.dedup_first l).
Proof.
  induction l as [|x l IH]; simpl; [done|].
  destruct (p x) eqn:Hx; simpl.
  - rewrite IH, !filter_filter. f_equal. apply filter_ext.
    intros y. apply andb_comm.
  - rewrite IH, filter_filter. apply filter_ext. intros y.
    destruct (String.eqb_spec x y) as [->|]; simpl; [by rewrite Hx|done].
Qed.

(** X18.  The single-file script filters the suggested tags in the other
    order, first against the tags of the item and then for duplicates.  It
    arrives at the same list as the engine of the plugin, and what it then
    does to the item and to the database is what [applyTags] does with
    that list. *)
Theorem script_filters_as_the_engine (aiTags currentTags : list string)
    (targetItem : Zotero.Item) (s : Zotero.Store) :
  Script.uniqueSuggestedTags aiTags currentTags = post_filter aiTags currentTags ∧
  (Zotero.items s !! Zotero.id targetItem = Some targetItem →
   Script.apply targetItem (Script.uniqueSuggestedTags aiTags currentTags) s =
   (applyTags (Zotero.id targetItem) (post_filter aiTags currentTags) s).2).
Proof.
  assert (Script.uniqueSuggestedTags aiTags currentTags = post_filter aiTags currentTags)
    as Hsame.
  { unfold Script.uniqueSuggestedTags, post_filter.
    by rewrite !set_of_dedup_first, dedup_first_filter. }
  split; [done|]. intros Hitem. rewrite Hsame.
  unfold Script.apply, applyTags. rewrite Hitem.
  destruct (post_filter aiTags currentTags) as [|tag tags]; simpl; [|done].
  rewrite insert_id by done. by destruct s.
Qed.

Lemma post_filter_exhausted (S C : list string) :
  post_filter S (C ++ post_filter S C) = [].
Proof.
  destruct (post_filter S (C ++ post_filter S C)) as [|t rest] eqn:H; [done|].
  assert (In t (post_filter S (C ++ post_filter S C))) as Ht by (rewrite H; by left).
  apply PostFilterFacts.In_post_filter in Ht as [HS Hnot]. destruct Hnot.
  apply in_app_iff.
  destruct (in_dec string_dec t C) as [?|HC]; [by left|right].
  by apply PostFilterFacts.In_post_filter.
Qed.

Section Suggestions.

Variable prefs : Preferences.Prefs.
Variable store : Zotero.Store.
Variable Tags_getAll : Z → settled (list string).
Variable extractFullText : Zotero.Item → option Zotero.Item → Z → settled string.
Variable JSON_parse : string → settled Parsed.
Variable provider : nat → RequestBody → FetchOutcome.

(** X17.  In a store that keeps every item under its identifier, applying
    the suggestions of a record without an error to the item the record
    names appends exactly these suggestions, in their order, to the tags
    of that item, and saves the item when there is a suggestion.  The
    completion they were taken from then has nothing new for the item. *)
Theorem applying_a_suggestion_appends_it (item : Zotero.Item) (w : World) :
  let r := (suggestTags prefs store Tags_getAll extractFullText JSON_parse provider
              item w).1 in
  let out := applyTags (itemID r) (suggestedTags r) store in
  (∀ key it, Zotero.items store !! key = Some it → Zotero.id it = key) →
  Zotero.items store !! Zotero.id item = Some item →
  error r = None →
  ∃ target target' parsedTags,
    Zotero.items store !! itemID r = Some target ∧
    suggestedTags r = post_filter parsedTags (Zotero.tags target) ∧
    out.1 = Fulfilled tt ∧
    Zotero.items out.2 !! itemID r = Some target' ∧
    Zotero.tags target' = Zotero.tags target ++ suggestedTags r ∧
    (suggestedTags r ≠ [] →
     Zotero.persisted out.2 !! itemID r = Some (Zotero.tags target') ∧
     Zotero.saves out.2 = S (Zotero.saves store)) ∧
    post_filter parsedTags (Zotero.tags target') = [].
Proof.
  intros r out Hstore Hitem Herror.
  destruct (suggestTags prefs store Tags_getAll extractFullText JSON_parse provider
              item w) as [r0 w'] eqn:Hcall.
  subst r. cbn [fst] in *.
  destruct (EngineFacts.suggestTags_cases prefs store Tags_getAll extractFullText
              JSON_parse provider item w w' r0 Hcall)
    as [(itemID & message & ->)|(target & source & parsed & Hresolve & _ & ->)];
    [done|].
  cbn [TagEngine.itemID suggestedTags] in *.
  assert (Zotero.items store !! Zotero.id target = Some target) as Htarget.
  { apply EngineFacts.resolve_target in Hresolve
      as [(_ & -> & _)|(_ & _ & parentID & _ & _ & Hparent)]; [done|].
    by rewrite (Hstore _ _ Hparent). }
  set (S := default [] (parsed_tags parsed)) in *.
  set (T := Zotero.tags target) in *.
  destruct (applyTags_present store (Zotero.id target) (post_filter S T) target Htarget)
    as (Hok & target' & Hlookup & Htags & Hsaved).
  fold out in Hok, Hlookup, Hsaved. fold T in Htags.
  rewrite PostFilterFacts.post_filter_idempotent in Htags.
  exists target, target', S.
  split_and!; [done|done|done|done|done|done|].
  rewrite Htags. apply post_filter_exhausted.
Qed.

End Suggestions.

Lemma vocabulary_witness :
  List.NoDup (vocabulary Scenarios.library Cases.no_index 1) ∧
  ∀ t, In t (vocabulary Scenarios.library Cases.no_index 1) ↔
       t ≠ "" ∧
       ∃ key libItem,
         Zotero.items Scenarios.library !! key = Some libItem ∧
         Zotero.libraryID libItem = 1%Z ∧
         Zotero.isRegularItem libItem = true ∧
         In t (Zotero.tags libItem).
Proof.
  apply (vocabulary_collected_from_items Scenarios.library Cases.no_index 1
           "tags unavailable").
  reflexivity.
Defined.

Lemma applying_a_suggestion_witness :
  let r := (suggestTags Preferences.defaults Scenarios.library Scenarios.tag_index
              Scenarios.no_text Scenarios.parse
              (Scenarios.answering Scenarios.biology_json)
              Scenarios.quantum (empty_world ∅)).1 in
  let out := applyTags (itemID r) (suggestedTags r) Scenarios.library in
  ∃ target target' parsedTags,
    Zotero.items Scenarios.library !! itemID r = Some target ∧
    suggestedTags r = post_filter parsedTags (Zotero.tags target) ∧
    out.1 = Fulfilled tt ∧
    Zotero.items out.2 !! itemID r = Some target' ∧
    Zotero.tags target' = Zotero.tags target ++ suggestedTags r ∧
    (suggestedTags r ≠ [] →
     Zotero.persisted out.2 !! itemID r = Some (Zotero.tags target') ∧
     Zotero.saves out.2 = S (Zotero.saves Scenarios.library)) ∧
    post_filter parsedTags (Zotero.tags target') = [].
Proof.
  apply (applying_a_suggestion_appends_it Preferences.defaults Scenarios.library
           Scenarios.tag_index Scenarios.no_text Scenarios.parse
           (Scenarios.answering Scenarios.biology_json)
           Scenarios.quantum (empty_world ∅)).
  - intros key it Hit. unfold Scenarios.library in Hit. simpl in Hit.
    apply lookup_singleton_Some in Hit as [<- <-]. reflexivity.
  - reflexivity.
  - vm_compute. reflexivity.
Defined.

End TagFacts.

(** ** Full-text extraction *)

Module TextFacts.

Import AiService Traces TextExtractor.

Lemma length_substring (n : nat) (s : string) :
  String.length (substring 0 n s) = Nat.min n (String.length s).
Proof.
  revert s. induction n as [|n IH]; intros [|c s]; simpl; try done.
  by rewrite IH.
Qed.

Lemma prefix_substring (n : nat) (s : string) :
  String.prefix (substring 0 n s) s = true.
Proof.
  revert s. induction n as [|n IH]; intros [|c s]; simpl; try done.
  destruct (ascii_dec c c); [apply IH|done].
Qed.

(** X19.  Truncation keeps a text that is not longer than the limit as
    it is.  Of a longer text it keeps the first [maxLength] code units and
    appends the marker of 14 code units, so that the result is longer than
    the limit by the marker, and never by more. *)
Theorem truncate_bounds (fullText : string) (maxLength : Z) :
  (String.length (truncate fullText maxLength) ≤ Z.to_nat maxLength + 14)%nat ∧
  ((Z.of_nat (String.length fullText) ≤ maxLength)%Z →
   truncate fullText maxLength = fullText) ∧
  ((maxLength < Z.of_nat (String.length fullText))%Z →
   ∃ kept,
     truncate fullText maxLength = kept +:+ "...[truncated]" ∧
     String.prefix kept fullText = true ∧
     String.length kept = Z.to_nat maxLength).
Proof.
  unfold truncate.
  destruct (maxLength <? Z.of_nat (String.length fullText))%Z eqn:Hlong.
  - apply Z.ltb_lt in Hlong. split_and!.
    + rewrite AiServiceFacts.length_append, length_substring. simpl. lia.
    + lia.
    + intros _. exists (substring 0 (Z.to_nat maxLength) fullText).
      split_and!; [done|apply prefix_substring|].
      rewrite length_substring. lia.
  - apply Z.ltb_ge in Hlong. split_and!; [lia|done|lia].
Qed.

Lemma usable_long (text : option string) (t : string) :
  usable text = Some t → text = Some t ∧ (100 < String.length t)%nat.
Proof.
  destruct text as [t0|]; simpl; [|done].
  destruct (Js.truthy t0 && (100 <? String.length t0)%nat) eqn:H; [|done].
  intros [= <-]. apply andb_true_iff in H as [_ H]. by apply Nat.ltb_lt in H.
Qed.

Lemma pdf_text_long (attachment : Attachment) (t : string) :
  pdf_text attachment = Some t →
  attachmentText attachment = Fulfilled (Some t) ∧ (100 < String.length t)%nat.
Proof.
  unfold pdf_text. repeat case_match; try done.
  intros Husable. apply usable_long in Husable as [-> ?]. done.
Qed.

(** Once a PDF has given its text the loop is left. *)
Lemma scan_pdf (before after : list Attachment) (attachment : Attachment)
    (fullText pdfText : string) (source : Source) :
  Forall (λ a, isPDFAttachment a = true → pdf_text a = None) before →
  isPDFAttachment attachment = true →
  pdf_text attachment = Some pdfText →
  scan (before ++ attachment :: after) fullText source = (pdfText, pdf).
Proof.
  intros Hbefore Hpdf Htext. revert fullText source.
  induction Hbefore as [|a before Ha _ IH]; intros fullText source; simpl.
  - by rewrite Hpdf, Htext.
  - destruct (isPDFAttachment a); [by rewrite Ha|].
    destruct (String.eqb (attachmentMIMEType a) "text/html"); [|done].
    by destruct (usable (getFullTextFromSnapshot a)).
Qed.

(** Without a PDF that gives its text the last usable snapshot stays. *)
Lemma scan_snapshots (attachments : list Attachment) (fullText : string)
    (source : Source) :
  Forall (λ a, isPDFAttachment a = true → pdf_text a = None) attachments →
  scan attachments fullText source =
  match last (omap snapshot_text attachments) with
  | Some snapshotText => (snapshotText, snapshot)
  | None => (fullText, source)
  end.
Proof.
  intros Hnone. revert fullText source.
  induction Hnone as [|a attachments Ha _ IH]; intros fullText source; simpl; [done|].
  unfold snapshot_text at 1.
  destruct (isPDFAttachment a); [by rewrite Ha|].
  destruct (String.eqb (attachmentMIMEType a) "text/html"); [|done].
  destruct (usable (getFullTextFromSnapshot a)) as [t|]; [|done].
  rewrite IH.
  change (list_omap Attachment string snapshot_text attachments)
    with (omap snapshot_text attachments).
  rewrite last_cons. by destruct (last (omap snapshot_text attachments)).
Qed.

(** X20.  The loop over the attachments prefers a PDF: the text is that of
    the first PDF whose file exists and whose text has more than 100 code
    units, whatever snapshots come before or after it.  When no PDF gives
    such a text, the text is that of the last HTML snapshot with more than
    100 code units, and when there is none either, the result is the
    empty text with source [none]. *)
Theorem scan_prefers_pdf (attachments : list Attachment) :
  (∀ before attachment after pdfText,
     attachments = before ++ attachment :: after →
     Forall (λ a, isPDFAttachment a = true → pdf_text a = None) before →
     isPDFAttachment attachment = true →
     pdf_text attachment = Some pdfText →
     scan attachments "" none = (pdfText, pdf) ∧
     attachmentText attachment = Fulfilled (Some pdfText) ∧
     (100 < String.length pdfText)%nat) ∧
  (Forall (λ a, isPDFAttachment a = true → pdf_text a = None) attachments →
   scan attachments "" none =
   match last (omap snapshot_text attachments) with
   | Some snapshotText => (snapshotText, snapshot)
   | None => ("", none)
   end) ∧
  (∀ snapshotText, In snapshotText (omap snapshot_text attachments) →
                   (100 < String.length snapshotText)%nat).
Proof.
  split_and!.
  - intros before attachment after pdfText -> Hbefore Hpdf Htext.
    split; [by apply scan_pdf|]. by apply pdf_text_long.
  - apply scan_snapshots.
  - intros t Ht. apply list_elem_of_In, list_elem_of_omap in Ht as (a & _ & Ha).
    unfold snapshot_text in Ha. repeat case_match; try done.
    by apply usable_long in Ha as [_ ?].
Qed.



End TextFacts.

(** ** The menu commands *)

Module MenuFacts.

Import TagEngine BatchProcessor Menu.

(** X22.  The command of the item menu hands to the engine the selected
    items that are regular items or attachments with a parent, in the
    order of the selection, and the command of the collection menu the
    regular items of the collection, once the user has agreed.  For these
    items [suggestTags] does not take the way out for an attachment
    without a parent (a regular item not being an attachment), and an item
    of a collection is itself the item that receives the tags. *)
Theorem menus_hand_over_taggable_items (store : Zotero.Store)
    (selected children : option (list Zotero.Item))
    (confirmed confirmationMode : bool) :
  let fromSelection := handed_over (handleTagSelected selected confirmationMode) in
  let fromCollection :=
    handed_over (handleTagCollection children confirmed confirmationMode) in
  fromSelection = List.filter taggable (default [] selected) ∧
  fromCollection =
    (if confirmed then List.filter Zotero.isRegularItem (default [] children) else []) ∧
  (∀ item title,
     In item fromSelection →
     (Zotero.isRegularItem item = true → Zotero.isAttachment item = false) →
     ∃ target, resolve store item title = inl target) ∧
  (∀ item title,
     In item fromCollection →
     (Zotero.isRegularItem item = true → Zotero.isAttachment item = false) →
     resolve store item title = inl (AiService.Fulfilled (item, None))).
Proof.
  intros fromSelection fromCollection.
  assert (fromSelection = List.filter taggable (default [] selected)) as Hselection.
  { subst fromSelection. unfold handleTagSelected.
    destruct selected as [[|item items]|]; [done| |done].
    cbv beta iota. change (default [] (Some (item :: items))) with (item :: items).
    by destruct (List.filter taggable (item :: items)) as [|a [|b rest]]. }
  assert (fromCollection =
          (if confirmed then List.filter Zotero.isRegularItem (default [] children)
           else [])) as Hcollection.
  { subst fromCollection. unfold handleTagCollection.
    destruct children as [items|]; [|by destruct confirmed].
    change (default [] (Some items)) with items.
    destruct (List.filter Zotero.isRegularItem items) as [|a rest];
      by destruct confirmed. }
  split_and!; [done|done|..].
  - intros item title Hitem Hhost. rewrite Hselection in Hitem.
    apply filter_In in Hitem as [_ Htaggable]. unfold taggable, has_parent in Htaggable.
    unfold resolve. destruct (Zotero.isAttachment item) eqn:Hattachment; [|eauto].
    destruct (Zotero.isRegularItem item); [by specialize (Hhost eq_refl)|].
    simpl in Htaggable. destruct (Zotero.parentID item) as [parentID|]; [|done].
    apply negb_true_iff in Htaggable. rewrite Htaggable.
    destruct (Zotero.items store !! parentID); eauto.
  - intros item title Hitem Hhost. rewrite Hcollection in Hitem.
    destruct confirmed; [|done].
    apply filter_In in Hitem as [_ Hregular]. unfold resolve.
    by rewrite (Hhost Hregular).
Qed.

End MenuFacts.

(** ** The scheduler: start, cancellation, reports and the end *)

Module BatchFacts.

Import TagEngine BatchProcessor Invariants Safety SchedulerFacts.

(** *** The end of a batch *)

(** X23.  With room for one request at least, a batch takes at most six
    continuations per item, whatever the order in which the awaited
    promises settle and whenever [cancel()] is called, and it is never
    stuck: as long as an item is not done, some awaited promise is
    pending whose settlement lets a task go on. *)
Theorem every_batch_terminates (prefs : Preferences.Prefs) (items : list Zotero.Item)
    (confirmFn : bool) (es : list Event) (st : State) :
  (1 ≤ Js.or_number (Preferences.concurrency prefs) 3)%Z →
  run (processBatch prefs items confirmFn) es = Some st →
  (length (List.filter is_resume es) ≤ 6 * length items)%nat ∧
  (all_done st = false → ∃ i v st', step st (Resume i v) = Some st').
Proof. apply batch_comes_to_an_end. Qed.

Lemma count_zero (f : Task → bool) (ts : list Task) :
  (∀ t, t ∈ ts → f t = false) → count f ts = 0%nat.
Proof.
  intros Hf. destruct (count f ts) as [|n] eqn:Hcount; [done|].
  destruct (count_positive f ts) as (i & t & Hi & Ht); [lia|].
  rewrite Hf in Ht; [done|]. by eapply list_elem_of_lookup_2.
Qed.

(** X24.  The semaphore gives back what it hands out: at every
    suspension point of a batch the number of slots in use is the number
    of items between their [acquire()] and their [finally] block, also
    after an exception of the confirmation hook or of [applyTags]; when
    every item is done, no slot is in use and no item is queued. *)
Theorem slots_are_returned (prefs : Preferences.Prefs) (items : list Zotero.Item)
    (confirmFn : bool) (es : list Event) (st : State) :
  run (processBatch prefs items confirmFn) es = Some st →
  active (semaphore st) = Z.of_nat (count holding (tasks st)) ∧
  (all_done st = true →
   active (semaphore st) = 0%Z ∧ queue (semaphore st) = []).
Proof.
  intros Hrun. destruct (reachable_invariant _ _ _ _ _ Hrun) as (HG & _).
  split; [apply HG|]. intros Hdone. unfold all_done in Hdone.
  rewrite forallb_forall in Hdone. split.
  - rewrite (gate_active st HG), count_zero; [done|].
    intros t Ht. apply list_elem_of_In, Hdone in Ht. by destruct t.
  - pose proof (gate_queue st HG) as Hq.
    destruct (queue (semaphore st)) as [|j rest]; [done|].
    apply Forall_cons in Hq as [Hj _].
    apply list_elem_of_lookup_2, list_elem_of_In, Hdone in Hj. done.
Qed.

(** *** What a step does to the tasks *)

Lemma finish_frame (i : nat) (how : Completion) (st : State) :
  cancelled_flag (finish i how st) = cancelled_flag st ∧
  confirm (finish i how st) = confirm st ∧
  ∀ k t, tasks (finish i how st) !! k = Some t →
         t = Done how ∨ t = AwaitAcquire true ∨ tasks st !! k = Some t.
Proof.
  unfold finish, release. destruct (queue (semaphore st)) as [|j rest]; simpl.
  - split_and!; [done..|]. intros k t Hk.
    apply list_lookup_insert_Some in Hk as [(_ & <- & _)|(_ & Hk)]; auto.
  - split_and!; [done..|]. intros k t Hk.
    apply list_lookup_insert_Some in Hk as [(_ & <- & _)|(_ & Hk)]; [auto|].
    apply list_lookup_insert_Some in Hk as [(_ & <- & _)|(_ & Hk)]; auto.
Qed.

Lemma set_task_frame (i : nat) (t0 : Task) (st : State) :
  ∀ k t, tasks (set_task i t0 st) !! k = Some t → t = t0 ∨ tasks st !! k = Some t.
Proof.
  intros k t Hk. simpl in Hk.
  apply list_lookup_insert_Some in Hk as [(_ & <- & _)|(_ & Hk)]; auto.
Qed.

(** After [cancel()] a continuation ends its task, or lets it apply the
    tags it was about to apply. *)
Lemma cancelled_step (st st' : State) (e : Event) :
  cancelled_flag st = true → step st e = Some st' →
  cancelled_flag st' = true ∧
  ∀ k t, tasks st' !! k = Some t →
         tasks st !! k = Some t ∨ past_cancel t = true ∨ t = AwaitAcquire true.
Proof.
  intros Hflag. destruct e as [|i v]; simpl.
  { intros [= <-]. split; [done|]. auto. }
  destruct (tasks st !! i) as [t0|] eqn:Hi; [|done].
  destruct t0 as [[]| | | | |], v; try done; intros [= <-];
    unfold after_acquire, dispatch, after_suggest, commit, after_apply, record;
    cbn [cancelled_flag count_request]; rewrite ?Hflag;
    repeat case_match;
    try (match goal with
         | |- context [finish ?j ?how ?s] =>
             destruct (finish_frame j how s) as (Hf & _ & Ht);
             split; [by rewrite Hf|];
             intros k t Hk; destruct (Ht k t Hk) as [->|[->|Hold]]; auto
         end);
    try (split; [done|]; intros k t Hk;
         apply set_task_frame in Hk as [->|Hk]; auto).
Qed.

(** X25.  Once [cancel()] has been called the flag stays set, and no
    task starts to wait for the pacing delay, for [suggestTags] or for the
    confirmation hook any more: a task whose state changes is done, is
    about to apply the tags that were confirmed, or has just been given
    its slot (and will be skipped).  A call of [applyTags] that was
    awaited or confirmed goes on. *)
Theorem cancel_stops_new_requests (st st' : State) (es : list Event) :
  cancelled_flag st = true →
  run st es = Some st' →
  cancelled_flag st' = true ∧
  ∀ k t, tasks st' !! k = Some t →
         tasks st !! k = Some t ∨ past_cancel t = true ∨ t = AwaitAcquire true.
Proof.
  revert st. induction es as [|e es IH]; intros st Hflag; simpl.
  { intros [= <-]. auto. }
  destruct (step st e) as [st1|] eqn:Hstep; [|done]. intros Hrun.
  destruct (cancelled_step st st1 e Hflag Hstep) as (Hflag1 & Hstep1).
  destruct (IH st1 Hflag1 Hrun) as (Hflag' & Hrun').
  split; [done|]. intros k t Hk.
  destruct (Hrun' k t Hk) as [Hk1|?]; [|auto]. by apply Hstep1.
Qed.

(** *** What is awaited *)

Lemma safe_step (st st' : State) (e : Event) :
  (∀ k t, tasks st !! k = Some t → safe (confirm st) t) →
  step st e = Some st' →
  confirm st' = confirm st ∧
  ∀ k t, tasks st' !! k = Some t → safe (confirm st) t.
Proof.
  intros Hsafe. destruct e as [|i v]; simpl.
  { by intros [= <-]. }
  destruct (tasks st !! i) as [t0|] eqn:Hi; [|done].
  pose proof (Hsafe i t0 Hi) as H0.
  destruct t0 as [[]| | | | |], v; try done; intros [= <-];
    unfold after_acquire, dispatch, after_suggest, commit, after_apply, record;
    repeat case_match;
    try (match goal with
         | |- context [finish ?j ?how ?s] =>
             destruct (finish_frame j how s) as (_ & Hc & Ht);
             split; [by rewrite Hc|];
             intros k t Hk; destruct (Ht k t Hk) as [->|[->|Hold]];
             [done|done|exact (Hsafe k t Hold)]
         end);
    (split; [done|]; intros k t Hk;
     apply set_task_frame in Hk as [->|Hk]; [|exact (Hsafe k t Hk)]);
    simpl in *; try done.
  - match goal with
    | H : negb (has_error ?r) && _ = true |- _ =>
        apply andb_true_iff in H as [Herr Hlen];
        apply negb_true_iff in Herr; apply Nat.ltb_lt in Hlen
    end.
    split_and!; [done|done|]. intros Hnone. rewrite Hnone in Hlen. simpl in Hlen. lia.
  - match goal with
    | H : negb (has_error ?r) && _ = true |- _ =>
        apply andb_true_iff in H as [Herr Hlen];
        apply negb_true_iff in Herr
    end.
    simplify_eq/=.
    match goal with H : suggestedTags _ = _ :: _ |- _ => rewrite H end. done.
  - simplify_eq/=. destruct H0 as (Hhook & ? & ?). split_and!; [done|done|done|].
    intros Hc. congruence.
Qed.

Lemma confirm_start (indices : list nat) (st : State) :
  confirm (fold_left start indices st) = confirm st ∧
  interval (fold_left start indices st) = interval st ∧
  requestCount (fold_left start indices st) = requestCount st ∧
  cancelled_flag (fold_left start indices st) = cancelled_flag st.
Proof.
  revert st. induction indices as [|i indices IH]; intros st; simpl; [done|].
  destruct (IH (start st i)) as (-> & -> & -> & ->).
  unfold start, acquire. by repeat case_match.
Qed.

(** X26.  In every state of a batch, a task waits for the confirmation
    hook only when [processBatch] was given one, and a task waits for
    [applyTags] only with a list of tags that is not empty; in both cases
    the record of the task has no error and suggests at least one tag.
    Without a hook the tags being applied are the suggested ones. *)
Theorem only_confirmed_tags_are_applied (prefs : Preferences.Prefs)
    (items : list Zotero.Item) (confirmFn : bool) (es : list Event) (st : State) :
  run (processBatch prefs items confirmFn) es = Some st →
  confirm st = confirmFn ∧
  ∀ k t, tasks st !! k = Some t → safe confirmFn t.
Proof.
  assert (∀ es st0 st,
            (∀ k t, tasks st0 !! k = Some t → safe (confirm st0) t) →
            run st0 es = Some st →
            confirm st = confirm st0 ∧
            ∀ k t, tasks st !! k = Some t → safe (confirm st0) t) as Hrun.
  { clear. induction es as [|e es IH]; intros st0 st Hsafe; simpl.
    { by intros [= <-]. }
    destruct (step st0 e) as [st1|] eqn:Hstep; [|done]. intros Hrun.
    destruct (safe_step st0 st1 e Hsafe Hstep) as (Hc1 & Hsafe1).
    rewrite <- Hc1 in Hsafe1.
    destruct (IH st1 st Hsafe1 Hrun) as (Hc & Hsafe').
    rewrite Hc1 in Hc, Hsafe'. done. }
  intros Hreach.
  assert (confirm (processBatch prefs items confirmFn) = confirmFn) as Hhook.
  { unfold processBatch. cbn [confirm].
    match goal with
    | |- context [fold_left start ?l ?st0] =>
        by destruct (confirm_start l st0) as (-> & _)
    end. }
  rewrite <- Hhook.
  apply (Hrun es (processBatch prefs items confirmFn) st); [|done].
  intros k t Hk.
  destruct (processBatch_invariant prefs items confirmFn) as (_ & _ & _).
  assert (Forall is_acquire (tasks (processBatch prefs items confirmFn))) as Hacq.
  { unfold processBatch. cbn [tasks].
    match goal with
    | |- context [fold_left start _ ?st0] =>
        destruct (gate_fold_start (length items) st0) as (_ & Hacq & _);
        [by constructor|done|constructor|exact Hacq]
    end. }
  rewrite Forall_lookup in Hacq. by destruct (Hacq k t Hk) as [granted ->].
Qed.

(** *** Progress reports *)

Lemma reports_step (st st' : State) (e : Event) :
  Gate st → Books st → Reports st → step st e = Some st' → Reports st'.
Proof.
  intros HG HB HR Hstep. destruct e as [|i v].
  { injection Hstep as <-. exact HR. }
  apply step_shape in Hstep
    as (t0 & st1 & Hi & H0 & Hst1 & [(t & _ & _ & _ & ->)|(how & Hhow & _ & ->)]).
  { destruct Hst1 as [->| ->]; exact HR. }
  assert (Reports st1 ∧ length (reported st1) = current (progress st1))
    as (HR1 & Hlen).
  { destruct Hst1 as [->| ->]; (split; [exact HR|apply HB]). }
  clear Hst1 HR. intros k report.
  rewrite reported_complete.
  destruct (tasks_complete st1 i how) as (_ & _ & _ & _ & Hcurrent & Htotal & _).
  rewrite results_of_complete, Htotal.
  intros Hk. apply lookup_app_Some in Hk as [Hk|[Hge Hk]].
  - destruct (HR1 k report Hk) as (Hc & Ht & Hseen).
    split_and!; [done|done|]. by apply prefix_app_r.
  - apply list_lookup_singleton_Some in Hk as [Hk <-]. simpl.
    rewrite Hcurrent, Htotal. split_and!; [lia|done|done].
Qed.

(** X27.  The calls of [onProgress] count up: the [k]-th call of a batch
    (from one) receives [current = k] and the number of items as [total],
    so that every item, skipped or not, is reported once; and the records
    that a call is shown are still the first records of the results at
    any later time: records are only ever appended. *)
Theorem progress_reports_count_up (prefs : Preferences.Prefs)
    (items : list Zotero.Item) (confirmFn : bool) (es : list Event) (st : State) :
  run (processBatch prefs items confirmFn) es = Some st →
  length (reported st) = current (progress st) ∧
  (current (progress st) ≤ length items)%nat ∧
  ∀ k report,
    reported st !! k = Some report →
    current (snapshot report) = S k ∧
    total (snapshot report) = length items ∧
    seen report `prefix_of` results_of st (progress st).
Proof.
  assert (∀ es st0 st, Gate st0 → Books st0 → Reports st0 →
                       run st0 es = Some st → Reports st) as Hrun.
  { clear. induction es as [|e es IH]; intros st0 st HG HB HR; cbn [run].
    { intros [= <-]. exact HR. }
    destruct (step st0 e) as [st1|] eqn:Hstep; [|done].
    destruct (step_invariant st0 st1 e HG HB Hstep) as (HG1 & HB1 & _).
    intros Hrun. apply (IH st1 st HG1 HB1); [|done].
    exact (reports_step st0 st1 e HG HB HR Hstep). }
  intros Hreach.
  destruct (processBatch_invariant prefs items confirmFn) as (HG0 & HB0 & _).
  destruct (reachable_invariant _ _ _ _ _ Hreach) as (HG & HB & _ & _ & Htotal & Hlen & _).
  assert (Reports (processBatch prefs items confirmFn)) as HR0.
  { intros k report Hk. pose proof (books_reported _ HB0) as Hnone.
    pose proof (books_current _ HB0) as Hcurrent.
    apply lookup_lt_Some in Hk. rewrite Hnone, Hcurrent in Hk.
    destruct (processBatch_invariant prefs items confirmFn) as (HGa & _).
    assert (count ran_finally (tasks (processBatch prefs items confirmFn)) = 0%nat)
      as Hzero; [|lia].
    unfold processBatch. cbn [tasks].
    match goal with
    | |- context [fold_left start _ ?st0] =>
        destruct (gate_fold_start (length items) st0) as (_ & Hacq & _);
        [by constructor|done|constructor|]
    end.
    by apply count_acquire. }
  pose proof (Hrun es _ st HG0 HB0 HR0 Hreach) as HR.
  split_and!.
  - apply HB.
  - rewrite (books_current _ HB), <- Hlen. apply count_le_length.
  - intros k report Hk. destruct (HR k report Hk) as (? & ? & ?).
    split_and!; [done|congruence|done].
Qed.

(** *** The start of a batch *)

Lemma repeat_snoc {A} (a : A) (n : nat) : repeat a n ++ [a] = repeat a (S n).
Proof. by rewrite <- repeat_cons. Qed.

(** The state after the synchronous start of the first [k] items: as many
    as there are slots were given one, the others are queued in order. *)
Lemma fold_start (st0 : State) (k : nat) :
  cancelled_flag st0 = false → tasks st0 = [] → admissions st0 = [] →
  active (semaphore st0) = 0%Z → queue (semaphore st0) = [] →
  let g := Nat.min k (Z.to_nat (limit (semaphore st0))) in
  let st := fold_left start (seq 0 k) st0 in
  tasks st = repeat (AwaitAcquire true) g ++ repeat (AwaitAcquire false) (k - g) ∧
  admissions st = seq 0 g ∧
  queue (semaphore st) = seq g (k - g) ∧
  active (semaphore st) = Z.of_nat g ∧
  limit (semaphore st) = limit (semaphore st0) ∧
  cancelled_flag st = false ∧
  progress st = progress st0 ∧ arrays st = arrays st0 ∧ reported st = reported st0 ∧
  requestCount st = requestCount st0.
Proof.
  intros Hflag Htasks Hadm Hactive Hqueue.
  induction k as [|k IH]; cbv zeta.
  { simpl. rewrite Htasks, Hadm, Hqueue, Hactive. done. }
  cbv zeta in IH. rewrite seq_S, fold_left_app. cbn [fold_left].
  destruct IH as (IHt & IHa & IHq & IHact & IHl & IHf & IHp & IHarr & IHr & IHc).
  set (st := fold_left start (seq 0 k) st0) in *.
  set (L := limit (semaphore st0)) in *.
  change (0 + k)%nat with k.
  unfold start, acquire. rewrite IHf, IHact, IHl.
  destruct (Z.of_nat (k `min` Z.to_nat L) <? L)%Z eqn:Hlt;
    cbn [tasks admissions semaphore queue active limit cancelled_flag progress
         arrays reported requestCount].
  - apply Z.ltb_lt in Hlt.
    assert (k < Z.to_nat L)%nat as Hk by lia.
    rewrite IHt, IHa, IHq.
    replace (k `min` Z.to_nat L)%nat with k by lia.
    replace (S k `min` Z.to_nat L)%nat with (S k) by lia.
    replace (k - k)%nat with 0%nat by lia.
    replace (S k - S k)%nat with 0%nat by lia.
    rewrite (seq_S k 0). simpl. rewrite !app_nil_r, repeat_snoc.
    split_and!; try done. lia.
  - apply Z.ltb_ge in Hlt.
    assert (Z.to_nat L ≤ k)%nat as Hk by lia.
    rewrite IHt, IHa, IHq.
    replace (k `min` Z.to_nat L)%nat with (Z.to_nat L) by lia.
    replace (S k `min` Z.to_nat L)%nat with (Z.to_nat L) by lia.
    replace (S k - Z.to_nat L)%nat with (S (k - Z.to_nat L)) by lia.
    rewrite <- app_assoc, repeat_snoc, seq_S.
    replace (Z.to_nat L + (k - Z.to_nat L))%nat with k by lia.
    split_and!; try done.
Qed.

Lemma processBatch_start (prefs : Preferences.Prefs) (items : list Zotero.Item)
    (confirmFn : bool) :
  let L := Js.or_number (Preferences.concurrency prefs) 3 in
  let n := length items in
  let g := Nat.min n (Z.to_nat L) in
  let st := processBatch prefs items confirmFn in
  tasks st = repeat (AwaitAcquire true) g ++ repeat (AwaitAcquire false) (n - g) ∧
  admissions st = seq 0 g ∧
  queue (semaphore st) = seq g (n - g) ∧
  active (semaphore st) = Z.of_nat g ∧
  promise st = match items with [] => Resolved | _ => Pending end ∧
  reported st = [] ∧
  current (progress st) = 0%nat ∧
  requestCount st = 0%nat ∧
  cancelled_flag st = false ∧
  cancelled (progress st) = false.
Proof.
  intros L n g st. subst L n g st. unfold processBatch.
  match goal with
  | |- context [fold_left start _ ?st0] =>
      destruct (fold_start st0 (length items))
        as (Ht & Ha & Hq & Hact & _ & Hf & Hp & _ & Hr & Hc); try done
  end.
  cbn [semaphore limit] in Ht, Ha, Hq, Hact.
  cbn [tasks admissions semaphore promise reported progress requestCount
       cancelled_flag].
  rewrite Ht, Ha, Hq, Hact, Hr, Hp, Hc, Hf.
  split_and!; try done.
  destruct items as [|item items]; [done|].
  simpl length.
  destruct (Z.to_nat (Js.or_number (Preferences.concurrency prefs) 3)); done.
Qed.

(** X28.  When [processBatch] returns, the first [concurrency] items
    (three when the preference is [0]) have been given a slot and the
    others are queued in their order; nothing has been requested or
    reported yet.  The promise is resolved already for an empty list of
    items, and pending otherwise. *)
Theorem processBatch_starts_the_first_items (prefs : Preferences.Prefs)
    (items : list Zotero.Item) (confirmFn : bool) :
  let L := Js.or_number (Preferences.concurrency prefs) 3 in
  let n := length items in
  let g := Nat.min n (Z.to_nat L) in
  let st := processBatch prefs items confirmFn in
  tasks st = repeat (AwaitAcquire true) g ++ repeat (AwaitAcquire false) (n - g) ∧
  admissions st = seq 0 g ∧
  queue (semaphore st) = seq g (n - g) ∧
  active (semaphore st) = Z.of_nat g ∧
  promise st = match items with [] => Resolved | _ => Pending end ∧
  reported st = [] ∧
  current (progress st) = 0%nat ∧
  requestCount st = 0%nat ∧
  cancelled_flag st = false ∧
  cancelled (progress st) = false.
Proof. apply processBatch_start. Qed.

(** X29.  With a negative concurrency preference no slot is ever given
    out.  A batch with an item then never starts: no awaited promise can
    settle, so that a run consists of calls of [cancel()] only, no item is
    ever reported, and the batch promise stays pending, also after
    [cancel()]. *)
Theorem negative_concurrency_stalls (prefs : Preferences.Prefs)
    (items : list Zotero.Item) (confirmFn : bool) (es : list Event) (st : State) :
  (Preferences.concurrency prefs < 0)%Z →
  items ≠ [] →
  run (processBatch prefs items confirmFn) es = Some st →
  Forall (λ e, e = Cancel) es ∧
  promise st = Pending ∧
  tasks st = repeat (AwaitAcquire false) (length items) ∧
  reported st = [] ∧
  (∀ i v, step st (Resume i v) = None).
Proof.
  intros Hneg Hitems.
  destruct (processBatch_start prefs items confirmFn)
    as (Ht & _ & _ & _ & Hp & Hr & _).
  assert (Js.or_number (Preferences.concurrency prefs) 3 = Preferences.concurrency prefs)
    as HL.
  { unfold Js.or_number.
    by replace (Preferences.concurrency prefs =? 0)%Z with false
      by (symmetry; apply Z.eqb_neq; lia). }
  rewrite HL in Ht. replace (Z.to_nat (Preferences.concurrency prefs)) with 0%nat in Ht by lia.
  rewrite Nat.min_0_r, Nat.sub_0_r in Ht. cbn [repeat app] in Ht.
  assert (promise (processBatch prefs items confirmFn) = Pending) as Hp'
    by (rewrite Hp; by destruct items).
  clear Hp HL.
  assert (∀ st0 : State,
            tasks st0 = repeat (AwaitAcquire false) (length items) →
            ∀ i v, step st0 (Resume i v) = None) as Hstuck.
  { intros st0 Ht0 i v. simpl. rewrite Ht0.
    destruct (repeat (AwaitAcquire false) (length items) !! i) as [t|] eqn:Hi; [|done].
    apply list_elem_of_lookup_2, list_elem_of_In, repeat_spec in Hi as ->. done. }
  revert Ht Hp' Hr. generalize (processBatch prefs items confirmFn). intros st0.
  revert st0. induction es as [|e es IH]; intros st0 Ht Hp Hr.
  { intros [= <-]. split_and!; [constructor|done|done|done|]. by apply Hstuck. }
  destruct e as [|i v].
  - cbn [run step]. intros Hrun. destruct (IH (cancel st0) Ht Hp Hr Hrun) as (? & ? & ? & ? & ?).
    split_and!; [by constructor|done..].
  - cbn [run]. by rewrite (Hstuck st0 Ht i v).
Qed.

(** The state of a batch whose promise has resolved. *)
Lemma resolved_counts (prefs : Preferences.Prefs) (items : list Zotero.Item)
    (confirmFn : bool) (es : list Event) (st : State) :
  run (processBatch prefs items confirmFn) es = Some st →
  promise st = Resolved →
  current (progress st) = length items ∧ total (progress st) = length items ∧
  cancelled (progress st) = cancelled_flag st.
Proof.
  intros Hrun Hresolved.
  destruct (reachable_invariant _ _ _ _ _ Hrun) as (HG & HB & _ & _ & Htotal & Hlen & _).
  split_and!; [|done|].
  - pose proof (books_promise _ HB) as Hp. rewrite Hresolved in Hp.
    destruct Hp as [_ Hdone]. rewrite (books_current _ HB), <- Hlen.
    rewrite all_done_count in Hdone. apply Nat.eqb_eq in Hdone.
    pose proof (gate_started _ HG) as Hstarted.
    apply Nat.le_antisymm; [apply count_le_length|].
    rewrite <- Hdone.
    assert (∀ ts, count not_started ts = 0%nat →
                  (count is_done ts ≤ count ran_finally ts)%nat) as Hle.
    { clear. induction ts as [|t ts IH]; [done|].
      rewrite !count_cons. unfold bump.
      destruct t as [| | | | |[]]; simpl; intros; try lia; apply IH; lia. }
    by apply Hle.
  - clear Hresolved. revert Hrun.
    destruct (processBatch_start prefs items confirmFn)
      as (_ & _ & _ & _ & _ & _ & _ & _ & Hf & Hc).
    revert Hf Hc. generalize (processBatch prefs items confirmFn). clear.
    intros st0 Hf Hc. rewrite <- Hf in Hc. clear Hf.
    revert st0 Hc. induction es as [|e es IH]; intros st0 Hc; simpl.
    { by intros [= <-]. }
    destruct (step st0 e) as [st1|] eqn:Hstep; [|done].
    apply IH. destruct e as [|i v].
    + by injection Hstep as <-.
    + apply step_shape in Hstep
        as (t0 & st1' & _ & _ & Hst1 & [(t & _ & _ & _ & ->)|(how & _ & _ & ->)]).
      * by destruct Hst1 as [->| ->].
      * assert (cancelled (progress st1') = cancelled_flag st1') as Hc1
          by (by destruct Hst1 as [->| ->]).
        destruct how; unfold complete, finish, release; simpl;
          by destruct (queue (semaphore st1')).
Qed.

(** X30.  When the batch promise has resolved, [current] is the number
    of items, whether they were tagged, failed or skipped.  The summary
    that [handleBatchItems] shows therefore counts all items of the batch
    as processed, and after [cancel()] it reads "processed n of n" for a
    batch of [n] items; the count of tags and of errors is shown only for
    a batch that was not cancelled. *)
Theorem summary_counts_every_item (prefs : Preferences.Prefs)
    (items : list Zotero.Item) (confirmFn : bool) (es : list Event) (st : State) :
  let n := length items in
  let records := results_of st (progress st) in
  run (processBatch prefs items confirmFn) es = Some st →
  promise st = Resolved →
  (cancelled_flag st = true →
   Menu.summary (progress st) records =
     "⚠️ Cancelled: processed " +:+ pretty n +:+ " of " +:+ pretty n) ∧
  (cancelled_flag st = false →
   ∃ tags errors : nat,
     (errors ≤ length records ≤ n)%nat ∧
     let done :=
       "✅ Done: " +:+ pretty tags +:+ " tags added across " +:+ pretty n +:+ " items" in
     Menu.summary (progress st) records =
       if (0 <? errors)%nat then done +:+ " (" +:+ pretty errors +:+ " errors)"
       else done).
Proof.
  intros n records Hrun Hresolved.
  destruct (resolved_counts _ _ _ _ _ Hrun Hresolved) as (Hcurrent & Htotal & Hflag).
  unfold Menu.summary. rewrite Hcurrent, Htotal, Hflag. fold n. split.
  - by intros ->.
  - intros ->. eexists _, (length (List.filter has_error records)). split.
    + split; [apply filter_length_le|].
      destruct (reachable_invariant _ _ _ _ _ Hrun) as (_ & HB & _ & _ & _ & Hlen & _).
      subst records n. rewrite (books_results _ HB), <- Hlen. apply count_le_length.
    + done.
Qed.

Lemma every_batch_witness :
  ∃ st,
    run (processBatch Preferences.defaults [Scenarios.quantum; Scenarios.relativity]
           false) Scenarios.two_items = Some st ∧
    (length (List.filter is_resume Scenarios.two_items) ≤ 6 * 2)%nat ∧
    (all_done st = false → ∃ i v st', step st (Resume i v) = Some st').
Proof.
  eexists. split; [vm_compute; reflexivity|].
  match goal with
  | |- context [all_done ?st] =>
      apply (every_batch_terminates Preferences.defaults
               [Scenarios.quantum; Scenarios.relativity] false Scenarios.two_items st)
  end; [vm_compute; discriminate|vm_compute; reflexivity].
Defined.

Lemma slots_witness :
  ∃ st,
    run (processBatch Preferences.defaults [Scenarios.quantum] false)
      Scenarios.apply_fails = Some st ∧
    active (semaphore st) = Z.of_nat (count holding (tasks st)) ∧
    (all_done st = true → active (semaphore st) = 0%Z ∧ queue (semaphore st) = []).
Proof.
  eexists. split; [vm_compute; reflexivity|].
  match goal with
  | |- context [all_done ?st] =>
      apply (slots_are_returned Preferences.defaults [Scenarios.quantum] false
               Scenarios.apply_fails st)
  end. vm_compute. reflexivity.
Defined.

Lemma cancel_witness :
  ∃ st',
    run (cancel (processBatch Preferences.defaults
                   [Scenarios.quantum; Scenarios.relativity] false))
      [Resume 0 Woke] = Some st' ∧
    cancelled_flag st' = true ∧
    ∀ k t, tasks st' !! k = Some t →
           tasks (cancel (processBatch Preferences.defaults
                            [Scenarios.quantum; Scenarios.relativity] false)) !! k
             = Some t ∨
           past_cancel t = true ∨ t = AwaitAcquire true.
Proof.
  eexists. split; [vm_compute; reflexivity|].
  match goal with
  | |- cancelled_flag ?st' = true ∧ _ =>
      apply (cancel_stops_new_requests
               (cancel (processBatch Preferences.defaults
                          [Scenarios.quantum; Scenarios.relativity] false))
               st' [Resume 0 Woke])
  end; [reflexivity|vm_compute; reflexivity].
Defined.

Lemma confirmed_tags_witness :
  ∃ st,
    run (processBatch Preferences.defaults [Scenarios.quantum] true)
      [Resume 0 Woke; Resume 0 (Suggested Scenarios.biology_result)] = Some st ∧
    confirm st = true ∧
    ∀ k t, tasks st !! k = Some t → safe true t.
Proof.
  eexists. split; [vm_compute; reflexivity|].
  match goal with
  | |- confirm ?st = true ∧ _ =>
      apply (only_confirmed_tags_are_applied Preferences.defaults [Scenarios.quantum]
               true [Resume 0 Woke; Resume 0 (Suggested Scenarios.biology_result)] st)
  end. vm_compute. reflexivity.
Defined.

Lemma progress_reports_witness :
  ∃ st,
    run (processBatch Preferences.defaults [Scenarios.quantum; Scenarios.relativity]
           false) Scenarios.two_items = Some st ∧
    length (reported st) = current (progress st) ∧
    (current (progress st) ≤ 2)%nat ∧
    ∀ k report,
      reported st !! k = Some report →
      current (snapshot report) = S k ∧
      total (snapshot report) = 2%nat ∧
      seen report `prefix_of` results_of st (progress st).
Proof.
  eexists. split; [vm_compute; reflexivity|].
  match goal with
  | |- length (reported ?st) = _ ∧ _ =>
      apply (progress_reports_count_up Preferences.defaults
               [Scenarios.quantum; Scenarios.relativity] false Scenarios.two_items st)
  end. vm_compute. reflexivity.
Defined.

Lemma negative_concurrency_witness :
  ∃ st,
    run (processBatch Cases.stalled [Scenarios.quantum] false) [Cancel] = Some st ∧
    Forall (λ e, e = Cancel) [Cancel] ∧
    promise st = Pending ∧
    tasks st = repeat (AwaitAcquire false) 1 ∧
    reported st = [] ∧
    (∀ i v, step st (Resume i v) = None).
Proof.
  eexists. split; [vm_compute; reflexivity|].
  match goal with
  | |- _ ∧ promise ?st = Pending ∧ _ =>
      apply (negative_concurrency_stalls Cases.stalled [Scenarios.quantum] false
               [Cancel] st)
  end; [vm_compute; reflexivity|discriminate|vm_compute; reflexivity].
Defined.

Lemma summary_witness :
  ∃ st,
    run (processBatch Preferences.defaults [Scenarios.quantum] false)
      Scenarios.cancelled_early = Some st ∧
    (cancelled_flag st = true →
     Menu.summary (progress st) (results_of st (progress st)) =
       "⚠️ Cancelled: processed " +:+ pretty 1%nat +:+ " of " +:+ pretty 1%nat).
Proof.
  eexists. split; [vm_compute; reflexivity|].
  match goal with
  | |- cancelled_flag ?st = true → _ =>
      apply (summary_counts_every_item Preferences.defaults [Scenarios.quantum] false
               Scenarios.cancelled_early st)
  end; vm_compute; reflexivity.
Defined.

End BatchFacts.
